(** * The region layer of mimalloc ([src/memory.c])

    A shallow embedding of the thread-shared region allocator that sits
    between the raw OS memory primitives and the segment allocator, and the
    properties of its bitmap arithmetic, claim search, allocation and free
    paths.

    Target: the 64-bit configuration ([MI_INTPTR_SIZE == 8]).  [size_t] and
    [uintptr_t] values are integers in [0, 2^64) with the wrap-around
    written out; pointers are addresses, [0] being [NULL].  Assertions
    ([mi_assert_internal]) are compiled out, as in a release build.

    The layer is shared by the threads of the process.  One thread is
    followed through its calls; the OS and the other threads are the
    environment: the world holds what the OS will answer and what the other
    threads will have done to a word by the time a compare-and-swap of this
    thread looks at it. *)

From Stdlib Require Import ZArith Lia Bool List.
From stdpp Require Import base option list.

Local Open Scope Z_scope.

(** ** Constants *)

Definition MI_INTPTR_SIZE : Z := 8.

(** Modelled from the spec: [MI_SEGMENT_SIZE] is declared in
    [mimalloc-types.h], which is not part of the sources at hand; the block
    size is the segment size, 4 MiB. *)
Definition MI_SEGMENT_SIZE : Z := 4 * 1024 * 1024.

Definition MI_HEAP_REGION_MAX_SIZE : Z := 256 * 2 ^ 30.
Definition MI_SEGMENT_ALIGN : Z := MI_SEGMENT_SIZE.
Definition MI_REGION_MAP_BITS : Z := MI_INTPTR_SIZE * 8.
Definition MI_REGION_SIZE : Z := MI_SEGMENT_SIZE * MI_REGION_MAP_BITS.
Definition MI_REGION_MAX_ALLOC_SIZE : Z := (MI_REGION_MAP_BITS / 4) * MI_SEGMENT_SIZE.
Definition MI_REGION_MAX : Z := MI_HEAP_REGION_MAX_SIZE / MI_REGION_SIZE.
Definition UINTPTR_MAX : Z := 2 ^ MI_REGION_MAP_BITS - 1.
Definition SIZE_MAX : Z := 2 ^ MI_REGION_MAP_BITS - 1.
Definition MI_REGION_MAP_FULL : Z := UINTPTR_MAX.
Definition NULL : Z := 0.

(** ** Machine words *)

(** Unsigned arithmetic on [size_t]/[uintptr_t] is taken modulo [2^64]. *)
Definition wrap (x : Z) : Z := x mod 2 ^ MI_REGION_MAP_BITS.

(** [x << n] on a 64-bit unsigned word.  C leaves the shift undefined when
    the count is negative or not below the width of the word; that case is
    [None]. *)
Definition shl (x n : Z) : option Z :=
  if (0 <=? n) && (n <? MI_REGION_MAP_BITS) then Some (wrap (Z.shiftl x n)) else None.

(** [~x] on a 64-bit unsigned word. *)
Definition not64 (x : Z) : Z := wrap (Z.lnot x).

(** ** Utility functions *)

(** Blocks (of 4MiB) needed for the given size. *)
Definition mi_region_block_count (size : Z) : Z :=
  wrap (size + MI_SEGMENT_SIZE - 1) / MI_SEGMENT_SIZE.

(** The bit mask for a given number of blocks at a specified bit index:
    [((uintptr_t)1 << blocks) - 1) << bitidx]. *)
Definition mi_region_block_mask (blocks bitidx : Z) : option Z :=
  one ← shl 1 blocks; shl (wrap (one - 1)) bitidx.

(** Modelled from the spec: [_mi_align_up] lives in [mimalloc-internal.h],
    which is not part of the sources at hand; it rounds [sz] up to a
    multiple of [alignment] (and gives [sz] back when that would leave the
    word). *)
Definition _mi_align_up (sz alignment : Z) : Z :=
  let x := wrap ((sz / alignment) * alignment) in
  let x := if x <? sz then wrap (x + alignment) else x in
  if x <? sz then sz else x.

(** ** The region table and its environment *)

(** A region owns a chunk of REGION_SIZE (256MiB) (virtual) memory with a
    bit map with one bit per MI_SEGMENT_SIZE (4MiB) block. *)
Record mem_region_t := mk_region {
  map : Z;     (* in-use bit per MI_SEGMENT_SIZE block *)
  start : Z    (* start of virtual memory area *)
}.

(** What this thread does to the outside: the calls into the OS layer with
    their results, and its successful writes to a region descriptor. *)
Inductive event :=
| EvOsAllocAligned (size alignment : Z) (commit : bool) (result : Z)
| EvOsFree (p size : Z)
| EvOsCommit (p size : Z) (ok : bool)
| EvOsDecommit (p size : Z) (ok : bool)
| EvOsReset (p size : Z) (ok : bool)
| EvOsUnreset (p size : Z) (ok : bool)
| EvOsProtect (p size : Z) (ok : bool)
| EvOsUnprotect (p size : Z) (ok : bool)
| EvMapWritten (idx newmap : Z)
| EvStartWritten (idx newstart : Z).

(** What the other threads did to the word a compare-and-swap is aimed at,
    between this thread's atomic read and its compare-and-swap. *)
Inductive interference :=
| Quiet
| Stored (v : Z).

(** The process-wide state ([regions], [regions_count], [region_next_idx]),
    and the environment the layer runs in: the page sizes and the
    [mi_option_eager_region_commit] option, the answers the OS will give to
    the coming reservations and to the coming boolean primitives, the
    interference the coming compare-and-swaps on a [map] and on a [start]
    will meet, and the events so far. *)
Record world := mk_world {
  regions : list mem_region_t;
  regions_count : Z;
  region_next_idx : Z;
  os_page_size : Z;
  os_large_page_size : Z;
  option_eager_region_commit : bool;
  os_alloc_answers : list Z;
  os_bool_answers : list bool;
  map_races : list interference;
  start_races : list interference;
  trace : list event
}.

Definition set_regions (v : list mem_region_t) (w : world) : world :=
  mk_world v (regions_count w) (region_next_idx w) (os_page_size w) (os_large_page_size w)
    (option_eager_region_commit w) (os_alloc_answers w) (os_bool_answers w)
    (map_races w) (start_races w) (trace w).

Definition set_regions_count (v : Z) (w : world) : world :=
  mk_world (regions w) v (region_next_idx w) (os_page_size w) (os_large_page_size w)
    (option_eager_region_commit w) (os_alloc_answers w) (os_bool_answers w)
    (map_races w) (start_races w) (trace w).

Definition set_region_next_idx (v : Z) (w : world) : world :=
  mk_world (regions w) (regions_count w) v (os_page_size w) (os_large_page_size w)
    (option_eager_region_commit w) (os_alloc_answers w) (os_bool_answers w)
    (map_races w) (start_races w) (trace w).

Definition set_os_alloc_answers (v : list Z) (w : world) : world :=
  mk_world (regions w) (regions_count w) (region_next_idx w) (os_page_size w) (os_large_page_size w)
    (option_eager_region_commit w) v (os_bool_answers w)
    (map_races w) (start_races w) (trace w).

Definition set_os_bool_answers (v : list bool) (w : world) : world :=
  mk_world (regions w) (regions_count w) (region_next_idx w) (os_page_size w) (os_large_page_size w)
    (option_eager_region_commit w) (os_alloc_answers w) v
    (map_races w) (start_races w) (trace w).

Definition set_map_races (v : list interference) (w : world) : world :=
  mk_world (regions w) (regions_count w) (region_next_idx w) (os_page_size w) (os_large_page_size w)
    (option_eager_region_commit w) (os_alloc_answers w) (os_bool_answers w)
    v (start_races w) (trace w).

Definition set_start_races (v : list interference) (w : world) : world :=
  mk_world (regions w) (regions_count w) (region_next_idx w) (os_page_size w) (os_large_page_size w)
    (option_eager_region_commit w) (os_alloc_answers w) (os_bool_answers w)
    (map_races w) v (trace w).

Definition set_trace (v : list event) (w : world) : world :=
  mk_world (regions w) (regions_count w) (region_next_idx w) (os_page_size w) (os_large_page_size w)
    (option_eager_region_commit w) (os_alloc_answers w) (os_bool_answers w)
    (map_races w) (start_races w) v.

(** The static table: [MI_REGION_MAX] zeroed descriptors, no region
    allocated, the search starting at index 0. *)
Definition regions_init : list mem_region_t :=
  replicate (Z.to_nat MI_REGION_MAX) (mk_region 0 NULL).

Definition world_init (page large_page : Z) (eager : bool) (allocs : list Z)
    (bools : list bool) (mraces sraces : list interference) : world :=
  mk_world regions_init 0 0 page large_page eager allocs bools mraces sraces [].

(** ** Computations on the shared state *)

(** A computation runs from a world to a result and a new world; [None] is
    undefined behaviour of the C program (a shift by the width of the word,
    an index outside [regions]) or a loop budget that ran out (which the
    budgets below never do, see [_mi_mem_alloc_aligned_total] and
    [_mi_mem_free_total]). *)
Definition M (A : Type) : Type := world -> option (A * world).

Definition ret {A} (a : A) : M A := fun w => Some (a, w).

Definition bind {A B} (c : M A) (k : A -> M B) : M B :=
  fun w => match c w with
           | Some (a, w') => k a w'
           | None => None
           end.

Definition undefined {A} : M A := fun _ => None.

Definition lift {A} (o : option A) : M A :=
  fun w => match o with
           | Some a => Some (a, w)
           | None => None
           end.

Definition gets {A} (f : world -> A) : M A := fun w => Some (f w, w).

Definition modify (f : world -> world) : M unit := fun w => Some (tt, f w).

Declare Scope region_scope.
Delimit Scope region_scope with region.
Notation "x <- c ;; k" := (bind c (fun x => k))
  (at level 20, c at level 99, k at level 200, only parsing) : region_scope.
Notation "' pat <- c ;; k" := (bind c (fun x => match x with pat => k end))
  (at level 20, pat pattern, c at level 99, k at level 200, only parsing) : region_scope.
Notation "c ;; k" := (bind c (fun _ => k))
  (at level 100, k at level 200, only parsing, right associativity) : region_scope.
Local Open Scope region_scope.

Definition log (e : event) : M unit :=
  modify (fun w => set_trace (trace w ++ [e]) w).

(** *** The OS layer

    The primitives declared at the top of [memory.c] (internal OS interface),
    with the page sizes and the option.  They are defined outside the
    sources at hand: each one takes its result from the world, which every
    property quantifies over, and records the call.  Of their results one
    thing only is taken from their interface: what [_mi_os_alloc_aligned]
    returns is [NULL] or memory of the size and at the alignment it was
    called with. *)

Definition _mi_os_page_size : M Z := gets os_page_size.
Definition _mi_os_large_page_size : M Z := gets os_large_page_size.
Definition mi_option_is_enabled_eager_region_commit : M bool :=
  gets option_eager_region_commit.

Definition next_alloc_answer : M Z :=
  fun w => match os_alloc_answers w with
           | [] => Some (NULL, w)
           | a :: rest => Some (a, set_os_alloc_answers rest w)
           end.

Definition next_bool_answer : M bool :=
  fun w => match os_bool_answers w with
           | [] => Some (true, w)
           | b :: rest => Some (b, set_os_bool_answers rest w)
           end.

(** Modelled from the spec: [_mi_os_alloc_aligned] is defined in [os.c],
    which is not part of the sources at hand; it reserves a range of virtual
    addresses and returns an aligned pointer or null ([_mi_mem_alloc_aligned]
    ends on the assertion that what it returns is a multiple of the
    alignment it was asked for).  The address [q] is one the OS may return
    for [_mi_os_alloc_aligned(size, alignment, ...)]: it is not [NULL], the
    [size] bytes from it on are within the address space, and it is a
    multiple of [alignment] when one is asked for. *)
Definition os_granted (size alignment q : Z) : bool :=
  (0 <? q) && (q + size <=? 2 ^ 64) && ((alignment =? 0) || (q mod alignment =? 0)).

(** The OS returns the address it has at hand when that one meets the
    request, and [NULL] when it does not. *)
Definition _mi_os_alloc_aligned (size alignment : Z) (commit : bool) : M Z :=
  a <- next_alloc_answer ;;
  let p := if os_granted size alignment a then a else NULL in
  log (EvOsAllocAligned size alignment commit p) ;;
  ret p.

Definition _mi_os_free (p size : Z) : M unit := log (EvOsFree p size).

Definition _mi_os_commit (p size : Z) : M bool :=
  ok <- next_bool_answer ;; log (EvOsCommit p size ok) ;; ret ok.

Definition _mi_os_decommit (p size : Z) : M bool :=
  ok <- next_bool_answer ;; log (EvOsDecommit p size ok) ;; ret ok.

Definition _mi_os_reset (p size : Z) : M bool :=
  ok <- next_bool_answer ;; log (EvOsReset p size ok) ;; ret ok.

Definition _mi_os_unreset (p size : Z) : M bool :=
  ok <- next_bool_answer ;; log (EvOsUnreset p size ok) ;; ret ok.

Definition _mi_os_protect (p size : Z) : M bool :=
  ok <- next_bool_answer ;; log (EvOsProtect p size ok) ;; ret ok.

Definition _mi_os_unprotect (p size : Z) : M bool :=
  ok <- next_bool_answer ;; log (EvOsUnprotect p size ok) ;; ret ok.

(** *** Atomic operations on a region descriptor

    Modelled from the spec: the atomic operations are those of
    [mimalloc-atomic.h], which is not part of the sources at hand: an atomic
    load, an atomic store, a fetch-and-add and a compare-and-swap on a word
    or on a pointer.  This thread runs its steps one after the other; the
    other threads get their turn between an atomic read of this thread and
    the compare-and-swap that follows it, which is where a compare-and-swap
    can fail.

    A [mem_region_t*] is the index of the descriptor in [regions]; an index
    outside the table is undefined. *)

Definition region_at (idx : Z) : M mem_region_t :=
  fun w => if idx <? 0 then None
           else match regions w !! Z.to_nat idx with
                | Some r => Some (r, w)
                | None => None
                end.

Definition store_map (idx v : Z) : M unit :=
  r <- region_at idx ;;
  modify (fun w => set_regions (<[Z.to_nat idx := mk_region v (start r)]> (regions w)) w).

Definition store_start (idx v : Z) : M unit :=
  r <- region_at idx ;;
  modify (fun w => set_regions (<[Z.to_nat idx := mk_region (map r) v]> (regions w)) w).

Definition mi_atomic_read_map (idx : Z) : M Z := r <- region_at idx ;; ret (map r).

Definition mi_atomic_read_start (idx : Z) : M Z := r <- region_at idx ;; ret (start r).

Definition mi_atomic_increment_regions_count : M unit :=
  modify (fun w => set_regions_count (wrap (regions_count w + 1)) w).

Definition mi_atomic_write_region_next_idx (idx : Z) : M unit :=
  modify (set_region_next_idx idx).

(** The other threads' turn before a compare-and-swap on [regions[idx].map]:
    they leave the word alone, or leave [v] in it.  The other threads are
    given their turn at the compare-and-swaps of this thread only: what they
    do to a word after the last compare-and-swap of a call, and what they
    write to [region_next_idx], is not followed. *)
Definition map_race (idx : Z) : M unit :=
  fun w => match map_races w with
           | [] => Some (tt, w)
           | Quiet :: rest => Some (tt, set_map_races rest w)
           | Stored v :: rest => store_map idx v (set_map_races rest w)
           end.

(** The other threads' turn before a compare-and-swap on
    [regions[idx].start]: one of them may run the reservation of
    [mi_region_commit_blocks] first, with [q] what the OS has for its
    request of [MI_REGION_SIZE] bytes at [MI_SEGMENT_ALIGN]: it sets [start]
    if it is still [NULL], and then counts the region.  Its
    compare-and-swap and its increment are taken as one step here: this
    thread does not see [regions_count] between the two. *)
Definition start_race (idx : Z) : M unit :=
  fun w => match start_races w with
           | [] => Some (tt, w)
           | Quiet :: rest => Some (tt, set_start_races rest w)
           | Stored q :: rest =>
               (cur <- mi_atomic_read_start idx ;;
                if (cur =? NULL) && os_granted MI_REGION_SIZE MI_SEGMENT_ALIGN q
                then store_start idx q ;; mi_atomic_increment_regions_count
                else ret tt) (set_start_races rest w)
           end.

(** [mi_atomic_compare_exchange(&regions[idx].map, newmap, expected)] *)
Definition mi_atomic_compare_exchange_map (idx newmap expected : Z) : M bool :=
  map_race idx ;;
  cur <- mi_atomic_read_map idx ;;
  if cur =? expected
  then store_map idx newmap ;; log (EvMapWritten idx newmap) ;; ret true
  else ret false.

(** [mi_atomic_compare_exchange_ptr(&regions[idx].start, newstart, expected)] *)
Definition mi_atomic_compare_exchange_start (idx newstart expected : Z) : M bool :=
  start_race idx ;;
  cur <- mi_atomic_read_start idx ;;
  if cur =? expected
  then store_start idx newstart ;; log (EvStartWritten idx newstart) ;; ret true
  else ret false.

(** The budget of a retry loop around a compare-and-swap on a [map]: every
    failed attempt uses up one entry of [map_races]. *)
Definition cas_budget : M nat := gets (fun w => S (length (map_races w))).

(** Return a rounded commit/reset size such that we don't fragment large OS
    pages into small ones. *)
Definition mi_good_commit_size (size : Z) : M Z :=
  large <- _mi_os_large_page_size ;;
  if size >? wrap (SIZE_MAX - large) then ret size
  else ret (_mi_align_up size large).

(** ** Commit from a region *)

(** [do { map = read(&region->map); } while (!cas(&region->map, map & ~mask, map));] *)
Fixpoint unclaim (fuel : nat) (idx mask : Z) : M unit :=
  match fuel with
  | O => undefined
  | S fuel' =>
      map <- mi_atomic_read_map idx ;;
      ok <- mi_atomic_compare_exchange_map idx (Z.land map (not64 mask)) map ;;
      if ok then ret tt else unclaim fuel' idx mask
  end.

(** Ensure the region is reserved: the [if (start == NULL) { ... }] of
    [mi_region_commit_blocks].  Gives back [false] on the [return false]
    inside, else [true] and the [start] to go on with. *)
Definition ensure_reserved (idx mask start : Z) : M (bool * Z) :=
  if start =? NULL then
    eager <- mi_option_is_enabled_eager_region_commit ;;
    start <- _mi_os_alloc_aligned MI_REGION_SIZE MI_SEGMENT_ALIGN eager ;;
    if start =? NULL then
      (* failure to allocate from the OS! unclaim the blocks and fail *)
      fuel <- cas_budget ;;
      unclaim fuel idx mask ;;
      ret (false, start)
    else
      (* set the newly allocated region *)
      won <- mi_atomic_compare_exchange_start idx start NULL ;;
      if won then
        (* update the region count *)
        mi_atomic_increment_regions_count ;;
        ret (true, start)
      else
        (* failed, another thread allocated just before us, free our allocated memory *)
        _mi_os_free start MI_REGION_SIZE ;;
        start <- mi_atomic_read_start idx ;;
        ret (true, start)
  else ret (true, start).

(** Commit the [blocks] in the region at [idx] and [bitidx] of a given
    [size].  The result is the returned flag with the contents of [*p] and
    [*id] after the call ([p] and [id] are their contents before it). *)
Definition mi_region_commit_blocks (idx bitidx blocks size : Z) (commit : bool)
    (p id : Z) : M (bool * Z * Z) :=
  mask <- lift (mi_region_block_mask blocks bitidx) ;;
  start <- mi_atomic_read_start idx ;;
  '(reserved, start) <- ensure_reserved idx mask start ;;
  if negb reserved then ret (false, p, id)
  else
    (* Commit the blocks to memory *)
    let blocks_start := wrap (start + wrap (bitidx * MI_SEGMENT_SIZE)) in
    eager <- mi_option_is_enabled_eager_region_commit ;;
    (if commit && negb eager
     then sz <- mi_good_commit_size size ;; _mi_os_commit blocks_start sz ;; ret tt
     else ret tt) ;;
    (* and return the allocation *)
    mi_atomic_write_region_next_idx idx ;;
    ret (true, blocks_start, wrap (wrap (idx * MI_REGION_MAP_BITS) + bitidx)).

(** ** The claim search *)

(** The budget of a loop that shifts a word to the right until it is used
    up. *)
Definition word_budget : nat := S (Z.to_nat MI_REGION_MAP_BITS).

(** [while ((m&1) == 1) { bitidx++; m>>=1; }] *)
Fixpoint skip_ones (fuel : nat) (m bitidx : Z) : option (Z * Z) :=
  match fuel with
  | O => None
  | S fuel' =>
      if Z.land m 1 =? 1
      then skip_ones fuel' (Z.shiftr m 1) (wrap (bitidx + 1))
      else Some (m, bitidx)
  end.

(** [while (zeros < blocks && (m&1)==0) { zeros++; m>>=1; }] *)
Fixpoint count_zeros (fuel : nat) (blocks m zeros : Z) : option (Z * Z) :=
  match fuel with
  | O => None
  | S fuel' =>
      if (zeros <? blocks) && (Z.land m 1 =? 0)
      then count_zeros fuel' blocks (Z.shiftr m 1) (wrap (zeros + 1))
      else Some (m, zeros)
  end.

(** The inner [do { ... } while (bitidx <= bitidx_max);] of
    [mi_region_alloc_blocks], from the [m] and [bitidx] it is entered with;
    the result is [bitidx] when the loop is left, by [break] or by its
    condition. *)
Fixpoint find_range (fuel : nat) (blocks bitidx_max m bitidx : Z) : option Z :=
  match fuel with
  | O => None
  | S fuel' =>
      (* skip ones *)
      '(m, bitidx) ← skip_ones word_budget m bitidx;
      (* count zeros *)
      '(m, zeros) ← count_zeros word_budget blocks (Z.shiftr m 1) 1;
      if zeros =? blocks then Some bitidx  (* found a range that fits *)
      else
        let bitidx := wrap (bitidx + zeros) in
        if bitidx <=? bitidx_max
        then find_range fuel' blocks bitidx_max m bitidx
        else Some bitidx
  end.

(** The outer [do { ... } while (!mi_atomic_compare_exchange(...));] of
    [mi_region_alloc_blocks].  [bitidx] is declared outside the loop, so a
    new round starts from the value the last one left in it.  The result is
    [None] on the [return true] inside (no range found), else the [bitidx]
    of the claim. *)
Fixpoint claim (fuel : nat) (idx blocks mask bitidx_max bitidx : Z) : M (option Z) :=
  match fuel with
  | O => undefined
  | S fuel' =>
      (* find the first free range of bits *)
      map <- mi_atomic_read_map idx ;;
      bitidx <- lift (find_range word_budget blocks bitidx_max map bitidx) ;;
      if bitidx >? bitidx_max then ret None  (* no error, but could not find a range either *)
      else
        (* try to claim it *)
        shifted <- lift (shl mask bitidx) ;;
        let newmap := Z.lor map shifted in
        ok <- mi_atomic_compare_exchange_map idx newmap map ;;
        if ok then ret (Some bitidx)
        else claim fuel' idx blocks mask bitidx_max bitidx
  end.

(** Allocate [blocks] in the region at [idx] of a given [size]. *)
Definition mi_region_alloc_blocks (idx blocks size : Z) (commit : bool)
    (p id : Z) : M (bool * Z * Z) :=
  mask <- lift (mi_region_block_mask blocks 0) ;;
  let bitidx_max := wrap (MI_REGION_MAP_BITS - blocks) in
  fuel <- cas_budget ;;
  found <- claim fuel idx blocks mask bitidx_max 0 ;;
  match found with
  | None => ret (true, p, id)
  | Some bitidx =>
      (* success, we claimed the blocks atomically
         now commit the block memory -- this can still fail *)
      mi_region_commit_blocks idx bitidx blocks size commit p id
  end.

(** Try to allocate [blocks] in the region at [idx] of a given [size].
    Does a quick check before trying to claim. *)
Definition mi_region_try_alloc_blocks (idx blocks size : Z) (commit : bool)
    (p id : Z) : M (bool * Z * Z) :=
  m <- mi_atomic_read_map idx ;;
  if negb (m =? MI_REGION_MAP_FULL)
  then mi_region_alloc_blocks idx blocks size commit p id
  else ret (true, p, id).

(** ** Allocation *)

(** [for (size_t visited = 0; visited < count; visited++, idx++)]: the
    probes of the existing regions, [remaining] of them to go.  The flag of
    the result is [false] on the [return NULL] inside. *)
Fixpoint first_sweep (remaining : nat) (idx count blocks size : Z) (commit : bool)
    (p id : Z) : M (bool * Z * Z) :=
  match remaining with
  | O => ret (true, p, id)
  | S remaining' =>
      '(ok, p, id) <- mi_region_try_alloc_blocks (idx mod count) blocks size commit p id ;;
      if negb ok then ret (false, p, id)
      else if negb (p =? NULL) then ret (true, p, id)
      else first_sweep remaining' (wrap (idx + 1)) count blocks size commit p id
  end.

(** [for (idx = count; idx < MI_REGION_MAX; idx++)]: the probes beyond the
    count. *)
Fixpoint second_sweep (remaining : nat) (idx blocks size : Z) (commit : bool)
    (p id : Z) : M (bool * Z * Z) :=
  match remaining with
  | O => ret (true, p, id)
  | S remaining' =>
      '(ok, p, id) <- mi_region_try_alloc_blocks idx blocks size commit p id ;;
      if negb ok then ret (false, p, id)
      else if negb (p =? NULL) then ret (true, p, id)
      else second_sweep remaining' (wrap (idx + 1)) blocks size commit p id
  end.

(** Allocate [size] memory aligned at [alignment].  The result is the
    returned pointer and the contents of [*id]. *)
Definition _mi_mem_alloc_aligned (size alignment : Z) (commit : bool) : M (Z * Z) :=
  let id := SIZE_MAX in
  (* use direct OS allocation for huge blocks or alignment (with [id = SIZE_MAX]) *)
  if (size >? MI_REGION_MAX_ALLOC_SIZE) || (alignment >? MI_SEGMENT_ALIGN) then
    sz <- mi_good_commit_size size ;;
    p <- _mi_os_alloc_aligned sz alignment true ;;
    ret (p, id)
  else
    (* always round size to OS page size multiple *)
    page <- _mi_os_page_size ;;
    let size := _mi_align_up size page in
    (* calculate the number of needed blocks *)
    let blocks := mi_region_block_count size in
    (* find a range of free blocks *)
    let p := NULL in
    count <- gets regions_count ;;
    idx <- gets region_next_idx ;;
    '(ok, p, id) <- first_sweep (Z.to_nat count) idx count blocks size commit p id ;;
    if negb ok then ret (NULL, id)
    else
      '(ok, p, id) <-
        (if p =? NULL
         then second_sweep (Z.to_nat (MI_REGION_MAX - count)) count blocks size commit p id
         else ret (true, p, id)) ;;
      if negb ok then ret (NULL, id)
      else if p =? NULL then
        (* we could not find a place to allocate, fall back to the os directly *)
        p <- _mi_os_alloc_aligned size alignment commit ;;
        ret (p, id)
      else ret (p, id).

(** Allocate [size] memory. *)
Definition _mi_mem_alloc (size : Z) (commit : bool) : M (Z * Z) :=
  _mi_mem_alloc_aligned size 0 commit.

(** ** Free *)

(** Free previously allocated memory with a given id. *)
Definition _mi_mem_free (p size id : Z) : M unit :=
  if p =? NULL then ret tt
  else if size =? 0 then ret tt
  else if id =? SIZE_MAX then
    (* was a direct OS allocation, pass through *)
    _mi_os_free p size
  else
    (* allocated in a region *)
    if size >? MI_REGION_MAX_ALLOC_SIZE then ret tt
    else
      page <- _mi_os_page_size ;;
      let size := _mi_align_up size page in
      let idx := id / MI_REGION_MAP_BITS in
      let bitidx := id mod MI_REGION_MAP_BITS in
      let blocks := mi_region_block_count size in
      mask <- lift (mi_region_block_mask blocks bitidx) ;;
      if idx >=? MI_REGION_MAX then ret tt
      else
        start <- mi_atomic_read_start idx ;;
        let blocks_start := wrap (start + wrap (bitidx * MI_SEGMENT_SIZE)) in
        if negb (blocks_start =? p) || (wrap (bitidx + blocks) >? MI_REGION_MAP_BITS)
        then ret tt
        else
          (* decommit (or reset) the blocks to reduce the working set. *)
          eager <- mi_option_is_enabled_eager_region_commit ;;
          (if eager then _mi_os_reset p size ;; ret tt
           else _mi_os_decommit p size ;; ret tt) ;;
          (* and unclaim *)
          fuel <- cas_budget ;;
          unclaim fuel idx mask.

(** ** Other *)

Definition _mi_mem_commit (p size : Z) : M bool := _mi_os_commit p size.
Definition _mi_mem_decommit (p size : Z) : M bool := _mi_os_decommit p size.
Definition _mi_mem_reset (p size : Z) : M bool := _mi_os_reset p size.
Definition _mi_mem_unreset (p size : Z) : M bool := _mi_os_unreset p size.
Definition _mi_mem_protect (p size : Z) : M bool := _mi_os_protect p size.
Definition _mi_mem_unprotect (p size : Z) : M bool := _mi_os_unprotect p size.

(** ** Notions the properties are stated with *)

(** A word of the machine. *)
Definition word (v : Z) : Prop := 0 <= v < 2 ^ 64.

(** The mask of [blocks] blocks at [bitidx], where it is defined. *)
Definition mask_at (blocks bitidx : Z) : Z := wrap (Z.shiftl (Z.ones blocks) bitidx).

(** The blocks [i, i + blocks) are free in the bitmap [mp]. *)
Definition run_free (mp i blocks : Z) : Prop :=
  forall k, i <= k < i + blocks -> Z.testbit mp k = false.

(** A run of [blocks] blocks fits at bit index [i] of the bitmap [mp]:
    [i + blocks <= MI_REGION_MAP_BITS] and [mp & mask(blocks, i) == 0]. *)
Definition fits (mp blocks i : Z) : Prop :=
  0 <= i /\ i + blocks <= MI_REGION_MAP_BITS /\
  exists mask, mi_region_block_mask blocks i = Some mask /\ Z.land mp mask = 0.

(** The [start] of a descriptor: [NULL], or the address of a range of
    [MI_REGION_SIZE] bytes within the address space, on a segment
    boundary. *)
Definition region_ptr (q : Z) : Prop :=
  0 <= q /\ q + MI_REGION_SIZE <= 2 ^ 64 /\ q mod MI_SEGMENT_ALIGN = 0.

Definition race_ok (P : Z -> Prop) (i : interference) : Prop :=
  match i with
  | Quiet => True
  | Stored v => P v
  end.

Definition region_ok (r : mem_region_t) : Prop := word (map r) /\ region_ptr (start r).

(** The number of descriptors whose [start] is set. *)
Fixpoint reserved (l : list mem_region_t) : Z :=
  match l with
  | [] => 0
  | r :: l' => (if start r =? NULL then 0 else 1) + reserved l'
  end.

(** The worlds the layer runs in: the table has its [MI_REGION_MAX]
    descriptors, each a word and a reservation; [regions_count] counts no
    more regions than are reserved; [region_next_idx] is an index of the
    table; the OS page size is positive and at most a segment; and the
    other threads leave words in a [map].  Nothing is asked of the addresses
    the OS has at hand, for this thread or for the others. *)
Record good (w : world) : Prop := mk_good {
  good_length : length (regions w) = Z.to_nat MI_REGION_MAX;
  good_count : 0 <= regions_count w <= reserved (regions w);
  good_next : 0 <= region_next_idx w < MI_REGION_MAX;
  good_regions : Forall region_ok (regions w);
  good_page : 0 < os_page_size w <= MI_SEGMENT_SIZE;
  good_map_races : Forall (race_ok word) (map_races w)
}.

(** What a computation leaves as it was: the page sizes and the option; the
    interference still to come is what is left of the one there was. *)
Record evolves (w w' : world) : Prop := mk_evolves {
  ev_page : os_page_size w' = os_page_size w;
  ev_large : os_large_page_size w' = os_large_page_size w;
  ev_eager : option_eager_region_commit w' = option_eager_region_commit w;
  ev_map_races : map_races w' `suffix_of` map_races w
}.

(** The events from [w] to [w'] all satisfy [P]. *)
Definition since (P : event -> Prop) (w w' : world) : Prop :=
  exists delta, trace w' = trace w ++ delta /\ Forall P delta.

(** The OS denied the reservation of a region. *)
Definition failed_reservation (e : event) : Prop :=
  exists commit, e = EvOsAllocAligned MI_REGION_SIZE MI_SEGMENT_ALIGN commit NULL.

(** A reservation was denied between [w] and [w']. *)
Definition denied (w w' : world) : Prop :=
  exists delta, trace w' = trace w ++ delta /\ Exists failed_reservation delta.


(** Every commit among the events is one of the range at [p]. *)
Definition commit_at (p : Z) (e : event) : Prop :=
  match e with
  | EvOsCommit q _ _ => q = p
  | _ => True
  end.

(** The region at [idx] went from [w] to [w'] by a claim of [blocks] blocks
    at the lowest bit index where they fit, with [p] and [id] the block
    pointer and the memory id of the claim. *)
Definition claimed_at (idx blocks : Z) (w : world) (p id : Z) (w' : world) : Prop :=
  exists bitidx r s,
    regions w !! Z.to_nat idx = Some r /\
    0 <= bitidx /\ bitidx + blocks <= MI_REGION_MAP_BITS /\
    Z.land (map r) (mask_at blocks bitidx) = 0 /\
    (forall j, fits (map r) blocks j -> bitidx <= j) /\
    s <> NULL /\ region_ptr s /\
    regions w' = <[Z.to_nat idx := mk_region (Z.lor (map r) (mask_at blocks bitidx)) s]> (regions w) /\
    p = s + bitidx * MI_SEGMENT_SIZE /\
    id = idx * MI_REGION_MAP_BITS + bitidx.

(** What a call into the OS layer leaves as it was. *)
Definition frame (w w' : world) : Prop :=
  regions w' = regions w /\ regions_count w' = regions_count w /\
  region_next_idx w' = region_next_idx w /\
  map_races w' = map_races w /\ start_races w' = start_races w.

(** The events of a reservation that went through: no reservation denied,
    and no commit yet. *)
Definition reserving (e : event) : Prop :=
  match e with
  | EvOsAllocAligned _ _ _ result => result <> NULL
  | EvOsCommit _ _ _ => False
  | _ => True
  end.

(** The events of a probe that did not meet an error: no reservation of a
    region denied. *)
Definition granted (e : event) : Prop := ~ failed_reservation e.

(** The events of a claim: writes to a [map]. *)
Definition map_written (e : event) : Prop :=
  match e with
  | EvMapWritten _ _ => True
  | _ => False
  end.

Definition no_commit (e : event) : Prop :=
  match e with
  | EvOsCommit _ _ _ => False
  | _ => True
  end.

(** Some region went from [w] to [w'] by a claim. *)
Definition claimed (blocks : Z) (w : world) (p id : Z) (w' : world) : Prop :=
  exists idx, 0 <= idx < MI_REGION_MAX /\ claimed_at idx blocks w p id w'.

(** The three ways a search for blocks ends, with the flag it returns and
    [*p] and [*id] after it ([NULL] and [SIZE_MAX] before it): an error, the
    OS having denied the reservation of a region, with nothing written and,
    without interference, the table as it was; no range found, with
    nothing written and, without interference, nothing changed; or a claim,
    [claim] being what it did to the table when there was no interference. *)
Definition outcome (claim : world -> Z -> Z -> world -> Prop)
    (w : world) (res : bool * Z * Z) (w' : world) : Prop :=
  good w' /\ evolves w w' /\
  match res with
  | (false, p, id) =>
      p = NULL /\ id = SIZE_MAX /\ denied w w' /\ since no_commit w w' /\
      (map_races w = [] -> regions w' = regions w)
  | (true, p, id) =>
      (p = NULL /\ id = SIZE_MAX /\ since (fun e => granted e /\ no_commit e) w w' /\
       (map_races w = [] -> w' = w))
      \/ (p <> NULL /\ id <> SIZE_MAX /\ since (fun e => granted e /\ commit_at p e) w w' /\
          (map_races w = [] -> claim w p id w'))
  end.

(** The ways an allocation that goes to the regions ends, with the pointer
    it returns and [*id] after it: the error and the claim of [outcome], or
    a direct OS allocation after no region had a range. *)
Definition alloc_outcome (size : Z) (w : world) (res : Z * Z) (w' : world) : Prop :=
  good w' /\ evolves w w' /\
  ((fst res = NULL /\ snd res = SIZE_MAX /\ denied w w' /\ since no_commit w w' /\
    (map_races w = [] -> regions w' = regions w))
   \/ (snd res = SIZE_MAX /\ since (fun e => granted e /\ no_commit e) w w' /\
       (map_races w = [] -> regions w' = regions w))
   \/ (fst res <> NULL /\ snd res <> SIZE_MAX /\
       since (fun e => granted e /\ commit_at (fst res) e) w w' /\
       (map_races w = [] ->
        claimed (mi_region_block_count (_mi_align_up size (os_page_size w))) w
          (fst res) (snd res) w'))).

(** The event of the release of a range on free: a reset under eager
    commit, else a decommit. *)
Definition release_event (w : world) (p size : Z) (ok : bool) : event :=
  if option_eager_region_commit w then EvOsReset p size ok else EvOsDecommit p size ok.

(** What the free of a region block checks before it releases anything. *)
Definition free_checks (p size id : Z) (w : world) : Prop :=
  let size' := _mi_align_up size (os_page_size w) in
  let idx := id / MI_REGION_MAP_BITS in
  let bitidx := id mod MI_REGION_MAP_BITS in
  let blocks := mi_region_block_count size' in
  size <= MI_REGION_MAX_ALLOC_SIZE /\ idx < MI_REGION_MAX /\
  (exists r, regions w !! Z.to_nat idx = Some r /\
             p = wrap (start r + wrap (bitidx * MI_SEGMENT_SIZE))) /\
  bitidx + blocks <= MI_REGION_MAP_BITS.

(** A world to try the layer in: the table as it is at the start, pages of
    4 KiB, no eager commit, an OS that grants one reservation, at 1 GiB, and
    no interference. *)
Definition example_world : world := world_init 4096 4096 false [2 ^ 30] [] [] [].

(** A world in the middle of a race: region 0 is reserved and has its
    blocks 0 and 1 claimed; between the atomic read of this thread and its
    compare-and-swap, the other threads free those two blocks and claim
    block 2, which leaves [map = 4]. *)
Definition racing_world : world :=
  mk_world (<[0%nat := mk_region 3 (2 ^ 30)]> regions_init) 1 0 4096 4096 false
    [] [] [Stored 4] [] [].

(** A world in the middle of a race for a region without a reservation:
    two threads have claimed the blocks 0 and 1 of region 0 and wait for its
    reservation, and the OS has no memory left.  Between the atomic read of
    this thread and its compare-and-swap a third thread claims block 2 and
    the first two, their reservation denied, give their blocks back, which
    leaves [map = 4]. *)
Definition denied_world : world :=
  mk_world (<[0%nat := mk_region 3 NULL]> regions_init) 0 0 4096 4096 false
    [] [] [Stored 4] [] [].

(** A world whose region 0 is reserved and has the blocks 0, 8 and 16
    claimed. *)
Definition fragmented_world : world :=
  mk_world (<[0%nat := mk_region 65793 (2 ^ 30)]> regions_init) 1 0 4096 4096 false
    [] [] [] [] [].

(** A computation that runs to a result, and what holds of it. *)
Definition runs {A} (c : M A) (w : world) (Q : A -> world -> Prop) : Prop :=
  exists a w', c w = Some (a, w') /\ Q a w'.

(** The calls into the layer, and a thread making them one after the
    other. *)
Inductive call :=
| Alloc (size alignment : Z) (commit : bool)
| Free (p size id : Z).

Definition run_call (c : call) : M unit :=
  match c with
  | Alloc size alignment commit => _mi_mem_alloc_aligned size alignment commit ;; ret tt
  | Free p size id => _mi_mem_free p size id
  end.

Fixpoint run_calls (cs : list call) : M unit :=
  match cs with
  | [] => ret tt
  | c :: cs' => run_call c ;; run_calls cs'
  end.

(** The calls a caller may make: a size that is not zero, and sizes,
    alignments, pointers and ids that are words. *)
Definition call_ok (c : call) : Prop :=
  match c with
  | Alloc size alignment _ => 0 < size < 2 ^ 64 /\ 0 <= alignment < 2 ^ 64
  | Free p size id => word p /\ word size /\ word id
  end.

(** ** Notions for the table, the search and the calls into the OS *)

(** [regions_count] after [n] atomic increments. *)
Fixpoint counted (n : nat) (c : Z) : Z :=
  match n with
  | O => c
  | S n' => wrap (counted n' c + 1)
  end.

(** What the layer keeps of the table, whatever the threads do: its length;
    a reservation, once in a descriptor; and [regions_count] is incremented
    once for every descriptor that got its reservation. *)
Definition table_kept (w w' : world) : Prop :=
  length (regions w') = length (regions w) /\
  (forall (i : nat) r, regions w !! i = Some r -> start r <> NULL ->
     exists r', regions w' !! i = Some r' /\ start r' = start r) /\
  exists n : nat,
    regions_count w' = counted n (regions_count w) /\
    reserved (regions w') = reserved (regions w) + Z.of_nat n.

(** Whenever the computation [c] runs to its end, the relation [R] holds
    from the world it started in to the world it ended in. *)
Definition keeps (R : world -> world -> Prop) {A} (c : M A) : Prop :=
  forall w a w', c w = Some (a, w') -> R w w'.

(** The event is a call of [_mi_os_commit]. *)
Definition is_commit (e : event) : bool :=
  match e with
  | EvOsCommit _ _ _ => true
  | _ => false
  end.

(** The calls of [_mi_os_commit] among the events. *)
Definition commits (l : list event) : list event := List.filter is_commit l.

(** The commits from [w] to [w'] of an allocation of [size] bytes that
    returned [p]: one, of the range at [p] and of the good commit size, when
    the caller asked for committed memory and the regions are not committed
    eagerly; none otherwise. *)
Definition committed (size : Z) (commit : bool) (p : Z) (w w' : world) : Prop :=
  exists delta, trace w' = trace w ++ delta /\
    if commit && negb (option_eager_region_commit w)
    then exists sz ok, mi_good_commit_size size w = Some (sz, w) /\
                       commits delta = [EvOsCommit p sz ok]
    else commits delta = [].

(** The block at [p] with the memory id [id]: [blocks] blocks of the region
    at [idx], within its map and marked there, the region reserved, and the
    search for the next allocation set to start from it. *)
Definition placed_at (idx blocks p id : Z) (w' : world) : Prop :=
  exists bitidx r',
    0 <= bitidx /\ bitidx + blocks <= MI_REGION_MAP_BITS /\
    id = idx * MI_REGION_MAP_BITS + bitidx /\
    regions w' !! Z.to_nat idx = Some r' /\ start r' <> NULL /\ region_ptr (start r') /\
    p = start r' + bitidx * MI_SEGMENT_SIZE /\
    Z.land (map r') (mask_at blocks bitidx) = mask_at blocks bitidx /\
    region_next_idx w' = idx.

(** The events from [w] to [w'] of an allocation that returned the block at
    [p] of the region at [idx]: writes of maps; then, when the region had no
    reservation, one reservation granted by the OS, which is published in
    the descriptor or, another thread having published its own first,
    given back to the OS; then at most one commit, of the range at [p]. *)
Definition os_calls (idx p : Z) (w w' : world) : Prop :=
  exists ws rs cs,
    trace w' = trace w ++ ws ++ rs ++ cs /\
    Forall map_written ws /\
    (rs = [] \/
     exists a, a <> NULL /\
       (rs = [EvOsAllocAligned MI_REGION_SIZE MI_SEGMENT_ALIGN (option_eager_region_commit w) a;
              EvStartWritten idx a]
        \/ rs = [EvOsAllocAligned MI_REGION_SIZE MI_SEGMENT_ALIGN
                   (option_eager_region_commit w) a;
                 EvOsFree a MI_REGION_SIZE])) /\
    (cs = [] \/ exists sz ok, cs = [EvOsCommit p sz ok]).

(** The event is a write of this thread to a [map]. *)
Definition is_map_write (e : event) : bool :=
  match e with
  | EvMapWritten _ _ => true
  | _ => false
  end.

(** The writes of this thread to a [map] among the events. *)
Definition map_writes (l : list event) : list event := List.filter is_map_write l.

(** The writes to a [map] from [w] to [w'] of a search for [blocks] blocks
    that met no error: none when it found no block; with a block, the one
    compare-and-swap of the claim, on the [map] of the region of [id] and
    with a word that has every bit of the block set. *)
Definition wrote (blocks : Z) (w : world) (res : bool * Z * Z) (w' : world) : Prop :=
  let '(ok, _, id) := res in
  ok = true ->
  exists delta, trace w' = trace w ++ delta /\
    if id =? SIZE_MAX then map_writes delta = []
    else exists v, map_writes delta = [EvMapWritten (id / MI_REGION_MAP_BITS) v] /\
           forall k, id mod MI_REGION_MAP_BITS <= k < id mod MI_REGION_MAP_BITS + blocks ->
                     Z.testbit v k = true.

(** The events other than a call of [_mi_os_alloc_aligned]. *)
Definition no_os_alloc (e : event) : Prop :=
  match e with
  | EvOsAllocAligned _ _ _ _ => False
  | _ => True
  end.

(** No run of [blocks] blocks fits in the region at [idx]. *)
Definition region_full (blocks : Z) (w : world) (idx : Z) : Prop :=
  forall r, regions w !! Z.to_nat idx = Some r -> forall j, ~ fits (map r) blocks j.

(** What the probe of the region at [idx] tells beyond [outcome]: with no
    block, the search for the next allocation starts where it did, and only
    maps were written when there was no error; with a block, where the block
    is, what was committed, and that the OS was asked for no memory when the
    region had its reservation; and, without interference, that the region
    had no room when no block was found, and that it had room but no
    reservation when the probe failed. *)
Definition probed (idx blocks size : Z) (commit : bool)
    (w : world) (res : bool * Z * Z) (w' : world) : Prop :=
  let '(ok, p, id) := res in
  (p = NULL -> region_next_idx w' = region_next_idx w)
  /\ (ok = true -> p = NULL -> since map_written w w')
  /\ (p <> NULL ->
      placed_at idx blocks p id w' /\ committed size commit p w w' /\
      os_calls idx p w w' /\
      forall r, regions w !! Z.to_nat idx = Some r -> start r <> NULL -> since no_os_alloc w w')
  /\ (map_races w = [] ->
      (ok = true -> p = NULL -> region_full blocks w idx)
      /\ (ok = false ->
          exists r, regions w !! Z.to_nat idx = Some r /\ start r = NULL /\
                    exists j, fits (map r) blocks j)).

(** What a search over [n] regions tells beyond [outcome], [visit v] being
    the region of the probe number [v]: with no block, the search for the
    next allocation starts where it did, and only maps were written when
    there was no error; a block is in a region that was visited, and the OS
    was asked for no memory when that region had its reservation; and,
    without interference, the regions visited had no room when the search
    went through them all, and the search ended, with a block or a
    reservation denied, at the first region visited that had room. *)
Definition searched (visit : Z -> Z) (n : Z) (blocks size : Z) (commit : bool)
    (w : world) (res : bool * Z * Z) (w' : world) : Prop :=
  let '(ok, p, id) := res in
  (p = NULL -> region_next_idx w' = region_next_idx w)
  /\ (ok = true -> p = NULL -> since map_written w w')
  /\ (p <> NULL ->
      exists v, 0 <= v < n /\ placed_at (visit v) blocks p id w' /\
        committed size commit p w w' /\ os_calls (visit v) p w w' /\
        forall r, regions w !! Z.to_nat (visit v) = Some r -> start r <> NULL ->
                  since no_os_alloc w w')
  /\ (map_races w = [] ->
      (ok = true -> p = NULL -> forall v, 0 <= v < n -> region_full blocks w (visit v))
      /\ (ok = false \/ p <> NULL ->
          exists v, 0 <= v < n /\
            (forall v', 0 <= v' < v -> region_full blocks w (visit v')) /\
            (p <> NULL -> claimed_at (visit v) blocks w p id w') /\
            (ok = false ->
             exists r, regions w !! Z.to_nat (visit v) = Some r /\ start r = NULL /\
                       exists j, fits (map r) blocks j))).

(** The way of an allocation of [size] bytes (rounded up to the page size)
    that goes to the regions: it ends in the first sweep, over the
    [regions_count] regions from [region_next_idx] on; or in the second one,
    over the regions beyond the count; or it falls back to the OS after both
    found nothing. *)
Inductive alloc_path (size alignment : Z) (commit : bool) (w : world) :
    Z * Z -> world -> Prop :=
| path_first ok p id w' :
    let blocks := mi_region_block_count size in
    outcome (claimed blocks) w (ok, p, id) w' ->
    searched (fun v => (region_next_idx w + v) mod regions_count w) (regions_count w)
      blocks size commit w (ok, p, id) w' ->
    ok = false \/ p <> NULL ->
    alloc_path size alignment commit w (if ok then p else NULL, id) w'
| path_second w1 ok p id w' :
    let blocks := mi_region_block_count size in
    table_kept w w1 ->
    outcome (claimed blocks) w (true, NULL, SIZE_MAX) w1 ->
    searched (fun v => (region_next_idx w + v) mod regions_count w) (regions_count w)
      blocks size commit w (true, NULL, SIZE_MAX) w1 ->
    outcome (claimed blocks) w1 (ok, p, id) w' ->
    searched (fun v => regions_count w + v) (MI_REGION_MAX - regions_count w)
      blocks size commit w1 (ok, p, id) w' ->
    ok = false \/ p <> NULL ->
    alloc_path size alignment commit w (if ok then p else NULL, id) w'
| path_fallback w1 w2 p w' :
    let blocks := mi_region_block_count size in
    table_kept w w1 ->
    outcome (claimed blocks) w (true, NULL, SIZE_MAX) w1 ->
    searched (fun v => (region_next_idx w + v) mod regions_count w) (regions_count w)
      blocks size commit w (true, NULL, SIZE_MAX) w1 ->
    outcome (claimed blocks) w1 (true, NULL, SIZE_MAX) w2 ->
    searched (fun v => regions_count w + v) (MI_REGION_MAX - regions_count w)
      blocks size commit w1 (true, NULL, SIZE_MAX) w2 ->
    _mi_os_alloc_aligned size alignment commit w2 = Some (p, w') ->
    alloc_path size alignment commit w (p, SIZE_MAX) w'.

(** The OS gave [NULL] to a call of [_mi_os_alloc_aligned] between [w] and
    [w']. *)
Definition os_refused (w w' : world) : Prop :=
  exists delta size alignment commit,
    trace w' = trace w ++ delta /\ EvOsAllocAligned size alignment commit NULL ∈ delta.

(** The region at [idx] is one the search of an allocation of [blocks]
    blocks comes to, and no region it visits before has room: it is among
    the [regions_count] regions taken round from [region_next_idx] on, or,
    those all being full, among the regions beyond the count taken in
    order. *)
Definition first_in_sweep (blocks : Z) (w : world) (idx : Z) : Prop :=
  (exists v, 0 <= v < regions_count w /\
     idx = (region_next_idx w + v) mod regions_count w /\
     forall v', 0 <= v' < v ->
       region_full blocks w ((region_next_idx w + v') mod regions_count w))
  \/ (regions_count w <= idx < MI_REGION_MAX /\
      forall i, 0 <= i < idx -> region_full blocks w i).

(** What a free keeps of the table, whatever the threads do: every [start],
    [regions_count] and [region_next_idx]. *)
Definition reservations_kept (w w' : world) : Prop :=
  start <$> regions w' = start <$> regions w /\
  regions_count w' = regions_count w /\
  region_next_idx w' = region_next_idx w.

(** A world whose region 0 is reserved, counted and full, with an OS that
    grants one more reservation, at 2 GiB. *)
Definition crowded_world : world :=
  mk_world (<[0%nat := mk_region MI_REGION_MAP_FULL (2 ^ 30)]> regions_init) 1 0 4096 4096
    false [2 ^ 31] [] [] [] [].

(** A world whose regions all have their reservation, one after the other
    from 1 GiB on, and no block left, and an OS that grants one allocation,
    at 2 TiB. *)
Definition full_world : world :=
  mk_world
    ((fun i : nat => mk_region MI_REGION_MAP_FULL (2 ^ 30 + Z.of_nat i * MI_REGION_SIZE))
       <$> seq 0 (Z.to_nat MI_REGION_MAX))
    MI_REGION_MAX 0 4096 4096 false [2 ^ 41] [] [] [] [].

(** ** Facts on words and masks *)

Lemma MI_REGION_MAP_BITS_eq : MI_REGION_MAP_BITS = 64.
Proof. reflexivity. Qed.

Lemma MI_SEGMENT_SIZE_eq : MI_SEGMENT_SIZE = 4194304.
Proof. reflexivity. Qed.

Lemma MI_REGION_MAX_eq : MI_REGION_MAX = 1024.
Proof. reflexivity. Qed.

Lemma MI_REGION_MAX_ALLOC_SIZE_eq : MI_REGION_MAX_ALLOC_SIZE = 16 * MI_SEGMENT_SIZE.
Proof. reflexivity. Qed.

Lemma SIZE_MAX_eq : SIZE_MAX = 18446744073709551615.
Proof. reflexivity. Qed.

Lemma wrap_small x : 0 <= x < 2 ^ 64 -> wrap x = x.
Proof. intros H. unfold wrap. rewrite MI_REGION_MAP_BITS_eq. now apply Z.mod_small. Qed.

Lemma wrap_range x : 0 <= wrap x < 2 ^ 64.
Proof. unfold wrap. rewrite MI_REGION_MAP_BITS_eq. apply Z.mod_pos_bound. lia. Qed.

Lemma wrap_testbit x k : Z.testbit (wrap x) k = (k <? 64) && Z.testbit x k.
Proof.
  unfold wrap. rewrite MI_REGION_MAP_BITS_eq.
  destruct (Z.ltb_spec k 64) as [Hk|Hk]; simpl.
  - destruct (Z.ltb_spec k 0) as [Hn|Hn].
    + now rewrite !Z.testbit_neg_r.
    + apply Z.mod_pow2_bits_low. lia.
  - apply Z.mod_pow2_bits_high. lia.
Qed.

Lemma word_testbit_high x k : 0 <= x < 2 ^ 64 -> 64 <= k -> Z.testbit x k = false.
Proof.
  intros Hx Hk. rewrite <- (wrap_small x Hx), wrap_testbit.
  destruct (Z.ltb_spec k 64); [lia | reflexivity].
Qed.

Lemma shl_Some x n : 0 <= n < 64 -> shl x n = Some (wrap (Z.shiftl x n)).
Proof.
  intros H. unfold shl. rewrite MI_REGION_MAP_BITS_eq.
  destruct (Z.leb_spec 0 n); [|lia]. destruct (Z.ltb_spec n 64); [|lia]. reflexivity.
Qed.

Lemma shl_defined x n y : shl x n = Some y -> 0 <= n < 64 /\ y = wrap (Z.shiftl x n).
Proof.
  unfold shl. rewrite MI_REGION_MAP_BITS_eq.
  destruct (Z.leb_spec 0 n); destruct (Z.ltb_spec n 64); simpl; intros [= <-]; lia.
Qed.

(** The mask is defined exactly when both shift counts are below the width
    of the word. *)
Lemma mi_region_block_mask_Some blocks bitidx :
  0 <= blocks < 64 -> 0 <= bitidx < 64 ->
  mi_region_block_mask blocks bitidx = Some (wrap (Z.shiftl (Z.ones blocks) bitidx)).
Proof.
  intros Hb Hi. unfold mi_region_block_mask.
  rewrite (shl_Some 1 blocks Hb). simpl.
  rewrite Z.shiftl_1_l.
  assert (Hp : 0 < 2 ^ blocks < 2 ^ 64).
  { split; [apply Z.pow_pos_nonneg; lia | apply Z.pow_lt_mono_r; lia]. }
  rewrite (wrap_small (2 ^ blocks)) by lia.
  rewrite (wrap_small (2 ^ blocks - 1)) by lia.
  rewrite (shl_Some _ bitidx Hi).
  rewrite Z.ones_equiv. unfold Z.pred. reflexivity.
Qed.

Lemma mi_region_block_mask_defined blocks bitidx mask :
  mi_region_block_mask blocks bitidx = Some mask ->
  0 <= blocks < 64 /\ 0 <= bitidx < 64 /\ mask = wrap (Z.shiftl (Z.ones blocks) bitidx).
Proof.
  intros H. pose proof H as H'. unfold mi_region_block_mask in H'.
  destruct (shl 1 blocks) as [one|] eqn:E1; simpl in H'; [|discriminate].
  apply shl_defined in E1 as [Hb _]. apply shl_defined in H' as [Hi _].
  split; [exact Hb|]. split; [exact Hi|].
  rewrite (mi_region_block_mask_Some blocks bitidx Hb Hi) in H. congruence.
Qed.

(** Bit [k] of the mask: set exactly on [bitidx <= k < bitidx + blocks],
    cut at the width of the word. *)
Lemma mask_testbit blocks bitidx k :
  0 <= blocks -> 0 <= bitidx ->
  Z.testbit (wrap (Z.shiftl (Z.ones blocks) bitidx)) k
  = (k <? 64) && (bitidx <=? k) && (k <? bitidx + blocks).
Proof.
  intros Hb Hi. rewrite wrap_testbit.
  destruct (Z.ltb_spec k 64) as [Hk|Hk]; simpl; [|reflexivity].
  destruct (Z.leb_spec bitidx k) as [Hik|Hik]; simpl.
  - rewrite Z.shiftl_spec by lia.
    rewrite Z.testbit_ones_nonneg by lia.
    destruct (Z.ltb_spec (k - bitidx) blocks); destruct (Z.ltb_spec k (bitidx + blocks)); lia || reflexivity.
  - destruct (Z.ltb_spec k 0).
    + now rewrite Z.testbit_neg_r.
    + rewrite Z.shiftl_spec by lia. apply Z.testbit_neg_r. lia.
Qed.

Lemma mask_no_overflow blocks bitidx :
  0 <= blocks -> 0 <= bitidx -> blocks + bitidx <= 64 ->
  wrap (Z.shiftl (Z.ones blocks) bitidx) = (2 ^ blocks - 1) * 2 ^ bitidx.
Proof.
  intros Hb Hi Hs. rewrite Z.shiftl_mul_pow2 by lia. rewrite Z.ones_equiv. unfold Z.pred.
  apply wrap_small.
  assert (0 < 2 ^ blocks) by (apply Z.pow_pos_nonneg; lia).
  assert (0 < 2 ^ bitidx) by (apply Z.pow_pos_nonneg; lia).
  assert (2 ^ blocks * 2 ^ bitidx <= 2 ^ 64).
  { rewrite <- Z.pow_add_r by lia. apply Z.pow_le_mono_r; lia. }
  nia.
Qed.

(** ** The search of a word *)

Lemma land_1_b2z m : Z.land m 1 = Z.b2z (Z.testbit m 0).
Proof.
  change 1 with (Z.ones 1) at 1. rewrite Z.land_ones by lia.
  rewrite Z.bit0_mod. reflexivity.
Qed.

Lemma land_1_eqb_1 m : (Z.land m 1 =? 1) = Z.testbit m 0.
Proof. rewrite land_1_b2z. now destruct (Z.testbit m 0). Qed.

Lemma land_1_eqb_0 m : (Z.land m 1 =? 0) = negb (Z.testbit m 0).
Proof. rewrite land_1_b2z. now destruct (Z.testbit m 0). Qed.

(** The loops of the search shift the word [m] to the right as they move
    [bitidx] up: with [mp] the bitmap the search is at, [m] is [mp >> bitidx]
    throughout. *)
Section Search.

Variable mp : Z.
Hypothesis mp_nonneg : 0 <= mp.

Lemma shiftr_testbit_0 b : 0 <= b -> Z.testbit (Z.shiftr mp b) 0 = Z.testbit mp b.
Proof. intros Hb. rewrite Z.shiftr_spec by lia. f_equal. Qed.

Lemma shiftr_succ b : 0 <= b -> Z.shiftr (Z.shiftr mp b) 1 = Z.shiftr mp (b + 1).
Proof. intros Hb. apply Z.shiftr_shiftr. lia. Qed.

Lemma shiftr_nonneg b : 0 <= Z.shiftr mp b.
Proof. now apply Z.shiftr_nonneg. Qed.

Lemma shiftr_lt_pow2 b n :
  0 <= b -> 0 <= n -> Z.shiftr mp b < 2 ^ (n + 1) -> Z.shiftr mp (b + 1) < 2 ^ n.
Proof.
  intros Hb Hn H. rewrite <- shiftr_succ by lia.
  rewrite (Z.shiftr_div_pow2 _ 1) by lia. change (2 ^ 1) with 2.
  apply Z.div_lt_upper_bound; [lia|].
  rewrite Z.pow_add_r in H by lia. change (2 ^ 1) with 2 in H. lia.
Qed.

Lemma shiftr_mono b b' : 0 <= b <= b' -> Z.shiftr mp b' <= Z.shiftr mp b.
Proof.
  intros Hb. replace b' with (b + (b' - b)) by lia.
  rewrite <- Z.shiftr_shiftr by lia.
  pose proof (shiftr_nonneg b) as Hnn.
  rewrite (Z.shiftr_div_pow2 _ (b' - b)) by lia.
  assert (0 < 2 ^ (b' - b)) by (apply Z.pow_pos_nonneg; lia).
  apply Z.div_le_upper_bound; [lia|]. nia.
Qed.

(** Skipping ones stops at the first clear bit at or above [b]. *)
Lemma skip_ones_spec fuel : forall b,
  0 <= b -> b + Z.of_nat fuel < 2 ^ 64 ->
  Z.shiftr mp b < 2 ^ (Z.of_nat fuel - 1) ->
  exists b', skip_ones fuel (Z.shiftr mp b) b = Some (Z.shiftr mp b', b')
    /\ b <= b' < b + Z.of_nat fuel
    /\ (forall k, b <= k < b' -> Z.testbit mp k = true)
    /\ Z.testbit mp b' = false.
Proof.
  induction fuel as [|fuel IH]; intros b Hb Hfuel Hlt.
  - exfalso. simpl in Hlt. rewrite Z.pow_neg_r in Hlt by lia.
    pose proof (shiftr_nonneg b). lia.
  - cbn [skip_ones]. rewrite land_1_eqb_1, shiftr_testbit_0 by lia.
    destruct (Z.testbit mp b) eqn:Ebit.
    + assert (Hf : (0 < fuel)%nat).
      { destruct fuel; [|lia]. exfalso. change (Z.of_nat 1 - 1) with 0 in Hlt.
        change (2 ^ 0) with 1 in Hlt.
        pose proof (shiftr_nonneg b).
        assert (Z.shiftr mp b = 0) as E0 by lia.
        rewrite <- shiftr_testbit_0, E0 in Ebit by lia. discriminate. }
      rewrite shiftr_succ by lia. rewrite wrap_small by lia.
      destruct (IH (b + 1)) as (b' & E & Hr & Hones & Hz); try lia.
      { apply shiftr_lt_pow2; try lia.
        replace (Z.of_nat fuel - 1 + 1) with (Z.of_nat (S fuel) - 1) by lia. exact Hlt. }
      exists b'. split; [exact E|]. split; [lia|]. split; [|exact Hz].
      intros k Hk. destruct (Z.eq_dec k b) as [->|]; [exact Ebit|]. apply Hones. lia.
    + exists b. split; [reflexivity|]. split; [lia|]. split; [|exact Ebit]. intros k Hk. lia.
Qed.

(** Counting zeros above the clear bit at [c] stops at [blocks] zeros or
    at a set bit. *)
Lemma count_zeros_spec fuel : forall c blocks z,
  0 <= c -> 1 <= z -> blocks < 2 ^ 63 -> z < 2 ^ 63 ->
  Z.max 0 (blocks - z) < Z.of_nat fuel ->
  exists z', count_zeros fuel blocks (Z.shiftr mp (c + z)) z = Some (Z.shiftr mp (c + z'), z')
    /\ z <= z' /\ z' <= Z.max z blocks
    /\ (forall k, c + z <= k < c + z' -> Z.testbit mp k = false)
    /\ (z' < blocks -> Z.testbit mp (c + z') = true).
Proof.
  induction fuel as [|fuel IH]; intros c blocks z Hc Hz Hb Hz' Hfuel.
  - exfalso. simpl in Hfuel. lia.
  - cbn [count_zeros]. rewrite land_1_eqb_0, shiftr_testbit_0 by lia.
    destruct (Z.ltb_spec z blocks) as [Hlt|Hge]; simpl.
    + destruct (Z.testbit mp (c + z)) eqn:Ebit; simpl.
      * exists z. split; [reflexivity|]. split; [lia|]. split; [lia|].
        split; [intros k Hk; lia | intros _; exact Ebit].
      * rewrite shiftr_succ by lia. rewrite wrap_small by lia.
        replace (c + z + 1) with (c + (z + 1)) by lia.
        destruct (IH c blocks (z + 1)) as (z' & E & Hle & Hmax & Hzeros & Hstop); try lia.
        exists z'. split; [exact E|]. split; [lia|]. split; [lia|]. split; [|exact Hstop].
        intros k Hk. destruct (Z.eq_dec k (c + z)) as [->|]; [exact Ebit|]. apply Hzeros. lia.
    + exists z. split; [reflexivity|]. split; [lia|]. split; [lia|].
      split; [intros k Hk; lia | intros Hlt; lia].
Qed.

(** The inner loop, entered at [b] with [m = mp >> b], is left at the
    lowest index at or above [b] where [blocks] blocks are free in [mp]
    (free bits above the word counted in), or above [bmax]. *)
Lemma find_range_spec fuel : forall blocks bmax b,
  Z.shiftr mp b < 2 ^ 64 -> 0 <= blocks < 64 -> 0 <= b <= bmax -> bmax <= 64 ->
  bmax - b < Z.of_nat fuel ->
  exists b', find_range fuel blocks bmax (Z.shiftr mp b) b = Some b'
    /\ b <= b'
    /\ (1 <= blocks ->
        (forall j, b <= j < b' -> ~ run_free mp j blocks)
        /\ (b' <= bmax -> run_free mp b' blocks))
    /\ (blocks = 0 -> bmax < b').
Proof.
  induction fuel as [|fuel IH]; intros blocks bmax b Hlt Hblocks Hb Hbmax Hfuel.
  - exfalso. simpl in Hfuel. lia.
  - cbn [find_range].
    destruct (skip_ones_spec word_budget b) as (b1 & E1 & Hb1 & Hones & Hz1); try lia.
    { change (Z.of_nat word_budget) with 65. lia. }
    { change (Z.of_nat word_budget - 1) with 64. exact Hlt. }
    change (Z.of_nat word_budget) with 65 in Hb1.
    rewrite E1. cbn [mbind option_bind].
    rewrite shiftr_succ by lia.
    destruct (count_zeros_spec word_budget b1 blocks 1)
      as (z & E2 & Hz & Hzmax & Hzeros & Hstop); try lia.
    { change (Z.of_nat word_budget) with 65. lia. }
    rewrite E2. cbn [mbind option_bind].
    assert (Hskipped : forall j, b <= j < b1 -> 1 <= blocks -> ~ run_free mp j blocks).
    { intros j Hj Hbl Hfree. specialize (Hfree j). rewrite Hones in Hfree by lia.
      assert (true = false) by (apply Hfree; lia). discriminate. }
    assert (Hrun : forall k, b1 <= k < b1 + z -> Z.testbit mp k = false).
    { intros k Hk. destruct (Z.eq_dec k b1) as [->|]; [exact Hz1|]. apply Hzeros. lia. }
    destruct (Z.eqb_spec z blocks) as [Ez|Nz].
    + exists b1. split; [reflexivity|]. split; [lia|]. split; [|lia].
      intros Hbl. split.
      * intros j Hj. apply Hskipped; lia.
      * intros _ k Hk. apply Hrun. lia.
    + rewrite wrap_small by lia.
      assert (Hshort : forall j, b <= j < b1 + z -> 1 <= blocks -> ~ run_free mp j blocks).
      { intros j Hj Hbl. destruct (Z_lt_dec j b1) as [Hlo|Hhi]; [apply Hskipped; lia|].
        intros Hfree. specialize (Hfree (b1 + z)). rewrite Hstop in Hfree by lia.
        assert (true = false) by (apply Hfree; lia). discriminate. }
      destruct (Z.leb_spec (b1 + z) bmax) as [Hin|Hout].
      * destruct (IH blocks bmax (b1 + z)) as (b' & E & Hb' & Hfacts & Hzero); try lia.
        { pose proof (shiftr_mono b (b1 + z)). lia. }
        exists b'. split; [exact E|]. split; [lia|]. split; [|exact Hzero].
        intros Hbl. destruct (Hfacts Hbl) as [Hno Hfit]. split; [|exact Hfit].
        intros j Hj. destruct (Z_lt_dec j (b1 + z)); [apply Hshort; lia | apply Hno; lia].
      * exists (b1 + z). split; [reflexivity|]. split; [lia|]. split; [|lia].
        intros Hbl. split; [|lia]. intros j Hj. apply Hshort; lia.
Qed.

End Search.

(** ** Masks and bitmaps *)

Lemma mask_at_testbit blocks bitidx k :
  0 <= blocks -> 0 <= bitidx ->
  Z.testbit (mask_at blocks bitidx) k = (k <? 64) && (bitidx <=? k) && (k <? bitidx + blocks).
Proof. apply mask_testbit. Qed.

Lemma mask_at_word blocks bitidx : word (mask_at blocks bitidx).
Proof. apply wrap_range. Qed.

Lemma mask_at_Some blocks bitidx :
  0 <= blocks < 64 -> 0 <= bitidx < 64 ->
  mi_region_block_mask blocks bitidx = Some (mask_at blocks bitidx).
Proof. apply mi_region_block_mask_Some. Qed.

Lemma land_mask_zero_iff mp blocks i :
  0 <= blocks -> 0 <= i -> i + blocks <= 64 ->
  Z.land mp (mask_at blocks i) = 0 <-> run_free mp i blocks.
Proof.
  intros Hb Hi Hs. split.
  - intros H k Hk.
    assert (Hbit : Z.testbit (Z.land mp (mask_at blocks i)) k = false) by (rewrite H; apply Z.bits_0).
    rewrite Z.land_spec, mask_at_testbit in Hbit by lia.
    destruct (Z.ltb_spec k 64); [|lia]. destruct (Z.leb_spec i k); [|lia].
    destruct (Z.ltb_spec k (i + blocks)); [|lia].
    simpl in Hbit. now rewrite andb_true_r in Hbit.
  - intros H. apply Z.bits_inj'. intros k Hk.
    rewrite Z.land_spec, mask_at_testbit, Z.bits_0 by lia.
    destruct (Z.ltb_spec k 64); simpl; [|apply andb_false_r].
    destruct (Z.leb_spec i k); simpl; [|apply andb_false_r].
    destruct (Z.ltb_spec k (i + blocks)); simpl; [|apply andb_false_r].
    rewrite H by lia. reflexivity.
Qed.

Lemma fits_run_free mp blocks i :
  1 <= blocks < 64 -> fits mp blocks i <-> (0 <= i /\ i + blocks <= 64 /\ run_free mp i blocks).
Proof.
  intros Hb. unfold fits. rewrite MI_REGION_MAP_BITS_eq. split.
  - intros (Hi & Hs & mask & Em & Hz). split; [lia|]. split; [lia|].
    rewrite mask_at_Some in Em by lia. injection Em as <-.
    apply land_mask_zero_iff; [lia..|exact Hz].
  - intros (Hi & Hs & Hfree). split; [lia|]. split; [lia|].
    exists (mask_at blocks i). split; [apply mask_at_Some; lia|].
    apply land_mask_zero_iff; [lia..|exact Hfree].
Qed.

Lemma not64_testbit x k : 0 <= k -> Z.testbit (not64 x) k = (k <? 64) && negb (Z.testbit x k).
Proof. intros Hk. unfold not64. rewrite wrap_testbit, Z.lnot_spec by lia. reflexivity. Qed.

Lemma word_of_bits x : 0 <= x -> (forall k, 64 <= k -> Z.testbit x k = false) -> word x.
Proof.
  intros Hx Hhigh.
  assert (E : wrap x = x).
  { apply Z.bits_inj'. intros k Hk. rewrite wrap_testbit.
    destruct (Z.ltb_spec k 64); simpl; [reflexivity|]. symmetry. apply Hhigh. lia. }
  unfold word. rewrite <- E. apply wrap_range.
Qed.

Lemma word_lor a b : word a -> word b -> word (Z.lor a b).
Proof.
  intros Ha Hb. apply word_of_bits.
  - apply Z.lor_nonneg. unfold word in *. lia.
  - intros k Hk. rewrite Z.lor_spec, !word_testbit_high by assumption. reflexivity.
Qed.

Lemma word_land a b : word a -> word (Z.land a b).
Proof.
  intros Ha. apply word_of_bits.
  - apply Z.land_nonneg. unfold word in *. lia.
  - intros k Hk. rewrite Z.land_spec, (word_testbit_high a) by assumption. reflexivity.
Qed.

Lemma lor_land_not mp m : word mp -> Z.land mp m = 0 -> Z.land (Z.lor mp m) (not64 m) = mp.
Proof.
  intros Hw Hz. apply Z.bits_inj'. intros k Hk.
  rewrite Z.land_spec, Z.lor_spec, not64_testbit by lia.
  assert (Hbit : Z.testbit (Z.land mp m) k = false) by (rewrite Hz; apply Z.bits_0).
  rewrite Z.land_spec in Hbit.
  destruct (Z.ltb_spec k 64) as [Hlt|Hge]; simpl.
  - destruct (Z.testbit mp k), (Z.testbit m k); simpl in *; congruence.
  - rewrite (word_testbit_high mp k Hw Hge). apply andb_false_r.
Qed.

(** ** Running computations *)

Lemma runs_eq {A} (c : M A) w a w' (Q : A -> world -> Prop) :
  c w = Some (a, w') -> Q a w' -> runs c w Q.
Proof. intros E H. exists a, w'. split; assumption. Qed.

Lemma runs_ret {A} (a : A) w (Q : A -> world -> Prop) : Q a w -> runs (ret a) w Q.
Proof. intros H. now apply (runs_eq _ w a w). Qed.

Lemma runs_bind {A B} (c : M A) (k : A -> M B) w (Q : B -> world -> Prop) :
  runs c w (fun a w1 => runs (k a) w1 Q) -> runs (bind c k) w Q.
Proof.
  intros (a & w1 & E & b & w2 & E2 & H). exists b, w2. split; [|exact H].
  unfold bind. rewrite E. exact E2.
Qed.

Lemma runs_mono {A} (c : M A) w (Q Q' : A -> world -> Prop) :
  runs c w Q -> (forall a w', Q a w' -> Q' a w') -> runs c w Q'.
Proof. intros (a & w' & E & H) HQ. exists a, w'. split; [exact E|]. now apply HQ. Qed.

Lemma runs_det {A} (c : M A) w (Q : A -> world -> Prop) a w' :
  runs c w Q -> c w = Some (a, w') -> Q a w'.
Proof. intros (a0 & w0 & E & H) E'. rewrite E in E'. injection E' as <- <-. exact H. Qed.

Lemma runs_lift {A} (o : option A) a w (Q : A -> world -> Prop) :
  o = Some a -> Q a w -> runs (lift o) w Q.
Proof. intros -> H. now apply (runs_eq _ w a w). Qed.

(** One step of a computation whose first action is computed on the spot. *)
Ltac mstep := apply runs_bind; eapply runs_eq; [reflexivity | cbn beta iota].

Ltac wsimpl :=
  cbn [regions regions_count region_next_idx os_page_size os_large_page_size
       option_eager_region_commit os_alloc_answers os_bool_answers map_races
       start_races trace set_regions set_regions_count set_region_next_idx
       set_os_alloc_answers set_os_bool_answers set_map_races set_start_races
       set_trace map start fst snd] in *.

(** ** The table *)

Lemma reserved_nonneg l : 0 <= reserved l.
Proof. induction l as [|r l IH]; simpl; [lia|]. destruct (start r =? NULL); lia. Qed.

Lemma reserved_le_length l : reserved l <= Z.of_nat (length l).
Proof.
  induction l as [|r l IH]; [simpl; lia|].
  change (reserved (r :: l)) with ((if start r =? NULL then 0 else 1) + reserved l).
  rewrite length_cons. destruct (start r =? NULL); lia.
Qed.

Lemma reserved_insert l : forall i r r',
  l !! i = Some r ->
  reserved (<[i := r']> l)
  = reserved l - (if start r =? NULL then 0 else 1) + (if start r' =? NULL then 0 else 1).
Proof.
  induction l as [|x l IH]; intros i r r' Hl; [discriminate|].
  destruct i as [|i]; simpl in *.
  - injection Hl as ->. lia.
  - rewrite (IH i r r' Hl). lia.
Qed.

Lemma region_at_Some idx r w :
  0 <= idx -> regions w !! Z.to_nat idx = Some r -> region_at idx w = Some (r, w).
Proof.
  intros Hi Hl. unfold region_at. destruct (Z.ltb_spec idx 0); [lia|]. now rewrite Hl.
Qed.

Lemma good_lookup w idx :
  good w -> 0 <= idx < MI_REGION_MAX ->
  exists r, regions w !! Z.to_nat idx = Some r /\ region_ok r.
Proof.
  intros Hg Hi.
  destruct (lookup_lt_is_Some_2 (regions w) (Z.to_nat idx)) as [r Hr].
  { rewrite (good_length w Hg). lia. }
  exists r. split; [exact Hr|].
  exact (proj1 (Forall_lookup _ _) (good_regions w Hg) _ _ Hr).
Qed.

Lemma good_count_max w : good w -> 0 <= regions_count w <= MI_REGION_MAX.
Proof.
  intros Hg. pose proof (good_count w Hg). pose proof (reserved_le_length (regions w)).
  rewrite (good_length w Hg) in H0. rewrite MI_REGION_MAX_eq in *. lia.
Qed.

Lemma region_ptr_NULL : region_ptr NULL.
Proof. unfold region_ptr, NULL. repeat split; try reflexivity; vm_compute; discriminate. Qed.

Lemma good_set_trace t w : good w -> good (set_trace t w).
Proof. intros [Hlen Hcount Hnext Hregs Hpage Hmr]. constructor; assumption. Qed.

Lemma good_set_region_next_idx v w :
  good w -> 0 <= v < MI_REGION_MAX -> good (set_region_next_idx v w).
Proof. intros [Hlen Hcount Hnext Hregs Hpage Hmr] Hv. constructor; assumption. Qed.

Lemma good_set_os_bool_answers v w : good w -> good (set_os_bool_answers v w).
Proof. intros [Hlen Hcount Hnext Hregs Hpage Hmr]. constructor; assumption. Qed.

Lemma good_set_os_alloc_answers v w : good w -> good (set_os_alloc_answers v w).
Proof. intros [Hlen Hcount Hnext Hregs Hpage Hmr]. constructor; assumption. Qed.

Lemma good_set_start_races v w : good w -> good (set_start_races v w).
Proof. intros [Hlen Hcount Hnext Hregs Hpage Hmr]. constructor; assumption. Qed.

(** A reservation of a region that the OS granted is a [start]. *)
Lemma os_granted_region q :
  os_granted MI_REGION_SIZE MI_SEGMENT_ALIGN q = true -> region_ptr q /\ q <> NULL.
Proof.
  unfold os_granted. intros H. apply andb_true_iff in H as [H Hal].
  apply andb_true_iff in H as [Hpos Hmax].
  apply Z.ltb_lt in Hpos. apply Z.leb_le in Hmax.
  assert (Hmod : q mod MI_SEGMENT_ALIGN = 0).
  { apply orb_true_iff in Hal as [Hal|Hal]; [discriminate | now apply Z.eqb_eq]. }
  unfold region_ptr, NULL. split; [|lia]. split; [lia|]. split; [exact Hmax | exact Hmod].
Qed.

Lemma good_pop_map_race i rest w :
  good w -> map_races w = i :: rest -> good (set_map_races rest w) /\ race_ok word i.
Proof.
  intros [Hlen Hcount Hnext Hregs Hpage Hmr] E. wsimpl. rewrite E in Hmr. inversion Hmr; subst.
  split; [constructor; assumption | assumption].
Qed.

Lemma good_store_map (idx : nat) v r w :
  good w -> regions w !! idx = Some r -> word v ->
  good (set_regions (<[idx := mk_region v (start r)]> (regions w)) w).
Proof.
  intros [Hlen Hcount Hnext Hregs Hpage Hmr] Hl Hv. constructor; wsimpl; try assumption.
  - now rewrite length_insert.
  - rewrite (reserved_insert _ _ _ _ Hl). wsimpl. lia.
  - apply Forall_insert; [assumption|]. split; [exact Hv|].
    exact (proj2 (proj1 (Forall_lookup _ _) Hregs _ _ Hl)).
Qed.

Lemma good_store_start (idx : nat) q r w :
  good w -> regions w !! idx = Some r -> start r = NULL -> region_ptr q ->
  good (set_regions (<[idx := mk_region (map r) q]> (regions w)) w).
Proof.
  intros [Hlen Hcount Hnext Hregs Hpage Hmr] Hl Hs Hq. constructor; wsimpl; try assumption.
  - now rewrite length_insert.
  - rewrite (reserved_insert _ _ _ _ Hl). wsimpl. rewrite Hs.
    change (NULL =? NULL) with true. destruct (q =? NULL); lia.
  - apply Forall_insert; [assumption|]. split; [|exact Hq].
    exact (proj1 (proj1 (Forall_lookup _ _) Hregs _ _ Hl)).
Qed.

(** Publishing a reservation in a descriptor that had none, and counting
    it. *)
Lemma good_publish (idx : nat) q r w :
  good w -> regions w !! idx = Some r -> start r = NULL -> region_ptr q -> q <> NULL ->
  good (set_regions_count (wrap (regions_count w + 1))
          (set_regions (<[idx := mk_region (map r) q]> (regions w)) w)).
Proof.
  intros Hg Hl Hs Hq Hne. pose proof (good_count_max w Hg) as Hc. rewrite MI_REGION_MAX_eq in Hc.
  destruct Hg as [Hlen Hcount Hnext Hregs Hpage Hmr]. constructor; wsimpl; try assumption.
  - now rewrite length_insert.
  - rewrite (reserved_insert _ _ _ _ Hl). wsimpl. rewrite Hs.
    change (NULL =? NULL) with true.
    destruct (Z.eqb_spec q NULL); [contradiction|].
    rewrite wrap_small by lia. lia.
  - apply Forall_insert; [assumption|]. split; [|exact Hq].
    exact (proj1 (proj1 (Forall_lookup _ _) Hregs _ _ Hl)).
Qed.

Lemma evolves_refl w : evolves w w.
Proof. constructor; reflexivity. Qed.

Lemma evolves_trans w1 w2 w3 : evolves w1 w2 -> evolves w2 w3 -> evolves w1 w3.
Proof.
  intros [H1 H2 H3 H4] [H1' H2' H3' H4']. constructor; try congruence.
  etransitivity; eassumption.
Qed.

Lemma evolves_quiet w w' : evolves w w' -> map_races w = [] -> map_races w' = [].
Proof. intros [_ _ _ H] E. rewrite E in H. now apply suffix_nil_inv. Qed.

Lemma since_refl P w : since P w w.
Proof. exists []. split; [now rewrite app_nil_r | constructor]. Qed.

Lemma since_trans P w1 w2 w3 : since P w1 w2 -> since P w2 w3 -> since P w1 w3.
Proof.
  intros (d1 & E1 & H1) (d2 & E2 & H2). exists (d1 ++ d2). split.
  - rewrite E2, E1. now rewrite app_assoc.
  - now apply Forall_app.
Qed.

(** ** Atomic operations *)

Lemma mi_atomic_read_map_eq idx r w :
  0 <= idx -> regions w !! Z.to_nat idx = Some r -> mi_atomic_read_map idx w = Some (map r, w).
Proof. intros Hi Hl. unfold mi_atomic_read_map, bind. now rewrite (region_at_Some idx r w Hi Hl). Qed.

Lemma mi_atomic_read_start_eq idx r w :
  0 <= idx -> regions w !! Z.to_nat idx = Some r -> mi_atomic_read_start idx w = Some (start r, w).
Proof. intros Hi Hl. unfold mi_atomic_read_start, bind. now rewrite (region_at_Some idx r w Hi Hl). Qed.

Lemma store_map_eq idx v r w :
  0 <= idx -> regions w !! Z.to_nat idx = Some r ->
  store_map idx v w
  = Some (tt, set_regions (<[Z.to_nat idx := mk_region v (start r)]> (regions w)) w).
Proof. intros Hi Hl. unfold store_map, bind. now rewrite (region_at_Some idx r w Hi Hl). Qed.

Lemma store_start_eq idx v r w :
  0 <= idx -> regions w !! Z.to_nat idx = Some r ->
  store_start idx v w
  = Some (tt, set_regions (<[Z.to_nat idx := mk_region (map r) v]> (regions w)) w).
Proof. intros Hi Hl. unfold store_start, bind. now rewrite (region_at_Some idx r w Hi Hl). Qed.

Lemma lookup_insert_region (l : list mem_region_t) i r r' :
  l !! i = Some r -> <[i := r']> l !! i = Some r'.
Proof. intros Hl. apply list_lookup_insert_eq. now apply lookup_lt_Some in Hl. Qed.

Ltac solve_evolves :=
  constructor; wsimpl; try reflexivity;
  solve [ reflexivity
        | match goal with
          | E : map_races _ = _ |- _ => rewrite E; try apply suffix_cons_r; reflexivity
          end ].

Lemma map_race_nil idx w : map_races w = [] -> map_race idx w = Some (tt, w).
Proof. intros E. unfold map_race. now rewrite E. Qed.

Lemma map_race_quiet idx rest w :
  map_races w = Quiet :: rest -> map_race idx w = Some (tt, set_map_races rest w).
Proof. intros E. unfold map_race. now rewrite E. Qed.

Lemma map_race_stored idx v rest r w :
  map_races w = Stored v :: rest -> 0 <= idx -> regions w !! Z.to_nat idx = Some r ->
  map_race idx w
  = Some (tt, set_regions (<[Z.to_nat idx := mk_region v (start r)]> (regions w))
                (set_map_races rest w)).
Proof.
  intros E Hi Hl. unfold map_race. rewrite E.
  now rewrite (store_map_eq idx v r (set_map_races rest w) Hi Hl).
Qed.

(** The compare-and-swap on a [map], on the value [expected] that was just
    read: whatever the other threads do, the world stays good; it writes
    [newmap] when it succeeds and nothing when it fails, a failure using up
    an entry of the interference; with no interference it succeeds. *)
Lemma mi_atomic_compare_exchange_map_spec idx newmap expected r w :
  good w -> 0 <= idx -> regions w !! Z.to_nat idx = Some r -> map r = expected ->
  word newmap ->
  runs (mi_atomic_compare_exchange_map idx newmap expected) w (fun ok w' =>
    good w' /\ evolves w w' /\
    (Z.of_nat (length (map_races w')) + (if ok then 0 else 1) <= Z.of_nat (length (map_races w))) /\
    trace w' = trace w ++ (if ok then [EvMapWritten idx newmap] else []) /\
    regions_count w' = regions_count w /\
    region_next_idx w' = region_next_idx w /\
    (map_races w = [] ->
       ok = true /\
       w' = set_trace (trace w ++ [EvMapWritten idx newmap])
              (set_regions (<[Z.to_nat idx := mk_region newmap (start r)]> (regions w)) w))).
Proof.
  intros Hg Hi Hl Eexp Hnew. unfold mi_atomic_compare_exchange_map.
  apply runs_bind.
  destruct (map_races w) as [|[|v] rest] eqn:Eraces.
  - eapply runs_eq; [apply map_race_nil; exact Eraces|]. cbn beta.
    apply runs_bind. eapply runs_eq; [apply (mi_atomic_read_map_eq idx r w Hi Hl)|]. cbn beta.
    rewrite Eexp, Z.eqb_refl.
    apply runs_bind. eapply runs_eq; [apply (store_map_eq idx newmap r w Hi Hl)|]. cbn beta.
    mstep. apply runs_ret.
    split; [apply good_set_trace, good_store_map; assumption|].
    split; [solve_evolves|]. wsimpl. rewrite Eraces.
    split; [simpl; lia|]. do 3 (split; [reflexivity|]). intros _. split; reflexivity.
  - eapply runs_eq; [apply map_race_quiet; exact Eraces|]. cbn beta.
    destruct (good_pop_map_race _ _ _ Hg Eraces) as [Hg1 _].
    set (w1 := set_map_races rest w) in *.
    assert (Hl1 : regions w1 !! Z.to_nat idx = Some r) by exact Hl.
    apply runs_bind. eapply runs_eq; [apply (mi_atomic_read_map_eq idx r w1 Hi Hl1)|]. cbn beta.
    rewrite Eexp, Z.eqb_refl.
    apply runs_bind. eapply runs_eq; [apply (store_map_eq idx newmap r w1 Hi Hl1)|]. cbn beta.
    mstep. apply runs_ret.
    split; [apply good_set_trace, good_store_map; assumption|].
    split; [subst w1; solve_evolves|]. subst w1. wsimpl.
    split; [simpl; lia|]. do 3 (split; [reflexivity|]). intros [=].
  - eapply runs_eq; [apply (map_race_stored idx v rest r w Eraces Hi Hl)|]. cbn beta.
    destruct (good_pop_map_race _ _ _ Hg Eraces) as [Hg1 Hv]. simpl in Hv.
    pose proof (good_store_map (Z.to_nat idx) v r (set_map_races rest w) Hg1 Hl Hv) as Hg2.
    set (w2 := set_regions _ (set_map_races rest w)) in *.
    assert (Hl2 : regions w2 !! Z.to_nat idx = Some (mk_region v (start r))).
    { subst w2. wsimpl. now apply (lookup_insert_region _ _ r). }
    apply runs_bind. eapply runs_eq; [apply (mi_atomic_read_map_eq idx _ w2 Hi Hl2)|]. cbn beta.
    wsimpl. destruct (Z.eqb_spec v expected) as [Ev|Nv].
    + apply runs_bind. eapply runs_eq; [apply (store_map_eq idx newmap _ w2 Hi Hl2)|]. cbn beta.
      mstep. apply runs_ret.
      split; [apply good_set_trace, good_store_map; assumption|].
      split; [subst w2; solve_evolves|]. subst w2. wsimpl.
      split; [simpl; lia|]. do 3 (split; [reflexivity|]). intros [=].
    + apply runs_ret. split; [exact Hg2|].
      split; [subst w2; solve_evolves|]. subst w2. wsimpl.
      split; [simpl; lia|]. split; [now rewrite app_nil_r|]. do 2 (split; [reflexivity|]). intros [=].
Qed.

(** ** Releasing a claim *)

Lemma unclaim_spec fuel : forall idx mask w,
  good w -> 0 <= idx < MI_REGION_MAX -> (length (map_races w) < fuel)%nat ->
  runs (unclaim fuel idx mask) w (fun _ w' =>
    good w' /\ evolves w w' /\
    (exists v, trace w' = trace w ++ [EvMapWritten idx v]) /\
    regions_count w' = regions_count w /\
    region_next_idx w' = region_next_idx w /\
    (map_races w = [] -> forall r, regions w !! Z.to_nat idx = Some r ->
       regions w' = <[Z.to_nat idx := mk_region (Z.land (map r) (not64 mask)) (start r)]> (regions w))).
Proof.
  induction fuel as [|fuel IH]; intros idx mask w Hg Hi Hfuel; [lia|].
  destruct (good_lookup w idx Hg Hi) as (r & Hl & Hmap & _).
  cbn [unclaim].
  apply runs_bind. eapply runs_eq; [apply (mi_atomic_read_map_eq idx r w); [lia|exact Hl]|]. cbn beta.
  apply runs_bind.
  eapply runs_mono;
    [apply (mi_atomic_compare_exchange_map_spec idx _ (map r) r w Hg);
       [lia | exact Hl | reflexivity | now apply word_land]|].
  intros ok w1 (Hg1 & Hev1 & Hlen1 & Htr1 & Hc1 & Hn1 & Hq1). cbn beta.
  destruct ok.
  - apply runs_ret. split; [exact Hg1|]. split; [exact Hev1|].
    split; [eexists; exact Htr1|]. do 2 (split; [assumption|]).
    intros Hquiet r' Hl'. destruct (Hq1 Hquiet) as [_ ->]. wsimpl. congruence.
  - eapply runs_mono; [apply (IH idx mask w1 Hg1 Hi); lia|].
    intros _ w2 (Hg2 & Hev2 & (v & Htr2) & Hc2 & Hn2 & _). cbn beta.
    split; [exact Hg2|]. split; [eapply evolves_trans; eassumption|].
    split; [exists v; rewrite Htr2, Htr1; now rewrite app_nil_r|].
    split; [congruence|]. split; [congruence|].
    intros Hquiet. destruct (Hq1 Hquiet) as [[=] _].
Qed.

(** ** The OS layer *)

Lemma frame_refl w : frame w w.
Proof. repeat split. Qed.

Lemma _mi_os_alloc_aligned_spec size alignment commit w :
  good w ->
  runs (_mi_os_alloc_aligned size alignment commit) w (fun p w' =>
    good w' /\ evolves w w' /\ frame w w' /\
    (p = NULL \/ os_granted size alignment p = true) /\
    os_bool_answers w' = os_bool_answers w /\
    trace w' = trace w ++ [EvOsAllocAligned size alignment commit p]).
Proof.
  intros Hg. unfold _mi_os_alloc_aligned. apply runs_bind.
  destruct (os_alloc_answers w) as [|a rest] eqn:Eans.
  - eapply runs_eq; [unfold next_alloc_answer; rewrite Eans; reflexivity|]. cbn beta zeta.
    change (os_granted size alignment NULL) with false. cbn iota. mstep. apply runs_ret.
    split; [now apply good_set_trace|]. split; [solve_evolves|].
    split; [repeat split|]. split; [now left|]. split; reflexivity.
  - pose proof (good_set_os_alloc_answers rest w Hg) as Hg1.
    eapply runs_eq; [unfold next_alloc_answer; rewrite Eans; reflexivity|]. cbn beta zeta.
    mstep. apply runs_ret.
    split; [now apply good_set_trace|]. split; [solve_evolves|].
    split; [repeat split|]. split; [|split; reflexivity].
    destruct (os_granted size alignment a) eqn:Ea; [now right | now left].
Qed.

Lemma _mi_os_commit_spec p size w :
  good w ->
  runs (_mi_os_commit p size) w (fun ok w' =>
    good w' /\ evolves w w' /\ frame w w' /\
    trace w' = trace w ++ [EvOsCommit p size ok]).
Proof.
  intros Hg. unfold _mi_os_commit. apply runs_bind.
  destruct (os_bool_answers w) as [|b rest] eqn:Eans.
  - eapply runs_eq; [unfold next_bool_answer; rewrite Eans; reflexivity|]. cbn beta. mstep. apply runs_ret.
    split; [now apply good_set_trace|]. split; [solve_evolves|].
    split; [repeat split|]. reflexivity.
  - eapply runs_eq; [unfold next_bool_answer; rewrite Eans; reflexivity|]. cbn beta. mstep. apply runs_ret.
    split; [now apply good_set_trace, good_set_os_bool_answers|]. split; [solve_evolves|].
    split; [repeat split|]. reflexivity.
Qed.

Lemma good_set_regions_count c w :
  good w -> 0 <= c <= reserved (regions w) -> good (set_regions_count c w).
Proof. intros [Hlen Hcount Hnext Hregs Hpage Hmr] Hc. constructor; assumption. Qed.

Lemma good_increment w :
  good w -> regions_count w < reserved (regions w) ->
  good (set_regions_count (wrap (regions_count w + 1)) w).
Proof.
  intros Hg Hlt. pose proof (good_count w Hg) as Hc.
  pose proof (reserved_le_length (regions w)) as Hr. rewrite (good_length w Hg) in Hr.
  rewrite MI_REGION_MAX_eq in Hr.
  apply good_set_regions_count; [exact Hg|]. rewrite wrap_small by lia. lia.
Qed.

(** A reservation stored in a descriptor that had none: the count is one
    behind until it is incremented. *)
Lemma good_store_start_pending (idx : nat) q r w :
  good w -> regions w !! idx = Some r -> start r = NULL -> region_ptr q -> q <> NULL ->
  let w' := set_regions (<[idx := mk_region (map r) q]> (regions w)) w in
  good w' /\ regions_count w' < reserved (regions w').
Proof.
  intros Hg Hl Hs Hq Hne w'. split; [now apply good_store_start|].
  subst w'. wsimpl. rewrite (reserved_insert _ _ _ _ Hl). wsimpl. rewrite Hs.
  change (NULL =? NULL) with true. destruct (Z.eqb_spec q NULL); [contradiction|].
  pose proof (good_count w Hg). lia.
Qed.

Lemma insert_same_region (l : list mem_region_t) i r :
  l !! i = Some r -> <[i := mk_region (map r) (start r)]> l = l.
Proof. intros Hl. destruct r. now apply list_insert_id. Qed.

Lemma since_log (P : event -> Prop) e w w' :
  trace w' = trace w ++ [e] -> P e -> since P w w'.
Proof. intros E H. exists [e]. split; [exact E | repeat constructor; exact H]. Qed.

(** ** Reserving a region *)

Lemma start_race_nil idx w : start_races w = [] -> start_race idx w = Some (tt, w).
Proof. intros E. unfold start_race. now rewrite E. Qed.

Lemma start_race_quiet idx rest w :
  start_races w = Quiet :: rest -> start_race idx w = Some (tt, set_start_races rest w).
Proof. intros E. unfold start_race. now rewrite E. Qed.

Lemma start_race_stored_refused idx q rest w :
  start_races w = Stored q :: rest -> 0 <= idx -> is_Some (regions w !! Z.to_nat idx) ->
  os_granted MI_REGION_SIZE MI_SEGMENT_ALIGN q = false ->
  start_race idx w = Some (tt, set_start_races rest w).
Proof.
  intros E Hi [r Hl] Hq. unfold start_race. rewrite E. unfold bind.
  rewrite (mi_atomic_read_start_eq idx r (set_start_races rest w) Hi Hl).
  rewrite Hq, andb_false_r. reflexivity.
Qed.

Lemma start_race_stored idx q rest r w :
  start_races w = Stored q :: rest -> 0 <= idx -> regions w !! Z.to_nat idx = Some r ->
  start r = NULL -> os_granted MI_REGION_SIZE MI_SEGMENT_ALIGN q = true ->
  start_race idx w
  = Some (tt, set_regions_count (wrap (regions_count w + 1))
                (set_regions (<[Z.to_nat idx := mk_region (map r) q]> (regions w))
                   (set_start_races rest w))).
Proof.
  intros E Hi Hl Hs Hq. unfold start_race. rewrite E. unfold bind at 1.
  rewrite (mi_atomic_read_start_eq idx r (set_start_races rest w) Hi Hl).
  rewrite Hs, Hq. change (NULL =? NULL) with true. cbn [andb].
  unfold bind. rewrite (store_start_eq idx q r (set_start_races rest w) Hi Hl).
  reflexivity.
Qed.

(** The publication of a fresh reservation [a] in a descriptor without one:
    this thread wins and counts the region, or another thread was first and
    this one frees [a] and goes on with the other's reservation. *)
Lemma publish_spec idx a r w :
  good w -> 0 <= idx -> regions w !! Z.to_nat idx = Some r -> start r = NULL ->
  region_ptr a -> a <> NULL ->
  runs (won <- mi_atomic_compare_exchange_start idx a NULL ;;
        if won then mi_atomic_increment_regions_count ;; ret (true, a)
        else _mi_os_free a MI_REGION_SIZE ;;
             s <- mi_atomic_read_start idx ;; ret (true, s)) w
    (fun res w' =>
       good w' /\ evolves w w' /\ region_next_idx w' = region_next_idx w /\
       fst res = true /\ snd res <> NULL /\ region_ptr (snd res) /\
       regions w' = <[Z.to_nat idx := mk_region (map r) (snd res)]> (regions w) /\
       map_races w' = map_races w /\ since reserving w w').
Proof.
  intros Hg Hi Hl Hs Ha Hne.
  unfold mi_atomic_compare_exchange_start.
  apply runs_bind. apply runs_bind.
  (* this thread's compare-and-swap on a descriptor still without a reservation *)
  assert (Hwin : forall w1, good w1 -> evolves w w1 -> trace w1 = trace w ->
            regions w1 = regions w -> region_next_idx w1 = region_next_idx w ->
            map_races w1 = map_races w ->
            runs (cur <- mi_atomic_read_start idx ;;
                  if cur =? NULL
                  then store_start idx a ;; log (EvStartWritten idx a) ;; ret true
                  else ret false) w1
              (fun won w2 =>
                 runs (if won then mi_atomic_increment_regions_count ;; ret (true, a)
                       else _mi_os_free a MI_REGION_SIZE ;;
                            s <- mi_atomic_read_start idx ;; ret (true, s)) w2
                   (fun res w' =>
                      good w' /\ evolves w w' /\ region_next_idx w' = region_next_idx w /\
                      fst res = true /\ snd res <> NULL /\ region_ptr (snd res) /\
                      regions w' = <[Z.to_nat idx := mk_region (map r) (snd res)]> (regions w) /\
                      map_races w' = map_races w /\ since reserving w w'))).
  { intros w1 Hg1 Hev1 Htr1 Hr1 Hn1 Hm1.
    assert (Hl1 : regions w1 !! Z.to_nat idx = Some r) by (rewrite Hr1; exact Hl).
    apply runs_bind.
    eapply runs_eq; [apply (mi_atomic_read_start_eq idx r w1 Hi Hl1)|]. cbn beta.
    rewrite Hs. change (NULL =? NULL) with true. cbn iota.
    apply runs_bind. eapply runs_eq; [apply (store_start_eq idx a r w1 Hi Hl1)|]. cbn beta.
    mstep. apply runs_ret. mstep. apply runs_ret.
    destruct (good_store_start_pending (Z.to_nat idx) a r w1 Hg1 Hl1 Hs Ha Hne) as [Hg2 Hpend].
    split.
    { apply good_increment; [now apply good_set_trace|]. exact Hpend. }
    split.
    { eapply evolves_trans; [exact Hev1|]. constructor; reflexivity. }
    wsimpl. split; [exact Hn1|]. split; [reflexivity|]. split; [exact Hne|]. split; [exact Ha|].
    split; [now rewrite Hr1|]. split; [exact Hm1|].
    apply (since_log _ (EvStartWritten idx a)); [wsimpl; now rewrite Htr1 | exact I]. }
  destruct (start_races w) as [|[|q] rest] eqn:Eraces.
  - eapply runs_eq; [apply (start_race_nil idx w Eraces)|]. cbn beta.
    apply Hwin; try reflexivity; [exact Hg | apply evolves_refl].
  - eapply runs_eq; [apply (start_race_quiet idx rest w Eraces)|]. cbn beta.
    pose proof (good_set_start_races rest w Hg) as Hg1.
    apply Hwin; try reflexivity; [exact Hg1 | constructor; reflexivity].
  - pose proof (good_set_start_races rest w Hg) as Hg1.
    destruct (os_granted MI_REGION_SIZE MI_SEGMENT_ALIGN q) eqn:Egranted.
    2:{ eapply runs_eq; [apply (start_race_stored_refused idx q rest w Eraces Hi); eauto|].
        cbn beta.
        apply Hwin; try reflexivity; [exact Hg1 | constructor; reflexivity]. }
    destruct (os_granted_region q Egranted) as [Hq Hqne].
    + eapply runs_eq; [apply (start_race_stored idx q rest r w Eraces Hi Hl Hs Egranted)|].
      cbn beta.
      set (w1 := set_start_races rest w) in *.
      assert (Hl1 : regions w1 !! Z.to_nat idx = Some r) by exact Hl.
      destruct (good_store_start_pending (Z.to_nat idx) q r w1 Hg1 Hl1 Hs Hq Hqne) as [Hg2 Hpend].
      cbv zeta in Hg2, Hpend.
      pose proof (good_increment _ Hg2 Hpend) as Hg3. wsimpl.
      set (w3 := set_regions_count _ _) in *.
      assert (Hl3 : regions w3 !! Z.to_nat idx = Some (mk_region (map r) q)).
      { subst w3 w1. wsimpl. now apply (lookup_insert_region _ _ r). }
      apply runs_bind.
      eapply runs_eq; [apply (mi_atomic_read_start_eq idx _ w3 Hi Hl3)|]. cbn beta. wsimpl.
      destruct (Z.eqb_spec q NULL); [contradiction|].
      apply runs_ret. cbn iota. unfold _mi_os_free. mstep.
      apply runs_bind.
      eapply runs_eq; [apply (mi_atomic_read_start_eq idx (mk_region (map r) q)); [exact Hi|exact Hl3]|].
      cbn beta. apply runs_ret. wsimpl.
      split; [now apply good_set_trace|].
      split; [subst w3 w1; constructor; reflexivity|].
      split; [reflexivity|]. split; [reflexivity|]. split; [exact Hqne|]. split; [exact Hq|].
      split; [reflexivity|]. split; [reflexivity|].
      apply (since_log _ (EvOsFree a MI_REGION_SIZE)); [reflexivity | exact I].
Qed.

Lemma since_mono (P P' : event -> Prop) w w' :
  (forall e, P e -> P' e) -> since P w w' -> since P' w w'.
Proof. intros HP (d & E & H). exists d. split; [exact E|]. eapply Forall_impl; eassumption. Qed.

Lemma reserving_granted e : reserving e -> granted e.
Proof. intros H [commit ->]. now apply H. Qed.

Lemma evolves_frame w w' :
  os_page_size w' = os_page_size w -> os_large_page_size w' = os_large_page_size w ->
  option_eager_region_commit w' = option_eager_region_commit w ->
  map_races w' = map_races w -> evolves w w'.
Proof. intros H1 H2 H3 H4. constructor; try assumption. now rewrite H4. Qed.

Lemma ensure_reserved_spec idx mask r w :
  good w -> 0 <= idx < MI_REGION_MAX -> regions w !! Z.to_nat idx = Some r ->
  runs (ensure_reserved idx mask (start r)) w (fun res w' =>
    good w' /\ evolves w w' /\ region_next_idx w' = region_next_idx w /\
    match res with
    | (true, s) =>
        s <> NULL /\ region_ptr s /\
        regions w' = <[Z.to_nat idx := mk_region (map r) s]> (regions w) /\
        map_races w' = map_races w /\ since reserving w w'
    | (false, _) =>
        (exists v eager,
            trace w' = trace w ++ [EvOsAllocAligned MI_REGION_SIZE MI_SEGMENT_ALIGN eager NULL;
                                   EvMapWritten idx v]) /\
        regions_count w' = regions_count w /\
        (map_races w = [] ->
         regions w' = <[Z.to_nat idx := mk_region (Z.land (map r) (not64 mask)) (start r)]> (regions w))
    end).
Proof.
  intros Hg Hi Hl. unfold ensure_reserved.
  assert (Hok : region_ok r) by exact (proj1 (Forall_lookup _ _) (good_regions w Hg) _ _ Hl).
  destruct (Z.eqb_spec (start r) NULL) as [Hs|Hs].
  - mstep.
    apply runs_bind.
    eapply runs_mono; [apply (_mi_os_alloc_aligned_spec _ _ _ w Hg)|].
    intros a w1 (Hg1 & Hev1 & (Hr1 & Hc1 & Hn1 & Hm1 & Hs1) & Ha & _ & Htr1). cbn beta.
    assert (Hl1 : regions w1 !! Z.to_nat idx = Some r) by (rewrite Hr1; exact Hl).
    destruct (Z.eqb_spec a NULL) as [Ea|Na].
    + mstep. apply runs_bind.
      eapply runs_mono; [apply (unclaim_spec _ idx mask w1 Hg1 Hi); lia|].
      intros _ w2 (Hg2 & Hev2 & (v & Htr2) & Hc2 & Hn2 & Hq2). cbn beta.
      apply runs_ret. split; [exact Hg2|]. split; [eapply evolves_trans; eassumption|].
      split; [congruence|]. split; [|split].
      * exists v, (option_eager_region_commit w). rewrite Htr2, Htr1, Ea, <- app_assoc. reflexivity.
      * congruence.
      * intros Hquiet. rewrite (Hq2 ltac:(congruence) r Hl1). now rewrite Hr1.
    + destruct Ha as [Ha|Ha]; [contradiction|].
      destruct (os_granted_region a Ha) as [Hptra _].
      eapply runs_mono; [apply (publish_spec idx a r w1 Hg1); [lia|assumption..]|].
      intros [ok s] w2 (Hg2 & Hev2 & Hn2 & Hfst & Hne & Hptr & Hr2 & Hm2 & Hsince). cbn beta.
      simpl in Hfst, Hne, Hptr, Hr2. subst ok.
      split; [exact Hg2|]. split; [eapply evolves_trans; eassumption|].
      split; [congruence|]. split; [exact Hne|]. split; [exact Hptr|].
      split; [now rewrite Hr2, Hr1|]. split; [congruence|].
      eapply since_trans; [|exact Hsince].
      apply (since_log _ _ _ _ Htr1). exact Na.
  - apply runs_ret. split; [exact Hg|]. split; [apply evolves_refl|]. split; [reflexivity|].
    split; [exact Hs|]. split; [exact (proj2 Hok)|].
    split; [symmetry; now apply insert_same_region|]. split; [reflexivity|]. apply since_refl.
Qed.

Lemma mi_good_commit_size_eq size w :
  exists sz, mi_good_commit_size size w = Some (sz, w).
Proof.
  unfold mi_good_commit_size, bind, _mi_os_large_page_size, gets.
  destruct (size >? wrap (SIZE_MAX - os_large_page_size w)); eexists; reflexivity.
Qed.

Lemma region_block_ptr s bitidx :
  region_ptr s -> s <> NULL -> 0 <= bitidx < 64 ->
  wrap (s + wrap (bitidx * MI_SEGMENT_SIZE)) = s + bitidx * MI_SEGMENT_SIZE
  /\ s + bitidx * MI_SEGMENT_SIZE <> NULL.
Proof.
  intros (H0 & Hmax & _) Hne Hb. unfold MI_REGION_SIZE in Hmax.
  rewrite MI_REGION_MAP_BITS_eq, MI_SEGMENT_SIZE_eq in *. unfold NULL in *.
  rewrite (wrap_small (bitidx * 4194304)) by lia.
  rewrite wrap_small by lia. lia.
Qed.

Lemma region_id idx bitidx :
  0 <= idx < MI_REGION_MAX -> 0 <= bitidx < 64 ->
  wrap (wrap (idx * MI_REGION_MAP_BITS) + bitidx) = idx * MI_REGION_MAP_BITS + bitidx
  /\ idx * MI_REGION_MAP_BITS + bitidx <> SIZE_MAX
  /\ (idx * MI_REGION_MAP_BITS + bitidx) / MI_REGION_MAP_BITS = idx
  /\ (idx * MI_REGION_MAP_BITS + bitidx) mod MI_REGION_MAP_BITS = bitidx.
Proof.
  intros Hi Hb. rewrite MI_REGION_MAX_eq in Hi. rewrite MI_REGION_MAP_BITS_eq, SIZE_MAX_eq.
  rewrite (wrap_small (idx * 64)) by lia. rewrite wrap_small by lia.
  split; [reflexivity|]. split; [lia|]. split.
  - rewrite Z.div_add_l by lia. rewrite Z.div_small by lia. lia.
  - rewrite Z.add_comm, Z.mod_add by lia. apply Z.mod_small. lia.
Qed.

(** The commit of claimed blocks: either the reservation was denied, the
    claim is released and nothing is written to [*p] and [*id]; or the block
    pointer and the id are written, whatever the commit gave. *)
Lemma mi_region_commit_blocks_spec idx bitidx blocks size commit p id r w :
  good w -> 0 <= idx < MI_REGION_MAX -> regions w !! Z.to_nat idx = Some r ->
  1 <= blocks < 64 -> 0 <= bitidx -> bitidx + blocks <= 64 ->
  runs (mi_region_commit_blocks idx bitidx blocks size commit p id) w (fun res w' =>
    good w' /\ evolves w w' /\
    match res with
    | (true, p', id') =>
        exists s, s <> NULL /\ region_ptr s /\
          regions w' = <[Z.to_nat idx := mk_region (map r) s]> (regions w) /\
          p' = s + bitidx * MI_SEGMENT_SIZE /\ p' <> NULL /\
          id' = idx * MI_REGION_MAP_BITS + bitidx /\ id' <> SIZE_MAX /\
          map_races w' = map_races w /\ region_next_idx w' = idx /\
          since (fun e => granted e /\ commit_at p' e) w w'
    | (false, p', id') =>
        p' = p /\ id' = id /\
        (exists v eager,
            trace w' = trace w ++ [EvOsAllocAligned MI_REGION_SIZE MI_SEGMENT_ALIGN eager NULL;
                                   EvMapWritten idx v]) /\
        regions_count w' = regions_count w /\
        region_next_idx w' = region_next_idx w /\
        (map_races w = [] ->
         regions w' = <[Z.to_nat idx := mk_region (Z.land (map r) (not64 (mask_at blocks bitidx)))
                                          (start r)]> (regions w))
    end).
Proof.
  intros Hg Hi Hl Hb Hbit Hsum. unfold mi_region_commit_blocks.
  apply runs_bind. eapply runs_lift; [apply mask_at_Some; lia|].
  apply runs_bind. eapply runs_eq; [apply (mi_atomic_read_start_eq idx r w); [lia|exact Hl]|].
  cbn beta. apply runs_bind.
  eapply runs_mono; [apply (ensure_reserved_spec idx _ r w Hg Hi Hl)|].
  intros [[|] s] w1 (Hg1 & Hev1 & Hn1 & Hres); cbn beta iota; cbn [negb].
  - destruct Hres as (Hne & Hptr & Hr1 & Hm1 & Hsince).
    destruct (region_block_ptr s bitidx Hptr Hne) as [Ep Hpne]; [lia|].
    destruct (region_id idx bitidx Hi) as (Eid & Hidne & _); [lia|].
    rewrite Ep, Eid.
    assert (Hfin : forall w2, good w2 -> evolves w1 w2 -> frame w1 w2 ->
              since (fun e => granted e /\ commit_at (s + bitidx * MI_SEGMENT_SIZE) e) w1 w2 ->
              runs (mi_atomic_write_region_next_idx idx ;;
                    ret (true, s + bitidx * MI_SEGMENT_SIZE, idx * MI_REGION_MAP_BITS + bitidx)) w2
                (fun res w' =>
                   good w' /\ evolves w w' /\
                   (let '(ok, p', id') := res in
                    if ok then
                      exists s0, s0 <> NULL /\ region_ptr s0 /\
                        regions w' = <[Z.to_nat idx := mk_region (map r) s0]> (regions w) /\
                        p' = s0 + bitidx * MI_SEGMENT_SIZE /\ p' <> NULL /\
                        id' = idx * MI_REGION_MAP_BITS + bitidx /\ id' <> SIZE_MAX /\
                        map_races w' = map_races w /\ region_next_idx w' = idx /\
                        since (fun e => granted e /\ commit_at p' e) w w'
                    else False))).
    { intros w2 Hg2 Hev2 (Hr2 & Hc2 & Hn2 & Hm2 & Hs2) Hsince2.
      mstep. apply runs_ret. split; [apply good_set_region_next_idx; assumption|].
      split.
      { eapply evolves_trans; [exact Hev1|]. eapply evolves_trans; [exact Hev2|].
        constructor; reflexivity. }
      exists s. wsimpl. split; [exact Hne|]. split; [exact Hptr|].
      split; [now rewrite Hr2, Hr1|]. split; [reflexivity|]. split; [exact Hpne|].
      split; [reflexivity|]. split; [exact Hidne|]. split; [congruence|]. split; [reflexivity|].
      eapply since_trans.
      - eapply since_mono; [|exact Hsince]. intros e He. split; [now apply reserving_granted|].
        destruct e; simpl in *; try exact I. contradiction.
      - destruct Hsince2 as (d & E & Hd). exists d. split; [wsimpl; exact E | exact Hd]. }
    mstep.
    destruct (commit && negb (option_eager_region_commit w1)).
    + apply runs_bind. apply runs_bind.
      destruct (mi_good_commit_size_eq size w1) as [sz Esz].
      eapply runs_eq; [exact Esz|]. cbn beta. apply runs_bind.
      eapply runs_mono; [apply (_mi_os_commit_spec _ sz w1 Hg1)|].
      intros ok w2 (Hg2 & Hev2 & Hfr2 & Htr2). cbn beta. apply runs_ret.
      eapply runs_mono; [apply (Hfin w2 Hg2 Hev2 Hfr2)|].
      * apply (since_log _ _ _ _ Htr2). split; [|reflexivity]. intros [c [=]].
      * intros [[[|] p'] id']; intros w3 (Hg3 & Hev3 & H3); [|contradiction].
        split; [exact Hg3|]. split; [exact Hev3|]. exact H3.
    + apply runs_bind. apply runs_ret.
      eapply runs_mono; [apply (Hfin w1 Hg1 (evolves_refl w1) (frame_refl w1) (since_refl _ w1))|].
      intros [[[|] p'] id']; intros w3 (Hg3 & Hev3 & H3); [|contradiction].
      split; [exact Hg3|]. split; [exact Hev3|]. exact H3.
  - destruct Hres as (Htr & Hc & Hq). apply runs_ret.
    split; [exact Hg1|]. split; [exact Hev1|]. split; [reflexivity|]. split; [reflexivity|].
    split; [exact Htr|]. split; [exact Hc|]. split; [exact Hn1|]. exact Hq.
Qed.

(** ** Claiming blocks in a region *)

Lemma mask_at_0 blocks : 0 <= blocks < 64 -> mask_at blocks 0 = Z.ones blocks.
Proof.
  intros Hb. unfold mask_at. rewrite Z.shiftl_0_r. apply wrap_small.
  rewrite Z.ones_equiv. unfold Z.pred.
  assert (0 < 2 ^ blocks < 2 ^ 64).
  { split; [apply Z.pow_pos_nonneg; lia | apply Z.pow_lt_mono_r; lia]. }
  lia.
Qed.

Lemma shl_mask_at blocks b :
  0 <= blocks < 64 -> 0 <= b < 64 -> shl (mask_at blocks 0) b = Some (mask_at blocks b).
Proof. intros Hb Hi. rewrite mask_at_0 by lia. now apply shl_Some. Qed.

Lemma find_range_stale mp blocks b0 :
  word mp -> 1 <= blocks < 64 -> 0 <= b0 <= 64 - blocks ->
  exists b', find_range word_budget blocks (64 - blocks) mp b0 = Some b'
    /\ b0 <= b'
    /\ (b0 = 0 ->
        (forall j, 0 <= j < b' -> ~ run_free mp j blocks)
        /\ (b' <= 64 - blocks -> run_free mp b' blocks)).
Proof.
  intros Hw Hb Hb0.
  assert (Eshift : Z.shiftr (Z.shiftl mp b0) b0 = mp).
  { rewrite Z.shiftr_shiftl_l by lia. rewrite Z.sub_diag. apply Z.shiftl_0_r. }
  destruct (find_range_spec (Z.shiftl mp b0) ltac:(apply Z.shiftl_nonneg; unfold word in Hw; lia)
              word_budget blocks (64 - blocks) b0)
    as (b' & E & Hle & Hfacts & _); try lia.
  { rewrite Eshift. unfold word in Hw. lia. }
  { change (Z.of_nat word_budget) with 65. lia. }
  rewrite Eshift in E. exists b'. split; [exact E|]. split; [exact Hle|].
  intros ->. rewrite Z.shiftl_0_r in Hfacts. apply Hfacts. lia.
Qed.

Lemma claim_spec fuel : forall idx blocks b0 w,
  good w -> 0 <= idx < MI_REGION_MAX -> 1 <= blocks < 64 -> 0 <= b0 <= 64 - blocks ->
  (length (map_races w) < fuel)%nat ->
  runs (claim fuel idx blocks (mask_at blocks 0) (64 - blocks) b0) w (fun found w' =>
    good w' /\ evolves w w' /\
    regions_count w' = regions_count w /\ region_next_idx w' = region_next_idx w /\
    since map_written w w' /\
    match found with
    | None =>
        map_races w = [] -> b0 = 0 ->
        w' = w /\ forall r, regions w !! Z.to_nat idx = Some r -> forall j, ~ fits (map r) blocks j
    | Some b =>
        0 <= b /\ b + blocks <= 64 /\
        (map_races w = [] -> b0 = 0 -> forall r, regions w !! Z.to_nat idx = Some r ->
           Z.land (map r) (mask_at blocks b) = 0 /\
           (forall j, fits (map r) blocks j -> b <= j) /\
           map_races w' = [] /\
           regions w' = <[Z.to_nat idx := mk_region (Z.lor (map r) (mask_at blocks b)) (start r)]>
                          (regions w))
    end).
Proof.
  induction fuel as [|fuel IH]; intros idx blocks b0 w Hg Hi Hb Hb0 Hfuel; [lia|].
  destruct (good_lookup w idx Hg Hi) as (r & Hl & Hmap & _).
  cbn [claim].
  apply runs_bind. eapply runs_eq; [apply (mi_atomic_read_map_eq idx r w); [lia|exact Hl]|]. cbn beta.
  destruct (find_range_stale (map r) blocks b0 Hmap Hb Hb0) as (b' & Efind & Hle & Hfacts).
  apply runs_bind. eapply runs_lift; [exact Efind|].
  rewrite Z.gtb_ltb. destruct (Z.ltb_spec (64 - blocks) b') as [Hout|Hin].
  - apply runs_ret. split; [exact Hg|]. split; [apply evolves_refl|].
    do 2 (split; [reflexivity|]). split; [apply since_refl|].
    intros _ Hzero. split; [reflexivity|]. intros r' Hl' j Hfit.
    assert (r' = r) by congruence. subst r'.
    apply fits_run_free in Hfit; [|lia]. destruct Hfit as (Hj0 & Hj & Hfree).
    destruct (Hfacts Hzero) as [Hno _]. apply (Hno j); [lia | exact Hfree].
  - apply runs_bind. eapply runs_lift; [apply shl_mask_at; lia|].
    apply runs_bind.
    eapply runs_mono;
      [apply (mi_atomic_compare_exchange_map_spec idx _ (map r) r w Hg);
         [lia | exact Hl | reflexivity | apply word_lor; [exact Hmap | apply mask_at_word]]|].
    intros ok w1 (Hg1 & Hev1 & Hlen1 & Htr1 & Hc1 & Hn1 & Hq1). cbn beta.
    destruct ok.
    + apply runs_ret. split; [exact Hg1|]. split; [exact Hev1|].
      do 2 (split; [assumption|]).
      split; [apply (since_log _ _ _ _ Htr1); exact I|].
      split; [lia|]. split; [lia|].
      intros Hquiet Hzero r' Hl'. assert (r' = r) by congruence. subst r'.
      destruct (Hfacts Hzero) as [Hno Hfree].
      split; [apply land_mask_zero_iff; [lia..|apply Hfree; lia]|].
      split.
      { intros j Hfit. apply fits_run_free in Hfit; [|lia]. destruct Hfit as (Hj0 & Hj & Hjfree).
        destruct (Z_lt_dec j b') as [Hlt|]; [|lia]. exfalso. apply (Hno j); [lia | exact Hjfree]. }
      destruct (Hq1 Hquiet) as [_ ->]. wsimpl. split; [exact Hquiet | reflexivity].
    + eapply runs_mono; [apply (IH idx blocks b' w1 Hg1 Hi Hb); lia|].
      intros found w2 (Hg2 & Hev2 & Hc2 & Hn2 & Hsince2 & Hfound). cbn beta.
      split; [exact Hg2|]. split; [eapply evolves_trans; eassumption|].
      split; [congruence|]. split; [congruence|].
      split.
      { eapply since_trans; [|exact Hsince2]. exists []. split; [exact Htr1 | constructor]. }
      assert (Hnq : map_races w <> []).
      { intros Hquiet. destruct (Hq1 Hquiet) as [[=] _]. }
      destruct found as [b|].
      * destruct Hfound as (H0 & H1 & _). split; [exact H0|]. split; [exact H1|].
        intros Hquiet. contradiction.
      * intros Hquiet. contradiction.
Qed.

(** ** Probing a region *)

Create HintDb regions.
#[local] Hint Resolve evolves_refl since_refl frame_refl good_set_trace : regions.

(** A search that looked at nothing. *)
Lemma outcome_nothing (C : world -> Z -> Z -> world -> Prop) w :
  good w -> outcome C w (true, NULL, SIZE_MAX) w.
Proof. intros Hg. split; [exact Hg|]. split; [|left]; auto 6 with regions. Qed.

Lemma map_written_quiet e : map_written e -> granted e /\ no_commit e.
Proof. destruct e; simpl; try contradiction. intros _. split; [intros [c [=]] | exact I]. Qed.

Lemma denied_after P w w1 w2 : since P w w1 -> denied w1 w2 -> denied w w2.
Proof.
  intros (d1 & E1 & _) (d2 & E2 & H2). exists (d1 ++ d2). split.
  - rewrite E2, E1. now rewrite app_assoc.
  - apply Exists_app. now right.
Qed.

Lemma mi_region_alloc_blocks_spec idx blocks size commit w :
  good w -> 0 <= idx < MI_REGION_MAX -> 1 <= blocks < 64 ->
  runs (mi_region_alloc_blocks idx blocks size commit NULL SIZE_MAX) w
    (outcome (claimed_at idx blocks) w).
Proof.
  intros Hg Hi Hb. unfold mi_region_alloc_blocks.
  apply runs_bind. eapply runs_lift; [apply mask_at_Some; lia|].
  rewrite MI_REGION_MAP_BITS_eq. rewrite (wrap_small (64 - blocks)) by lia.
  mstep. apply runs_bind.
  eapply runs_mono; [apply (claim_spec _ idx blocks 0 w Hg Hi Hb); lia|].
  intros [b|] w1 (Hg1 & Hev1 & Hc1 & Hn1 & Hsince1 & Hfound); cbn beta iota.
  - destruct Hfound as (Hb0 & Hbsum & Hq1).
    destruct (good_lookup w1 idx Hg1 Hi) as (r1 & Hl1 & Hok1).
    eapply runs_mono;
      [apply (mi_region_commit_blocks_spec idx b blocks size commit NULL SIZE_MAX r1 w1 Hg1 Hi Hl1);
         lia|].
    intros [[[|] p'] id'] w2 (Hg2 & Hev2 & Hres).
    + destruct Hres as (s & Hs & Hptr & Hr2 & Ep & Hpne & Eid & Hidne & Hm2 & Hn2 & Hsince2).
      split; [exact Hg2|]. split; [eapply evolves_trans; eassumption|].
      right. split; [exact Hpne|]. split; [exact Hidne|]. split.
      { eapply since_trans; [|exact Hsince2]. eapply since_mono; [|exact Hsince1].
        intros e He. destruct (map_written_quiet e He) as [H1 H2]. split; [exact H1|].
        destruct e; simpl in *; try exact I; contradiction. }
      intros Hquiet. destruct (good_lookup w idx Hg Hi) as (r & Hl & Hok).
      destruct (Hq1 Hquiet eq_refl r Hl) as (Hz & Hlow & Hm1 & Hr1).
      assert (r1 = mk_region (Z.lor (map r) (mask_at blocks b)) (start r)) as ->.
      { rewrite Hr1 in Hl1. rewrite (lookup_insert_region _ _ r _ Hl) in Hl1. congruence. }
      exists b, r, s. split; [exact Hl|]. split; [lia|]. rewrite MI_REGION_MAP_BITS_eq.
      split; [lia|]. split; [exact Hz|]. split; [exact Hlow|]. split; [exact Hs|].
      split; [exact Hptr|]. split; [|split; [exact Ep|exact Eid]].
      rewrite Hr2, Hr1. wsimpl. apply list_insert_insert_eq.
    + destruct Hres as (-> & -> & (v & eager & Htr) & Hc2 & Hn2 & Hq2).
      split; [exact Hg2|]. split; [eapply evolves_trans; eassumption|].
      split; [reflexivity|]. split; [reflexivity|].
      split.
      { eapply denied_after; [exact Hsince1|]. eexists. split; [exact Htr|].
        apply Exists_cons_hd. now exists eager. }
      split.
      { eapply since_trans.
        - eapply since_mono; [|exact Hsince1]. intros e He. apply (map_written_quiet e He).
        - eexists. split; [exact Htr|]. repeat constructor. }
      intros Hquiet. destruct (good_lookup w idx Hg Hi) as (r & Hl & Hok).
      destruct (Hq1 Hquiet eq_refl r Hl) as (Hz & Hlow & Hm1 & Hr1).
      assert (r1 = mk_region (Z.lor (map r) (mask_at blocks b)) (start r)) as ->.
      { rewrite Hr1 in Hl1. rewrite (lookup_insert_region _ _ r _ Hl) in Hl1. congruence. }
      rewrite (Hq2 Hm1), Hr1. wsimpl. rewrite list_insert_insert_eq.
      rewrite (lor_land_not _ _ (proj1 Hok) Hz). now apply insert_same_region.
  - apply runs_ret. split; [exact Hg1|]. split; [exact Hev1|].
    left. split; [reflexivity|]. split; [reflexivity|]. split.
    + eapply since_mono; [|exact Hsince1]. apply map_written_quiet.
    + intros Hquiet. now destruct (Hfound Hquiet eq_refl).
Qed.

Lemma mi_region_try_alloc_blocks_spec idx blocks size commit w :
  good w -> 0 <= idx < MI_REGION_MAX -> 1 <= blocks < 64 ->
  runs (mi_region_try_alloc_blocks idx blocks size commit NULL SIZE_MAX) w
    (outcome (claimed_at idx blocks) w).
Proof.
  intros Hg Hi Hb. unfold mi_region_try_alloc_blocks.
  destruct (good_lookup w idx Hg Hi) as (r & Hl & Hok).
  apply runs_bind. eapply runs_eq; [apply (mi_atomic_read_map_eq idx r w); [lia|exact Hl]|].
  cbn beta. destruct (map r =? MI_REGION_MAP_FULL); cbn [negb].
  - apply runs_ret. now apply outcome_nothing.
  - now apply mi_region_alloc_blocks_spec.
Qed.

(** ** Sizes *)

Lemma _mi_align_up_range sz a :
  0 <= sz -> 0 < a -> sz + a < 2 ^ 64 ->
  sz <= _mi_align_up sz a < sz + a.
Proof.
  intros Hsz Ha Hmax. unfold _mi_align_up.
  pose proof (Z.mul_div_le sz a Ha) as Hle.
  pose proof (Z.mod_pos_bound sz a Ha) as Hmod.
  pose proof (Z.div_mod sz a ltac:(lia)) as Hdm.
  assert (0 <= sz / a) by (apply Z.div_pos; lia).
  assert (0 <= sz / a * a) by nia.
  rewrite (wrap_small (sz / a * a)) by lia.
  destruct (Z.ltb_spec (sz / a * a) sz) as [Hlt|Hge].
  - rewrite (wrap_small (sz / a * a + a)) by lia.
    destruct (Z.ltb_spec (sz / a * a + a) sz); lia.
  - destruct (Z.ltb_spec (sz / a * a) sz); lia.
Qed.

Lemma mi_region_block_count_range size :
  0 < size <= 17 * MI_SEGMENT_SIZE -> 1 <= mi_region_block_count size <= 17.
Proof.
  rewrite MI_SEGMENT_SIZE_eq. intros Hs. unfold mi_region_block_count.
  rewrite MI_SEGMENT_SIZE_eq. rewrite wrap_small by lia.
  split.
  - apply Z.div_le_lower_bound; lia.
  - assert ((size + 4194304 - 1) / 4194304 < 18) by (apply Z.div_lt_upper_bound; lia). lia.
Qed.

(** The blocks of a request that goes to the regions. *)
Lemma request_blocks size w :
  good w -> 0 < size <= MI_REGION_MAX_ALLOC_SIZE ->
  1 <= mi_region_block_count (_mi_align_up size (os_page_size w)) <= 17
  /\ _mi_align_up size (os_page_size w) <= 17 * MI_SEGMENT_SIZE.
Proof.
  intros Hg Hs. pose proof (good_page w Hg) as Hp.
  rewrite MI_REGION_MAX_ALLOC_SIZE_eq in Hs. rewrite MI_SEGMENT_SIZE_eq in *.
  pose proof (_mi_align_up_range size (os_page_size w)) as Hr.
  assert (Hrange : size <= _mi_align_up size (os_page_size w) < size + os_page_size w)
    by (apply Hr; lia).
  split; [|lia]. apply mi_region_block_count_range. rewrite MI_SEGMENT_SIZE_eq. lia.
Qed.

(** ** The sweeps *)

Lemma outcome_mono (C C' : world -> Z -> Z -> world -> Prop) w res w' :
  (forall p id, C w p id w' -> C' w p id w') -> outcome C w res w' -> outcome C' w res w'.
Proof.
  intros HC (Hg & Hev & Hres). split; [exact Hg|]. split; [exact Hev|].
  destruct res as [[[|] p] id]; [|exact Hres].
  destruct Hres as [H|(H1 & H2 & H3 & H4)]; [now left|].
  right. split; [exact H1|]. split; [exact H2|]. split; [exact H3|].
  intros Hq. apply HC. now apply H4.
Qed.

(** A search that goes on after a probe that found no range. *)
Lemma outcome_after (C : world -> Z -> Z -> world -> Prop) w w1 res w2 :
  evolves w w1 -> since (fun e => granted e /\ no_commit e) w w1 ->
  (map_races w = [] -> w1 = w) ->
  outcome C w1 res w2 -> outcome C w res w2.
Proof.
  intros Hev Hsince Hq (Hg & Hev2 & Hres).
  split; [exact Hg|]. split; [eapply evolves_trans; eassumption|].
  destruct res as [[[|] p] id].
  - destruct Hres as [(H1 & H2 & H3 & H4)|(H1 & H2 & H3 & H4)].
    + left. split; [exact H1|]. split; [exact H2|].
      split; [eapply since_trans; eassumption|].
      intros Hquiet. pose proof (Hq Hquiet) as ->. now apply H4.
    + right. split; [exact H1|]. split; [exact H2|]. split.
      * eapply since_trans; [|exact H3]. eapply since_mono; [|exact Hsince].
        intros e [He1 He2]. split; [exact He1|]. destruct e; simpl in *; try exact I; contradiction.
      * intros Hquiet. pose proof (Hq Hquiet) as ->. now apply H4.
  - destruct Hres as (H1 & H2 & H3 & H4 & H5).
    split; [exact H1|]. split; [exact H2|].
    split; [eapply denied_after; eassumption|]. split.
    + eapply since_trans; [|exact H4]. eapply since_mono; [|exact Hsince]. now intros e [_ He].
    + intros Hquiet. pose proof (Hq Hquiet) as ->. now apply H5.
Qed.

Lemma first_sweep_spec remaining : forall idx count blocks size commit w,
  good w -> 0 < count <= MI_REGION_MAX -> 0 <= idx -> idx + Z.of_nat remaining < 2 ^ 64 ->
  1 <= blocks < 64 ->
  runs (first_sweep remaining idx count blocks size commit NULL SIZE_MAX) w
    (outcome (claimed blocks) w).
Proof.
  induction remaining as [|n IH]; intros idx count blocks size commit w Hg Hc Hi Hmax Hb.
  - apply runs_ret. now apply outcome_nothing.
  - cbn [first_sweep].
    assert (Hmod : 0 <= idx mod count < MI_REGION_MAX).
    { pose proof (Z.mod_pos_bound idx count). lia. }
    apply runs_bind.
    eapply runs_mono; [apply (mi_region_try_alloc_blocks_spec _ blocks size commit w Hg Hmod Hb)|].
    intros [[[|] p] id] w1 Hout; cbn beta iota; cbn [negb].
    + destruct Hout as (Hg1 & Hev1 & [(-> & -> & Hs1 & Hq1)|(Hp & Hid & Hs1 & Hq1)]).
      * change (NULL =? NULL) with true. cbn [negb]. rewrite wrap_small by lia.
        eapply runs_mono; [apply (IH (idx + 1) count blocks size commit w1 Hg1 Hc); lia|].
        intros res w2 Hout2. eapply outcome_after; eassumption.
      * destruct (Z.eqb_spec p NULL) as [|_]; [contradiction|]. cbn [negb].
        apply runs_ret. split; [exact Hg1|]. split; [exact Hev1|]. right.
        split; [exact Hp|]. split; [exact Hid|]. split; [exact Hs1|].
        intros Hquiet. exists (idx mod count). split; [exact Hmod | now apply Hq1].
    + apply runs_ret. exact Hout.
Qed.

Lemma second_sweep_spec remaining : forall idx blocks size commit w,
  good w -> 0 <= idx -> idx + Z.of_nat remaining <= MI_REGION_MAX -> 1 <= blocks < 64 ->
  runs (second_sweep remaining idx blocks size commit NULL SIZE_MAX) w
    (outcome (claimed blocks) w).
Proof.
  induction remaining as [|n IH]; intros idx blocks size commit w Hg Hi Hmax Hb.
  - apply runs_ret. now apply outcome_nothing.
  - cbn [second_sweep].
    assert (Hidx : 0 <= idx < MI_REGION_MAX) by lia.
    apply runs_bind.
    eapply runs_mono; [apply (mi_region_try_alloc_blocks_spec _ blocks size commit w Hg Hidx Hb)|].
    intros [[[|] p] id] w1 Hout; cbn beta iota; cbn [negb].
    + destruct Hout as (Hg1 & Hev1 & [(-> & -> & Hs1 & Hq1)|(Hp & Hid & Hs1 & Hq1)]).
      * change (NULL =? NULL) with true. cbn [negb].
        rewrite MI_REGION_MAX_eq in Hmax. rewrite wrap_small by lia.
        eapply runs_mono; [apply (IH (idx + 1) blocks size commit w1 Hg1); rewrite ?MI_REGION_MAX_eq; lia|].
        intros res w2 Hout2. eapply outcome_after; eassumption.
      * destruct (Z.eqb_spec p NULL) as [|_]; [contradiction|]. cbn [negb].
        apply runs_ret. split; [exact Hg1|]. split; [exact Hev1|]. right.
        split; [exact Hp|]. split; [exact Hid|]. split; [exact Hs1|].
        intros Hquiet. exists idx. split; [exact Hidx | now apply Hq1].
    + apply runs_ret. exact Hout.
Qed.

(** ** Allocation *)

(** The direct OS allocation of a huge or strongly aligned request. *)
Lemma alloc_direct size alignment commit w :
  size > MI_REGION_MAX_ALLOC_SIZE \/ alignment > MI_SEGMENT_ALIGN ->
  exists sz p w',
    _mi_mem_alloc_aligned size alignment commit w = Some ((p, SIZE_MAX), w')
    /\ mi_good_commit_size size w = Some (sz, w)
    /\ trace w' = trace w ++ [EvOsAllocAligned sz alignment true p]
    /\ frame w w'
    /\ (good w -> good w' /\ evolves w w').
Proof.
  intros Hbig. unfold _mi_mem_alloc_aligned.
  assert (E : (size >? MI_REGION_MAX_ALLOC_SIZE) || (alignment >? MI_SEGMENT_ALIGN) = true).
  { apply orb_true_iff. rewrite !Z.gtb_ltb, !Z.ltb_lt. lia. }
  rewrite E. destruct (mi_good_commit_size_eq size w) as [sz Esz].
  unfold bind at 1. rewrite Esz.
  unfold _mi_os_alloc_aligned, next_alloc_answer, bind, log, modify, ret.
  destruct (os_alloc_answers w) as [|a rest] eqn:Eans.
  - exists sz, NULL. eexists. split; [reflexivity|]. split; [reflexivity|].
    split; [reflexivity|]. split; [repeat split|].
    intros Hg. split; [now apply good_set_trace | solve_evolves].
  - exists sz, (if os_granted sz alignment a then a else NULL). eexists.
    split; [reflexivity|]. split; [reflexivity|].
    split; [reflexivity|]. split; [repeat split|].
    intros Hg. pose proof (good_set_os_alloc_answers rest w Hg) as Hg1.
    split; [now apply good_set_trace | solve_evolves].
Qed.

Lemma granted_fallback size alignment commit p :
  size <= 17 * MI_SEGMENT_SIZE ->
  granted (EvOsAllocAligned size alignment commit p) /\
  no_commit (EvOsAllocAligned size alignment commit p).
Proof.
  intros Hs. split; [|exact I]. intros [c [= E _ _]].
  unfold MI_REGION_SIZE in E. rewrite MI_REGION_MAP_BITS_eq, MI_SEGMENT_SIZE_eq in *. lia.
Qed.

Lemma _mi_mem_alloc_aligned_spec size alignment commit w :
  good w -> 0 < size <= MI_REGION_MAX_ALLOC_SIZE -> alignment <= MI_SEGMENT_ALIGN ->
  runs (_mi_mem_alloc_aligned size alignment commit) w (alloc_outcome size w).
Proof.
  intros Hg Hs Ha. unfold _mi_mem_alloc_aligned.
  assert (E : (size >? MI_REGION_MAX_ALLOC_SIZE) || (alignment >? MI_SEGMENT_ALIGN) = false).
  { apply orb_false_iff. rewrite !Z.gtb_ltb, !Z.ltb_ge. lia. }
  rewrite E. mstep.
  destruct (request_blocks size w Hg Hs) as [Hblocks Hsize].
  set (size' := _mi_align_up size (os_page_size w)) in *.
  set (blocks := mi_region_block_count size') in *.
  mstep. mstep.
  pose proof (good_count_max w Hg) as Hc. pose proof (good_next w Hg) as Hn.
  pose proof MI_REGION_MAX_eq as EN.
  (* what is left after the first sweep *)
  assert (Hrest : forall res1 w1, outcome (claimed blocks) w res1 w1 ->
    runs (let '(ok, p, id) := res1 in
          if negb ok then ret (NULL, id)
          else
            '(ok, p, id) <-
              (if p =? NULL
               then second_sweep (Z.to_nat (MI_REGION_MAX - regions_count w)) (regions_count w)
                      blocks size' commit p id
               else ret (true, p, id)) ;;
            if negb ok then ret (NULL, id)
            else if p =? NULL then
              p <- _mi_os_alloc_aligned size' alignment commit ;; ret (p, id)
            else ret (p, id)) w1 (alloc_outcome size w)).
  { intros [[[|] p] id] w1 Hout; cbn [negb].
    - pose proof Hout as (Hg1 & Hev1 & [(-> & -> & Hs1 & Hq1)|(Hp & Hid & Hs1 & Hq1)]).
      + change (NULL =? NULL) with true. cbn iota. apply runs_bind.
        eapply runs_mono;
          [apply (second_sweep_spec _ (regions_count w) blocks size' commit w1 Hg1); lia|].
        intros res2 w2 Hout2.
        assert (Hout2' : outcome (claimed blocks) w res2 w2)
          by (eapply outcome_after; eassumption).
        destruct res2 as [[[|] p2] id2]; cbn [negb].
        * destruct Hout2' as (Hg2 & Hev2 & [(-> & -> & Hs2 & Hq2)|(Hp2 & Hid2 & Hs2 & Hq2)]).
          -- change (NULL =? NULL) with true. cbn iota. apply runs_bind.
             eapply runs_mono; [apply (_mi_os_alloc_aligned_spec _ _ _ w2 Hg2)|].
             intros p3 w3 (Hg3 & Hev3 & (Hr3 & _) & _ & _ & Htr3). cbn beta.
             apply runs_ret. split; [exact Hg3|]. split; [eapply evolves_trans; eassumption|].
             right. left. split; [reflexivity|]. split.
             ++ eapply since_trans; [exact Hs2|]. apply (since_log _ _ _ _ Htr3).
                now apply granted_fallback.
             ++ intros Hquiet. rewrite Hr3. now rewrite (Hq2 Hquiet).
          -- destruct (Z.eqb_spec p2 NULL) as [|_]; [contradiction|].
             apply runs_ret. split; [exact Hg2|]. split; [exact Hev2|].
             right. right. repeat split; assumption.
        * destruct Hout2' as (Hg2 & Hev2 & -> & -> & Hd & Hnc & Hq2).
          apply runs_ret. split; [exact Hg2|]. split; [exact Hev2|].
          left. repeat split; assumption.
      + destruct (Z.eqb_spec p NULL) as [|_]; [contradiction|]. cbn iota.
        mstep. cbn [negb]. destruct (Z.eqb_spec p NULL) as [|_]; [contradiction|].
        apply runs_ret. split; [exact Hg1|]. split; [exact Hev1|].
        right. right. repeat split; assumption.
    - destruct Hout as (Hg1 & Hev1 & -> & -> & Hd & Hnc & Hq1).
      apply runs_ret. split; [exact Hg1|]. split; [exact Hev1|].
      left. repeat split; assumption. }
  apply runs_bind.
  destruct (Z.eq_dec (regions_count w) 0) as [E0|N0].
  - replace (Z.to_nat (regions_count w)) with 0%nat by lia. cbn [first_sweep].
    apply runs_ret. apply (Hrest (true, NULL, SIZE_MAX) w). now apply outcome_nothing.
  - eapply runs_mono;
      [apply (first_sweep_spec _ (region_next_idx w) (regions_count w) blocks size' commit w Hg);
         lia|].
    intros res1 w1 Hout. exact (Hrest res1 w1 Hout).
Qed.

(** ** Free *)

Lemma _mi_os_reset_spec p size w :
  good w ->
  runs (_mi_os_reset p size) w (fun ok w' =>
    good w' /\ evolves w w' /\ frame w w' /\
    trace w' = trace w ++ [EvOsReset p size ok]).
Proof.
  intros Hg. unfold _mi_os_reset. apply runs_bind.
  destruct (os_bool_answers w) as [|b rest] eqn:Eans.
  - eapply runs_eq; [unfold next_bool_answer; rewrite Eans; reflexivity|]. cbn beta. mstep. apply runs_ret.
    split; [now apply good_set_trace|]. split; [solve_evolves|].
    split; [repeat split|]. reflexivity.
  - eapply runs_eq; [unfold next_bool_answer; rewrite Eans; reflexivity|]. cbn beta. mstep. apply runs_ret.
    split; [now apply good_set_trace, good_set_os_bool_answers|]. split; [solve_evolves|].
    split; [repeat split|]. reflexivity.
Qed.

Lemma _mi_os_decommit_spec p size w :
  good w ->
  runs (_mi_os_decommit p size) w (fun ok w' =>
    good w' /\ evolves w w' /\ frame w w' /\
    trace w' = trace w ++ [EvOsDecommit p size ok]).
Proof.
  intros Hg. unfold _mi_os_decommit. apply runs_bind.
  destruct (os_bool_answers w) as [|b rest] eqn:Eans.
  - eapply runs_eq; [unfold next_bool_answer; rewrite Eans; reflexivity|]. cbn beta. mstep. apply runs_ret.
    split; [now apply good_set_trace|]. split; [solve_evolves|].
    split; [repeat split|]. reflexivity.
  - eapply runs_eq; [unfold next_bool_answer; rewrite Eans; reflexivity|]. cbn beta. mstep. apply runs_ret.
    split; [now apply good_set_trace, good_set_os_bool_answers|]. split; [solve_evolves|].
    split; [repeat split|]. reflexivity.
Qed.

Lemma free_blocks size id w :
  good w -> 0 < size <= MI_REGION_MAX_ALLOC_SIZE -> 0 <= id ->
  let blocks := mi_region_block_count (_mi_align_up size (os_page_size w)) in
  let bitidx := id mod MI_REGION_MAP_BITS in
  1 <= blocks <= 17 /\ 0 <= bitidx < 64 /\ 0 <= id / MI_REGION_MAP_BITS /\
  mi_region_block_mask blocks bitidx = Some (mask_at blocks bitidx) /\
  wrap (bitidx + blocks) = bitidx + blocks.
Proof.
  intros Hg Hs Hid blocks bitidx. subst blocks bitidx.
  destruct (request_blocks size w Hg Hs) as [Hb _].
  rewrite MI_REGION_MAP_BITS_eq.
  pose proof (Z.mod_pos_bound id 64 ltac:(lia)) as Hm.
  split; [exact Hb|]. split; [exact Hm|]. split; [apply Z.div_pos; lia|].
  split; [apply mask_at_Some; lia|]. apply wrap_small. lia.
Qed.

(** A free that passes the checks releases the range and then clears the
    bits of the mask. *)
Lemma free_released p size id r w :
  good w -> p <> NULL -> 0 < size <= MI_REGION_MAX_ALLOC_SIZE -> 0 <= id -> id <> SIZE_MAX ->
  let size' := _mi_align_up size (os_page_size w) in
  let idx := id / MI_REGION_MAP_BITS in
  let bitidx := id mod MI_REGION_MAP_BITS in
  let blocks := mi_region_block_count size' in
  idx < MI_REGION_MAX -> regions w !! Z.to_nat idx = Some r ->
  p = wrap (start r + wrap (bitidx * MI_SEGMENT_SIZE)) ->
  bitidx + blocks <= MI_REGION_MAP_BITS ->
  runs (_mi_mem_free p size id) w (fun _ w' =>
    good w' /\ evolves w w' /\ regions_count w' = regions_count w /\
    (exists ok v, trace w' = trace w ++ [release_event w p size' ok; EvMapWritten idx v]) /\
    (map_races w = [] ->
     regions w' = <[Z.to_nat idx := mk_region (Z.land (map r) (not64 (mask_at blocks bitidx)))
                                      (start r)]> (regions w))).
Proof.
  intros Hg Hp Hs Hid Hmax size' idx bitidx blocks Hidx Hl Eptr Hfit.
  destruct (free_blocks size id w Hg Hs Hid) as (Hb & Hbit & Hi0 & Emask & Ewrap).
  fold size' in Hb, Emask, Ewrap. fold blocks in Hb, Emask, Ewrap. fold bitidx in Hbit, Emask, Ewrap.
  fold idx in Hi0.
  unfold _mi_mem_free.
  destruct (Z.eqb_spec p NULL) as [|_]; [contradiction|].
  destruct (Z.eqb_spec size 0) as [|_]; [lia|].
  destruct (Z.eqb_spec id SIZE_MAX) as [|_]; [contradiction|].
  rewrite Z.gtb_ltb. destruct (Z.ltb_spec MI_REGION_MAX_ALLOC_SIZE size) as [|_]; [lia|].
  mstep. fold size'. fold blocks. fold idx. fold bitidx.
  apply runs_bind. eapply runs_lift; [exact Emask|].
  rewrite Z.geb_leb. destruct (Z.leb_spec MI_REGION_MAX idx) as [|_]; [lia|].
  apply runs_bind. eapply runs_eq; [apply (mi_atomic_read_start_eq idx r w Hi0 Hl)|]. cbn beta.
  rewrite <- Eptr, Z.eqb_refl, Ewrap. cbn [negb orb].
  rewrite Z.gtb_ltb. destruct (Z.ltb_spec MI_REGION_MAP_BITS (bitidx + blocks)) as [|_]; [lia|].
  mstep. apply runs_bind.
  assert (Hrel : runs (if option_eager_region_commit w
                       then _mi_os_reset p size' ;; ret tt
                       else _mi_os_decommit p size' ;; ret tt) w
                   (fun _ w1 => good w1 /\ evolves w w1 /\ frame w w1 /\
                      exists ok, trace w1 = trace w ++ [release_event w p size' ok])).
  { unfold release_event. destruct (option_eager_region_commit w).
    - apply runs_bind. eapply runs_mono; [apply (_mi_os_reset_spec p size' w Hg)|].
      intros ok w1 (H1 & H2 & H3 & H4). apply runs_ret. eauto.
    - apply runs_bind. eapply runs_mono; [apply (_mi_os_decommit_spec p size' w Hg)|].
      intros ok w1 (H1 & H2 & H3 & H4). apply runs_ret. eauto. }
  eapply runs_mono; [exact Hrel|].
  intros _ w1 (Hg1 & Hev1 & (Hr1 & Hc1 & Hn1 & Hm1 & Hs1) & ok & Htr1). cbn beta.
  mstep.
  eapply runs_mono; [apply (unclaim_spec _ idx (mask_at blocks bitidx) w1 Hg1); lia|].
  intros _ w2 (Hg2 & Hev2 & (v & Htr2) & Hc2 & Hn2 & Hq2). cbn beta.
  split; [exact Hg2|]. split; [eapply evolves_trans; eassumption|].
  split; [congruence|]. split.
  - exists ok, v. rewrite Htr2, Htr1, <- app_assoc. reflexivity.
  - intros Hquiet. rewrite (Hq2 ltac:(congruence) r ltac:(rewrite Hr1; exact Hl)).
    now rewrite Hr1.
Qed.

(** A free of a region block that fails a check does nothing. *)
Lemma free_ignored p size id w :
  good w -> 0 <= size -> 0 <= id -> id <> SIZE_MAX -> ~ free_checks p size id w ->
  _mi_mem_free p size id w = Some (tt, w).
Proof.
  intros Hg Hs Hid Hmax Hno. unfold _mi_mem_free.
  destruct (Z.eqb_spec p NULL) as [|Hp]; [reflexivity|].
  destruct (Z.eqb_spec size 0) as [|Hs0]; [reflexivity|].
  destruct (Z.eqb_spec id SIZE_MAX) as [|_]; [contradiction|].
  rewrite Z.gtb_ltb. destruct (Z.ltb_spec MI_REGION_MAX_ALLOC_SIZE size) as [|Hsz]; [reflexivity|].
  destruct (free_blocks size id w Hg ltac:(lia) Hid) as (Hb & Hbit & Hi0 & Emask & Ewrap).
  unfold bind at 1. unfold _mi_os_page_size, gets. unfold bind at 1. rewrite Emask.
  unfold lift. rewrite Z.geb_leb.
  destruct (Z.leb_spec MI_REGION_MAX (id / MI_REGION_MAP_BITS)) as [|Hidx]; [reflexivity|].
  destruct (good_lookup w (id / MI_REGION_MAP_BITS) Hg ltac:(lia)) as (r & Hl & _).
  unfold bind at 1. rewrite (mi_atomic_read_start_eq _ r w Hi0 Hl). rewrite Ewrap.
  destruct (Z.eqb_spec (wrap (start r + wrap (id mod MI_REGION_MAP_BITS * MI_SEGMENT_SIZE))) p)
    as [Ep|Np]; cbn [negb orb]; [|reflexivity].
  rewrite Z.gtb_ltb.
  destruct (Z.ltb_spec MI_REGION_MAP_BITS
              (id mod MI_REGION_MAP_BITS
               + mi_region_block_count (_mi_align_up size (os_page_size w)))) as [|Hfit];
    [reflexivity|].
  exfalso. apply Hno. unfold free_checks. split; [lia|]. split; [lia|].
  split; [exists r; split; [exact Hl | now symmetry]|]. lia.
Qed.

(** The free of a direct OS allocation passes through to the OS. *)
Lemma free_direct p size w :
  p <> NULL -> size <> 0 ->
  _mi_mem_free p size SIZE_MAX w = Some (tt, set_trace (trace w ++ [EvOsFree p size]) w).
Proof.
  intros Hp Hs. unfold _mi_mem_free.
  destruct (Z.eqb_spec p NULL) as [|_]; [contradiction|].
  destruct (Z.eqb_spec size 0) as [|_]; [contradiction|].
  rewrite Z.eqb_refl. reflexivity.
Qed.

(** ** The initial world *)

Lemma good_world_init page large eager allocs bools mraces sraces :
  0 < page <= MI_SEGMENT_SIZE -> Forall (race_ok word) mraces ->
  good (world_init page large eager allocs bools mraces sraces).
Proof.
  intros Hp Hm. constructor; cbn [world_init regions regions_count region_next_idx
    os_page_size os_alloc_answers start_races map_races]; try assumption.
  - unfold regions_init. apply length_replicate.
  - pose proof (reserved_nonneg regions_init). lia.
  - rewrite MI_REGION_MAX_eq. lia.
  - unfold regions_init. apply Forall_replicate. split.
    + unfold word. simpl. lia.
    + apply region_ptr_NULL.
Qed.

(** * The bitmap helpers *)

(** C9 (as amended).  For every size [S <= MI_REGION_MAX_ALLOC_SIZE] the
    block count is the ceiling of [S / MI_SEGMENT_SIZE] and at most
    [MI_REGION_MAP_BITS / 4]; for every [B] and [i] below
    [MI_REGION_MAP_BITS] with [B + i <= MI_REGION_MAP_BITS] the mask is
    defined, equals [(2^B - 1) * 2^i] and has exactly the bits [i, i + B)
    set. *)
Theorem bitmap_helpers (S B i : Z) :
  0 <= S <= MI_REGION_MAX_ALLOC_SIZE ->
  0 <= B < MI_REGION_MAP_BITS -> 0 <= i < MI_REGION_MAP_BITS ->
  B + i <= MI_REGION_MAP_BITS ->
  ((mi_region_block_count S - 1) * MI_SEGMENT_SIZE < S <= mi_region_block_count S * MI_SEGMENT_SIZE
   /\ mi_region_block_count S <= MI_REGION_MAP_BITS / 4)
  /\ exists mask,
       mi_region_block_mask B i = Some mask
       /\ mask = (2 ^ B - 1) * 2 ^ i
       /\ forall k, 0 <= k -> Z.testbit mask k = (i <=? k) && (k <? i + B).
Proof.
  rewrite MI_REGION_MAX_ALLOC_SIZE_eq, MI_REGION_MAP_BITS_eq.
  intros HS HB Hi Hsum. split.
  - unfold mi_region_block_count. rewrite MI_SEGMENT_SIZE_eq in *.
    rewrite wrap_small by lia. change (64 / 4) with 16.
    pose proof (Z.div_mod (S + 4194304 - 1) 4194304 ltac:(lia)) as Hdm.
    pose proof (Z.mod_pos_bound (S + 4194304 - 1) 4194304 ltac:(lia)) as Hmod.
    assert ((S + 4194304 - 1) / 4194304 < 17) by (apply Z.div_lt_upper_bound; lia).
    lia.
  - destruct (Z.eq_dec B 0) as [->|HB0].
    + exists 0. split; [|split].
      * unfold mi_region_block_mask. rewrite (shl_Some 1 0) by lia. simpl.
        rewrite shl_Some by lia.
        rewrite Z.shiftl_0_l. reflexivity.
      * reflexivity.
      * intros k Hk. rewrite Z.bits_0.
        destruct (Z.leb_spec i k); destruct (Z.ltb_spec k (i + 0)); simpl; lia || reflexivity.
    + exists (mask_at B i). split; [apply mask_at_Some; lia|]. split.
      * apply mask_no_overflow; lia.
      * intros k Hk. rewrite mask_at_testbit by lia.
        destruct (Z.ltb_spec k 64); destruct (Z.leb_spec i k); destruct (Z.ltb_spec k (i + B));
          simpl; lia || reflexivity.
Qed.

Lemma bitmap_helpers_witness :
  ((mi_region_block_count (5 * 1024 * 1024) - 1) * MI_SEGMENT_SIZE < 5 * 1024 * 1024
     <= mi_region_block_count (5 * 1024 * 1024) * MI_SEGMENT_SIZE
   /\ mi_region_block_count (5 * 1024 * 1024) <= MI_REGION_MAP_BITS / 4)
  /\ exists mask,
       mi_region_block_mask 3 7 = Some mask
       /\ mask = (2 ^ 3 - 1) * 2 ^ 7
       /\ forall k, 0 <= k -> Z.testbit mask k = (7 <=? k) && (k <? 7 + 3).
Proof.
  apply (bitmap_helpers (5 * 1024 * 1024) 3 7); vm_compute; intuition discriminate.
Defined.

(** C9 (as stated) fails at [B = MI_REGION_MAP_BITS], [i = 0]: the
    precondition [B + i <= MI_REGION_MAP_BITS] holds, yet [1 << B] shifts a
    word by its width, which C leaves undefined, so the mask is not the
    word with the bits [0, 64) set. *)
Lemma bitmap_mask_full_width :
  64 + 0 <= MI_REGION_MAP_BITS
  /\ mi_region_block_mask 64 0 = None
  /\ mi_region_block_mask 64 0 <> Some ((2 ^ 64 - 1) * 2 ^ 0).
Proof. split; [vm_compute; discriminate|]. split; [reflexivity | discriminate]. Qed.

(** * Free of nothing *)

(** C10.  A free of a null pointer, and a free of size 0, return at once:
    the world (region table, counters, and the record of OS calls) is what
    it was. *)
Theorem free_null_or_empty (w : world) (p size id : Z) :
  _mi_mem_free NULL size id w = Some (tt, w) /\ _mi_mem_free p 0 id w = Some (tt, w).
Proof.
  split.
  - reflexivity.
  - unfold _mi_mem_free. destruct (p =? NULL); reflexivity.
Qed.

(** * The direct OS allocation *)

(** C7.  A request with [size > MI_REGION_MAX_ALLOC_SIZE] or
    [alignment > MI_SEGMENT_ALIGN] makes one call into the OS, the aligned
    allocation of the good commit size with [commit = true], returns its
    pointer with [*id = SIZE_MAX], and leaves [regions], [regions_count]
    and [region_next_idx] as they were. *)
Theorem alloc_bypasses_regions (w : world) (size alignment : Z) (commit : bool) :
  size > MI_REGION_MAX_ALLOC_SIZE \/ alignment > MI_SEGMENT_ALIGN ->
  exists sz p w',
    _mi_mem_alloc_aligned size alignment commit w = Some ((p, SIZE_MAX), w')
    /\ mi_good_commit_size size w = Some (sz, w)
    /\ trace w' = trace w ++ [EvOsAllocAligned sz alignment true p]
    /\ regions w' = regions w
    /\ regions_count w' = regions_count w
    /\ region_next_idx w' = region_next_idx w.
Proof.
  intros Hbig.
  destruct (alloc_direct size alignment commit w Hbig)
    as (sz & p & w' & E & Esz & Htr & (Hr & Hc & Hn & _) & _).
  exists sz, p, w'. repeat split; assumption.
Qed.

Lemma alloc_bypasses_regions_witness :
  exists sz p w',
    _mi_mem_alloc_aligned (128 * 1024 * 1024) 0 false example_world = Some ((p, SIZE_MAX), w')
    /\ mi_good_commit_size (128 * 1024 * 1024) example_world = Some (sz, example_world)
    /\ trace w' = trace example_world ++ [EvOsAllocAligned sz 0 true p]
    /\ regions w' = regions example_world
    /\ regions_count w' = regions_count example_world
    /\ region_next_idx w' = region_next_idx example_world.
Proof.
  apply (alloc_bypasses_regions example_world (128 * 1024 * 1024) 0 false).
  left. vm_compute. reflexivity.
Defined.

Lemma good_example_world : good example_world.
Proof.
  apply good_world_init; [vm_compute; intuition discriminate | constructor].
Qed.

(** * Allocation and free of a region block *)

Lemma land_lor_mask a k : Z.land (Z.lor a k) k = k.
Proof.
  apply Z.bits_inj'. intros n Hn. rewrite Z.land_spec, Z.lor_spec.
  destruct (Z.testbit a n), (Z.testbit k n); reflexivity.
Qed.

(** * Errors *)

Lemma since_not_denied (P : event -> Prop) w w' :
  (forall e, P e -> granted e) -> since P w w' -> denied w w' -> False.
Proof.
  intros HP (d & E & Hd) (d' & E' & Hd'). rewrite E in E'. apply app_inv_head in E'. subst d'.
  apply Exists_exists in Hd' as (e & He & Hfail).
  apply (HP e); [|exact Hfail]. exact (proj1 (Forall_forall _ _) Hd e He).
Qed.


(** Whatever the other threads do, an allocation during which the OS
    denied the reservation of a region returns a null pointer and
    [*id = SIZE_MAX]. *)
Lemma alloc_denied_returns_null w size alignment commit p id w' :
  good w -> 0 < size ->
  _mi_mem_alloc_aligned size alignment commit w = Some ((p, id), w') ->
  denied w w' ->
  p = NULL /\ id = SIZE_MAX /\ (map_races w = [] -> regions w' = regions w).
Proof.
  intros Hg Hs Ealloc Hdenied.
  destruct (Z_le_dec size MI_REGION_MAX_ALLOC_SIZE) as [Hsz|Hsz];
    [destruct (Z_le_dec alignment MI_SEGMENT_ALIGN) as [Ha|Ha]|].
  - pose proof (runs_det _ _ _ _ _
                  (_mi_mem_alloc_aligned_spec size alignment commit w Hg ltac:(lia) Ha) Ealloc)
      as (Hg1 & Hev1 & Hout).
    cbn [fst snd] in Hout.
    destruct Hout as [(Hp & Hid & _ & _ & Hr)|[(_ & Hsince & _)|(_ & _ & Hsince & _)]].
    + auto.
    + exfalso. eapply since_not_denied; [|exact Hsince|exact Hdenied]. now intros e [He _].
    + exfalso. eapply since_not_denied; [|exact Hsince|exact Hdenied]. now intros e [He _].
  - destruct (alloc_direct size alignment commit w) as (sz & p' & w'' & E & _ & Htr & (Hr & _) & _);
      [lia|].
    rewrite E in Ealloc. injection Ealloc as -> -> ->.
    destruct Hdenied as (d & Ed & Hd). rewrite Htr in Ed. apply app_inv_head in Ed. subst d.
    apply Exists_cons in Hd as [[c [= _ _ _ Hp]]|Hd]; [|inversion Hd]. auto.
  - destruct (alloc_direct size alignment commit w) as (sz & p' & w'' & E & _ & Htr & (Hr & _) & _);
      [lia|].
    rewrite E in Ealloc. injection Ealloc as -> -> ->.
    destruct Hdenied as (d & Ed & Hd). rewrite Htr in Ed. apply app_inv_head in Ed. subst d.
    apply Exists_cons in Hd as [[c [= _ _ _ Hp]]|Hd]; [|inversion Hd]. auto.
Qed.



(** * The free path *)

Lemma free_checks_dec p size id w : free_checks p size id w \/ ~ free_checks p size id w.
Proof.
  unfold free_checks.
  destruct (Z_le_dec size MI_REGION_MAX_ALLOC_SIZE) as [H1|H1]; [|right; tauto].
  destruct (Z_lt_dec (id / MI_REGION_MAP_BITS) MI_REGION_MAX) as [H2|H2]; [|right; tauto].
  destruct (Z_le_dec (id mod MI_REGION_MAP_BITS
                      + mi_region_block_count (_mi_align_up size (os_page_size w)))
                     MI_REGION_MAP_BITS) as [H4|H4]; [|right; tauto].
  destruct (regions w !! Z.to_nat (id / MI_REGION_MAP_BITS)) as [r|] eqn:Hl.
  - destruct (Z.eq_dec p (wrap (start r + wrap (id mod MI_REGION_MAP_BITS * MI_SEGMENT_SIZE))))
      as [H3|H3].
    + left. repeat split; try assumption. now exists r.
    + right. intros (_ & _ & (r' & [= <-] & E) & _). contradiction.
  - right. intros (_ & _ & (r' & [=] & _) & _).
Qed.

(** A free runs to its end in a good world, and leaves a good world. *)
Lemma _mi_mem_free_total p size id w :
  good w -> 0 <= size -> 0 <= id ->
  exists w',
    _mi_mem_free p size id w = Some (tt, w') /\ good w' /\ evolves w w'
    /\ (w' = w
        \/ (id = SIZE_MAX /\ trace w' = trace w ++ [EvOsFree p size])
        \/ (id <> SIZE_MAX /\ exists ok v,
              trace w' = trace w ++ [release_event w p (_mi_align_up size (os_page_size w)) ok;
                                     EvMapWritten (id / MI_REGION_MAP_BITS) v])).
Proof.
  intros Hg Hs Hid.
  destruct (Z.eq_dec p NULL) as [->|Hp].
  { exists w. split; [reflexivity|]. split; [exact Hg|]. split; [apply evolves_refl | now left]. }
  destruct (Z.eq_dec size 0) as [->|Hs0].
  { exists w. split; [unfold _mi_mem_free; destruct (p =? NULL); reflexivity|].
    split; [exact Hg|]. split; [apply evolves_refl | now left]. }
  destruct (Z.eq_dec id SIZE_MAX) as [->|Hmax].
  { eexists. split; [now apply free_direct|]. split; [now apply good_set_trace|].
    split; [constructor; reflexivity|]. right. left. split; reflexivity. }
  destruct (free_checks_dec p size id w) as [Hchk|Hchk].
  - destruct Hchk as (Hsz & Hidx & (r & Hl & Ep) & Hfit).
    destruct (free_released p size id r w Hg Hp ltac:(lia) Hid Hmax Hidx Hl Ep Hfit)
      as ([] & w' & E & Hg' & Hev' & _ & Htr & _).
    exists w'. split; [exact E|]. split; [exact Hg'|]. split; [exact Hev'|].
    right. right. split; [exact Hmax | exact Htr].
  - exists w. split; [now apply free_ignored|]. split; [exact Hg|].
    split; [apply evolves_refl | now left].
Qed.

(** C6.  A free with a region id makes no call into the OS and writes no
    [map], or it releases the range (a reset under eager commit, else a
    decommit) and then clears the bits in the [map] of the region, in this
    order and nothing else. *)
Theorem release_before_unclaim (w : world) (p size id : Z) :
  good w -> 0 <= size -> 0 <= id -> id <> SIZE_MAX ->
  exists w',
    _mi_mem_free p size id w = Some (tt, w')
    /\ (trace w' = trace w
        \/ exists ok v,
             trace w' = trace w ++ [release_event w p (_mi_align_up size (os_page_size w)) ok;
                                    EvMapWritten (id / MI_REGION_MAP_BITS) v]).
Proof.
  intros Hg Hs Hid Hmax.
  destruct (_mi_mem_free_total p size id w Hg Hs Hid) as (w' & E & _ & _ & Hcases).
  exists w'. split; [exact E|].
  destruct Hcases as [->|[[Hx _]|[_ Htr]]]; [now left | contradiction | now right].
Qed.

Lemma good_fragmented_world : good fragmented_world.
Proof.
  apply mk_good; unfold fragmented_world;
    cbn [regions regions_count region_next_idx os_page_size os_alloc_answers start_races
         map_races].
  - rewrite length_insert. apply length_replicate.
  - vm_compute. intuition discriminate.
  - vm_compute. intuition discriminate.
  - apply Forall_insert.
    + apply Forall_replicate. split; [vm_compute; intuition discriminate | apply region_ptr_NULL].
    + split; vm_compute; intuition discriminate.
  - vm_compute. intuition discriminate.
  - constructor.
Qed.

Lemma release_before_unclaim_witness :
  exists w',
    _mi_mem_free (2 ^ 30) MI_SEGMENT_SIZE 0 fragmented_world = Some (tt, w')
    /\ (trace w' = trace fragmented_world
        \/ exists ok v,
             trace w' = trace fragmented_world
                        ++ [release_event fragmented_world (2 ^ 30)
                              (_mi_align_up MI_SEGMENT_SIZE (os_page_size fragmented_world)) ok;
                            EvMapWritten (0 / MI_REGION_MAP_BITS) v]).
Proof.
  apply (release_before_unclaim fragmented_world (2 ^ 30) MI_SEGMENT_SIZE 0).
  - exact good_fragmented_world.
  - vm_compute. discriminate.
  - lia.
  - vm_compute. discriminate.
Defined.

(** C5 (as amended).  On free with a region id the layer checks that the
    size is at most [MI_REGION_MAX_ALLOC_SIZE], that [idx = id / W] is below
    [MI_REGION_MAX], that the pointer is [start + bitidx * MI_SEGMENT_SIZE],
    and that [bitidx + blocks <= W]; when one of these fails it returns with
    the world as it was: no bit unclaimed, no call into the OS. *)
Theorem free_validation (w : world) (p size id : Z) :
  good w -> 0 <= size -> 0 <= id -> id <> SIZE_MAX ->
  (let idx := id / MI_REGION_MAP_BITS in
   let bitidx := id mod MI_REGION_MAP_BITS in
   let blocks := mi_region_block_count (_mi_align_up size (os_page_size w)) in
   size > MI_REGION_MAX_ALLOC_SIZE
   \/ idx >= MI_REGION_MAX
   \/ (forall r, regions w !! Z.to_nat idx = Some r ->
                 p <> wrap (start r + wrap (bitidx * MI_SEGMENT_SIZE)))
   \/ bitidx + blocks > MI_REGION_MAP_BITS) ->
  _mi_mem_free p size id w = Some (tt, w).
Proof.
  intros Hg Hs Hid Hmax Hfail. apply free_ignored; try assumption.
  intros (H1 & H2 & (r & Hl & Ep) & H4). cbv zeta in Hfail.
  destruct Hfail as [H|[H|[H|H]]]; try lia. exact (H r Hl Ep).
Qed.

Lemma free_validation_witness :
  _mi_mem_free 12345 MI_SEGMENT_SIZE 0 fragmented_world = Some (tt, fragmented_world).
Proof.
  apply (free_validation fragmented_world 12345 MI_SEGMENT_SIZE 0).
  - exact good_fragmented_world.
  - vm_compute. discriminate.
  - lia.
  - vm_compute. discriminate.
  - right. right. left. intros r Hr. vm_compute in Hr. injection Hr as <-. vm_compute. discriminate.
Defined.

(** C5 (as stated) fails: that the [map] has all the bits of the mask set is
    an assertion only.  In [fragmented_world] the free of two blocks at bit
    index 0 passes the checks although block 1 is not claimed
    ([map & mask = 1]): the range is decommitted and bit 0 is cleared. *)
Lemma free_of_unclaimed_blocks :
  mi_region_block_mask 2 0 = Some 3
  /\ (exists r, regions fragmented_world !! 0%nat = Some r
                /\ Z.land (map r) 3 <> 3 /\ start r = 2 ^ 30)
  /\ exists w',
       _mi_mem_free (2 ^ 30) (2 * MI_SEGMENT_SIZE) 0 fragmented_world = Some (tt, w')
       /\ trace w' = [EvOsDecommit (2 ^ 30) (2 * MI_SEGMENT_SIZE) true; EvMapWritten 0 65792]
       /\ regions w' !! 0%nat = Some (mk_region 65792 (2 ^ 30)).
Proof.
  split; [reflexivity|]. split.
  - eexists. split; [reflexivity|]. split; [vm_compute; discriminate | reflexivity].
  - eexists. split; [vm_compute; reflexivity|]. split; reflexivity.
Qed.

(** Nor is [start != NULL] checked: on the table as it is at the start, the
    free of the block at 4 MiB with id 1 passes the checks (the pointer is
    [NULL + 1 * MI_SEGMENT_SIZE]) and the range is decommitted. *)
Lemma free_in_unreserved_region :
  exists w',
    _mi_mem_free MI_SEGMENT_SIZE MI_SEGMENT_SIZE 1 (world_init 4096 4096 false [] [] [] [])
    = Some (tt, w')
    /\ trace w' = [EvOsDecommit MI_SEGMENT_SIZE MI_SEGMENT_SIZE true; EvMapWritten 0 0].
Proof. eexists. split; [vm_compute; reflexivity | reflexivity]. Qed.

(** * The table over the calls of a thread *)

(** An allocation runs to its end in a good world, and leaves a good
    world. *)
Lemma _mi_mem_alloc_aligned_total size alignment commit w :
  good w -> 0 < size ->
  exists res w',
    _mi_mem_alloc_aligned size alignment commit w = Some (res, w') /\ good w' /\ evolves w w'.
Proof.
  intros Hg Hs.
  destruct (Z_le_dec size MI_REGION_MAX_ALLOC_SIZE) as [Hsz|Hsz];
    [destruct (Z_le_dec alignment MI_SEGMENT_ALIGN) as [Ha|Ha]|].
  - destruct (_mi_mem_alloc_aligned_spec size alignment commit w Hg ltac:(lia) Ha)
      as (res & w' & E & Hg' & Hev' & _).
    exists res, w'. auto.
  - destruct (alloc_direct size alignment commit w) as (sz & p & w' & E & _ & _ & _ & Hgood);
      [lia|].
    destruct (Hgood Hg). eauto.
  - destruct (alloc_direct size alignment commit w) as (sz & p & w' & E & _ & _ & _ & Hgood);
      [lia|].
    destruct (Hgood Hg). eauto.
Qed.

Lemma run_call_good c w :
  good w -> call_ok c ->
  exists w', run_call c w = Some (tt, w') /\ good w' /\ evolves w w'.
Proof.
  intros Hg Hok. destruct c as [size alignment commit|p size id]; simpl in Hok.
  - destruct (_mi_mem_alloc_aligned_total size alignment commit w Hg ltac:(lia))
      as (res & w' & E & Hg' & Hev').
    exists w'. split; [|auto]. unfold run_call, bind. now rewrite E.
  - unfold word in Hok.
    destruct (_mi_mem_free_total p size id w Hg ltac:(lia) ltac:(lia)) as (w' & E & Hg' & Hev' & _).
    exists w'. auto.
Qed.

Lemma run_calls_good cs : forall w,
  good w -> Forall call_ok cs ->
  exists w', run_calls cs w = Some (tt, w') /\ good w' /\ evolves w w'.
Proof.
  induction cs as [|c cs IH]; intros w Hg Hok.
  - exists w. split; [reflexivity|]. split; [exact Hg | apply evolves_refl].
  - inversion Hok as [|? ? Hc Hcs]; subst.
    destruct (run_call_good c w Hg Hc) as (w1 & E1 & Hg1 & Hev1).
    destruct (IH w1 Hg1 Hcs) as (w2 & E2 & Hg2 & Hev2).
    exists w2. split; [|split; [exact Hg2 | eapply evolves_trans; eassumption]].
    cbn [run_calls]. unfold bind. now rewrite E1.
Qed.

(** C4 (as amended).  From a good world (the initial one is, whatever the
    addresses the OS has at hand), after any calls to allocate and free,
    every [start] that is set is aligned to [MI_SEGMENT_ALIGN], and
    [regions_count] is at most [MI_REGION_MAX].  The alignment is that of
    the request: a [start] is what [_mi_os_alloc_aligned] returned for the
    reservation of a region, which asks for [MI_REGION_SIZE] bytes at
    [MI_SEGMENT_ALIGN], and the OS returns memory at the alignment it is
    asked for. *)
Theorem region_table_invariant (w : world) (cs : list call) :
  good w -> Forall call_ok cs ->
  exists w',
    run_calls cs w = Some (tt, w')
    /\ regions_count w' <= MI_REGION_MAX
    /\ forall r, r ∈ regions w' -> start r <> NULL -> start r mod MI_SEGMENT_ALIGN = 0.
Proof.
  intros Hg Hok. destruct (run_calls_good cs w Hg Hok) as (w' & E & Hg' & _).
  exists w'. split; [exact E|]. split; [apply (good_count_max w' Hg')|].
  intros r Hr _.
  pose proof (proj1 (Forall_forall _ _) (good_regions w' Hg') r Hr) as [_ (_ & _ & Ha)].
  exact Ha.
Qed.

Lemma region_table_invariant_witness :
  exists w',
    run_calls [Alloc MI_SEGMENT_SIZE 0 true; Free MI_SEGMENT_SIZE MI_SEGMENT_SIZE 0;
               Alloc (2 * MI_SEGMENT_SIZE) 0 false]
      (world_init 4096 4096 false [MI_SEGMENT_SIZE] [] [] []) = Some (tt, w')
    /\ regions_count w' <= MI_REGION_MAX
    /\ forall r, r ∈ regions w' -> start r <> NULL -> start r mod MI_SEGMENT_ALIGN = 0.
Proof.
  apply (region_table_invariant (world_init 4096 4096 false [MI_SEGMENT_SIZE] [] [] [])).
  - apply good_world_init; [vm_compute; intuition discriminate | constructor].
  - repeat constructor; vm_compute; intuition discriminate.
Defined.

(** C4 (as stated) fails: the reservation of a region asks the OS for
    memory aligned at [MI_SEGMENT_ALIGN], not at [MI_REGION_SIZE].  With an
    OS that gives the address 4 MiB, which is aligned as asked, the first
    allocation sets [regions[0].start] to it, and it is not on a
    [MI_REGION_SIZE] boundary. *)
Lemma start_not_region_aligned :
  region_ptr MI_SEGMENT_SIZE
  /\ os_granted MI_REGION_SIZE MI_SEGMENT_ALIGN MI_SEGMENT_SIZE = true
  /\ exists w' r,
       run_calls [Alloc MI_SEGMENT_SIZE 0 true]
         (world_init 4096 4096 false [MI_SEGMENT_SIZE] [] [] []) = Some (tt, w')
       /\ regions w' !! 0%nat = Some r
       /\ start r <> NULL
       /\ start r mod MI_REGION_SIZE <> 0.
Proof.
  split; [vm_compute; intuition discriminate|]. split; [reflexivity|].
  eexists. exists (mk_region 1 MI_SEGMENT_SIZE).
  split; [vm_compute; reflexivity|]. split; [reflexivity|].
  split; vm_compute; discriminate.
Qed.

(** * The claim search *)

(** Without interference the claim is the first fit: the search claims the
    run at the lowest bit index where the blocks fit in the [map] it read,
    and when there is none it leaves the world as it was. *)
Lemma claim_first_fit idx blocks r w :
  good w -> map_races w = [] -> 0 <= idx < MI_REGION_MAX -> 1 <= blocks < 64 ->
  regions w !! Z.to_nat idx = Some r ->
  runs (claim 1 idx blocks (mask_at blocks 0) (64 - blocks) 0) w (fun found w' =>
    match found with
    | None => w' = w /\ forall j, ~ fits (map r) blocks j
    | Some i =>
        fits (map r) blocks i /\ (forall j, fits (map r) blocks j -> i <= j) /\
        regions w' = <[Z.to_nat idx := mk_region (Z.lor (map r) (mask_at blocks i)) (start r)]>
                       (regions w)
    end).
Proof.
  intros Hg Hquiet Hi Hb Hl.
  eapply runs_mono; [apply (claim_spec 1 idx blocks 0 w Hg Hi Hb); [lia | rewrite Hquiet; simpl; lia]|].
  intros [i|] w' (_ & _ & _ & _ & _ & Hfound); cbn beta iota.
  - destruct Hfound as (Hi0 & Hfit & Hq). destruct (Hq Hquiet eq_refl r Hl) as (Hz & Hlow & _ & Hr).
    split; [|split; [exact Hlow | exact Hr]].
    unfold fits. rewrite MI_REGION_MAP_BITS_eq. split; [lia|]. split; [lia|].
    exists (mask_at blocks i). split; [apply mask_at_Some; lia | exact Hz].
  - destruct (Hfound Hquiet eq_refl) as [-> Hno]. split; [reflexivity|]. exact (Hno r Hl).
Qed.

Lemma good_racing_world : good racing_world.
Proof.
  apply mk_good; unfold racing_world;
    cbn [regions regions_count region_next_idx os_page_size os_alloc_answers start_races
         map_races].
  - rewrite length_insert. apply length_replicate.
  - vm_compute. intuition discriminate.
  - vm_compute. intuition discriminate.
  - apply Forall_insert.
    + apply Forall_replicate. split; [vm_compute; intuition discriminate | apply region_ptr_NULL].
    + split; vm_compute; intuition discriminate.
  - vm_compute. intuition discriminate.
  - repeat constructor; vm_compute; intuition discriminate.
Qed.

(** C1 fails on a retry.  [bitidx] is not reset when the compare-and-swap
    fails, while the word is searched from its bit 0 again.  In
    [racing_world] the first round reads [map = 3] and finds bit index 2;
    the compare-and-swap fails, for the other threads left [map = 4]; the
    second round reads [map = 4] and, with [bitidx] still 2, takes its bit 0
    for bit 2: it claims the run at bit index 2, which is not free in the
    [map] it read, while the lowest free run is at bit index 0.  The block
    is handed out a second time. *)
Theorem claim_after_retry_is_not_first_fit :
  good racing_world /\
  exists w',
    mi_region_alloc_blocks 0 1 MI_SEGMENT_SIZE true NULL SIZE_MAX racing_world
    = Some ((true, 2 ^ 30 + 2 * MI_SEGMENT_SIZE, 2), w')
    /\ _mi_mem_alloc_aligned MI_SEGMENT_SIZE 0 true racing_world
       = Some ((2 ^ 30 + 2 * MI_SEGMENT_SIZE, 2), w')
    /\ trace w' = [EvMapWritten 0 4; EvOsCommit (2 ^ 30 + 2 * MI_SEGMENT_SIZE) MI_SEGMENT_SIZE true]
    /\ regions w' !! 0%nat = Some (mk_region 4 (2 ^ 30))
    /\ mi_region_block_mask 1 2 = Some 4
    /\ Z.land 4 4 <> 0
    /\ fits 4 1 0.
Proof.
  split; [exact good_racing_world|].
  eexists. split; [vm_compute; reflexivity|]. split; [vm_compute; reflexivity|].
  split; [reflexivity|]. split; [reflexivity|].
  split; [reflexivity|]. split; [vm_compute; discriminate|].
  unfold fits. split; [lia|]. split; [vm_compute; discriminate|].
  exists 1. split; reflexivity.
Qed.

(** C2 fails after a retry of the claim.  In [racing_world] the [map] of
    region 0 is 3 when [_mi_mem_alloc_aligned] is called and 4 when its
    compare-and-swap goes through, the other threads having freed the blocks
    0 and 1 and claimed block 2.  With its stale [bitidx] the allocation
    writes 4 over 4 and returns block 2, which another thread holds; the
    free of that pointer with the same size and the id returned then clears
    bit 2: the [map] is left at 0, which is neither the word of before the
    allocation nor the word the claim replaced, and the block of the other
    thread is marked free. *)
Theorem round_trip_after_retry_frees_a_foreign_block :
  good racing_world /\
  exists w1 w2,
    regions racing_world !! 0%nat = Some (mk_region 3 (2 ^ 30))
    /\ _mi_mem_alloc_aligned MI_SEGMENT_SIZE 0 true racing_world
       = Some ((2 ^ 30 + 2 * MI_SEGMENT_SIZE, 2), w1)
    /\ trace w1 = [EvMapWritten 0 4; EvOsCommit (2 ^ 30 + 2 * MI_SEGMENT_SIZE) MI_SEGMENT_SIZE true]
    /\ regions w1 !! 0%nat = Some (mk_region 4 (2 ^ 30))
    /\ _mi_mem_free (2 ^ 30 + 2 * MI_SEGMENT_SIZE) MI_SEGMENT_SIZE 2 w1 = Some (tt, w2)
    /\ trace w2 = trace w1 ++ [EvOsDecommit (2 ^ 30 + 2 * MI_SEGMENT_SIZE) MI_SEGMENT_SIZE true;
                               EvMapWritten 0 0]
    /\ regions w2 !! 0%nat = Some (mk_region 0 (2 ^ 30)).
Proof.
  split; [exact good_racing_world|].
  eexists. eexists. split; [reflexivity|].
  split; [vm_compute; reflexivity|]. split; [reflexivity|]. split; [reflexivity|].
  split; [vm_compute; reflexivity|]. split; reflexivity.
Qed.

Lemma good_denied_world : good denied_world.
Proof.
  apply mk_good; unfold denied_world;
    cbn [regions regions_count region_next_idx os_page_size os_alloc_answers start_races
         map_races].
  - rewrite length_insert. apply length_replicate.
  - vm_compute. intuition discriminate.
  - vm_compute. intuition discriminate.
  - apply Forall_insert.
    + apply Forall_replicate. split; [vm_compute; intuition discriminate | apply region_ptr_NULL].
    + split; vm_compute; intuition discriminate.
  - vm_compute. intuition discriminate.
  - repeat constructor; vm_compute; intuition discriminate.
Qed.

(** C3 fails after a retry of the claim.  In [denied_world] region 0 has no
    reservation and its [map] is 3 when [_mi_mem_alloc_aligned] is called
    and 4 when its compare-and-swap goes through.  With its stale [bitidx]
    the allocation writes 4 over 4, claiming block 2, which another thread
    holds; the OS denies the reservation, and the roll-back clears bit 2.
    The allocation returns a null pointer with [*id = SIZE_MAX], but the
    [map] is left at 0, which is neither the word of before the call nor
    the word the claim replaced: the roll-back has freed the block of the
    other thread. *)
Theorem denied_reservation_after_retry_frees_a_foreign_block :
  good denied_world /\
  exists w',
    regions denied_world !! 0%nat = Some (mk_region 3 NULL)
    /\ _mi_mem_alloc_aligned MI_SEGMENT_SIZE 0 true denied_world = Some ((NULL, SIZE_MAX), w')
    /\ trace w' = [EvMapWritten 0 4;
                   EvOsAllocAligned MI_REGION_SIZE MI_SEGMENT_ALIGN false NULL;
                   EvMapWritten 0 0]
    /\ denied denied_world w'
    /\ regions w' !! 0%nat = Some (mk_region 0 NULL).
Proof.
  split; [exact good_denied_world|].
  eexists. split; [reflexivity|]. split; [vm_compute; reflexivity|].
  split; [reflexivity|]. split; [|reflexivity].
  eexists. split; [reflexivity|]. apply Exists_cons_tl, Exists_cons_hd. now exists false.
Qed.

(** ** What every computation keeps *)

Lemma bind_inv {A B} (c : M A) (k : A -> M B) w b w' :
  bind c k w = Some (b, w') -> exists a w1, c w = Some (a, w1) /\ k a w1 = Some (b, w').
Proof.
  unfold bind. destruct (c w) as [[a w1]|]; [|discriminate]. intros H. now exists a, w1.
Qed.

Lemma region_at_inv idx w r w' :
  region_at idx w = Some (r, w') ->
  w' = w /\ 0 <= idx /\ regions w !! Z.to_nat idx = Some r.
Proof.
  unfold region_at. destruct (Z.ltb_spec idx 0); [discriminate|].
  destruct (regions w !! Z.to_nat idx); [|discriminate]. intros [= -> <-]. auto.
Qed.

Lemma mi_atomic_read_map_inv idx w m w' :
  mi_atomic_read_map idx w = Some (m, w') ->
  w' = w /\ 0 <= idx /\ exists r, regions w !! Z.to_nat idx = Some r /\ map r = m.
Proof.
  intros H. apply bind_inv in H as (r & w1 & E1 & E2).
  apply region_at_inv in E1 as (-> & Hi & Hl). injection E2 as <- <-. eauto.
Qed.

Lemma mi_atomic_read_start_inv idx w s w' :
  mi_atomic_read_start idx w = Some (s, w') ->
  w' = w /\ 0 <= idx /\ exists r, regions w !! Z.to_nat idx = Some r /\ start r = s.
Proof.
  intros H. apply bind_inv in H as (r & w1 & E1 & E2).
  apply region_at_inv in E1 as (-> & Hi & Hl). injection E2 as <- <-. eauto.
Qed.

Lemma store_map_inv idx v w a w' :
  store_map idx v w = Some (a, w') ->
  exists r, regions w !! Z.to_nat idx = Some r /\
    w' = set_regions (<[Z.to_nat idx := mk_region v (start r)]> (regions w)) w.
Proof.
  intros H. apply bind_inv in H as (r & w1 & E1 & E2).
  apply region_at_inv in E1 as (-> & Hi & Hl). injection E2 as _ <-. eauto.
Qed.

Lemma store_start_inv idx v w a w' :
  store_start idx v w = Some (a, w') ->
  exists r, regions w !! Z.to_nat idx = Some r /\
    w' = set_regions (<[Z.to_nat idx := mk_region (map r) v]> (regions w)) w.
Proof.
  intros H. apply bind_inv in H as (r & w1 & E1 & E2).
  apply region_at_inv in E1 as (-> & Hi & Hl). injection E2 as _ <-. eauto.
Qed.

Section Keeps.

Variable R : world -> world -> Prop.
Hypothesis R_refl : forall w, R w w.
Hypothesis R_trans : forall w1 w2 w3, R w1 w2 -> R w2 w3 -> R w1 w3.

Lemma keeps_ret {A} (a : A) : keeps R (ret a).
Proof. intros w a' w' [= _ <-]. apply R_refl. Qed.

Lemma keeps_undefined {A} : keeps R (@undefined A).
Proof. intros w a w' [=]. Qed.

Lemma keeps_gets {A} (f : world -> A) : keeps R (gets f).
Proof. intros w a w' [= _ <-]. apply R_refl. Qed.

Lemma keeps_lift {A} (o : option A) : keeps R (lift o).
Proof. intros w a w'. unfold lift. destruct o; intros [= _ <-]. apply R_refl. Qed.

Lemma keeps_modify (f : world -> world) : (forall w, R w (f w)) -> keeps R (modify f).
Proof. intros Hf w a w' [= _ <-]. apply Hf. Qed.

Lemma keeps_bind {A B} (c : M A) (k : A -> M B) :
  keeps R c -> (forall a, keeps R (k a)) -> keeps R (bind c k).
Proof.
  intros Hc Hk w b w' H. apply bind_inv in H as (a & w1 & E1 & E2).
  eapply R_trans; [eapply Hc | eapply Hk]; eassumption.
Qed.

End Keeps.

(** ** The table, whatever the threads do *)

Lemma counted_add n2 : forall n1 c, counted n2 (counted n1 c) = counted (n1 + n2) c.
Proof.
  induction n2 as [|n2 IH]; intros n1 c.
  - now rewrite Nat.add_0_r.
  - rewrite Nat.add_succ_r. cbn [counted]. now rewrite IH.
Qed.

Lemma counted_small n : forall c, 0 <= c -> c + Z.of_nat n < 2 ^ 64 -> counted n c = c + Z.of_nat n.
Proof.
  induction n as [|n IH]; intros c Hc Hmax; cbn [counted].
  - simpl. lia.
  - rewrite IH by lia. rewrite wrap_small by lia. lia.
Qed.

Lemma table_kept_refl w : table_kept w w.
Proof.
  split; [reflexivity|]. split.
  - intros i r Hl _. now exists r.
  - exists O. simpl. split; [reflexivity | lia].
Qed.

Lemma table_kept_trans w1 w2 w3 : table_kept w1 w2 -> table_kept w2 w3 -> table_kept w1 w3.
Proof.
  intros (L1 & H1 & n1 & C1 & R1) (L2 & H2 & n2 & C2 & R2). split; [congruence|]. split.
  - intros i r Hl Hs.
    destruct (H1 i r Hl Hs) as (r1 & Hl1 & E1).
    destruct (H2 i r1 Hl1 ltac:(congruence)) as (r2 & Hl2 & E2).
    exists r2. split; [exact Hl2 | congruence].
  - exists (n1 + n2)%nat. split.
    + rewrite C2, C1. apply counted_add.
    + lia.
Qed.

Lemma table_kept_same w w' :
  regions w' = regions w -> regions_count w' = regions_count w -> table_kept w w'.
Proof.
  intros E Ec. unfold table_kept. rewrite E, Ec. apply table_kept_refl.
Qed.

(** One descriptor is written: its [start] stays, or it gets its
    reservation and is counted. *)
Lemma table_kept_insert (i : nat) r r' w w' :
  regions w !! i = Some r -> regions w' = <[i := r']> (regions w) ->
  (start r' = start r /\ regions_count w' = regions_count w)
  \/ (start r = NULL /\ start r' <> NULL /\ regions_count w' = wrap (regions_count w + 1)) ->
  table_kept w w'.
Proof.
  intros Hl E Hcases. split; [rewrite E; apply length_insert|]. split.
  - intros j rj Hj Hne. rewrite E.
    destruct (Nat.eq_dec i j) as [<-|Hij].
    + exists r'. split; [now apply (lookup_insert_region _ _ r)|].
      assert (rj = r) by congruence. subst rj.
      destruct Hcases as [[Hs _]|[Hs _]]; [exact Hs | contradiction].
    + exists rj. split; [|reflexivity]. now rewrite list_lookup_insert_ne.
  - rewrite E, (reserved_insert _ _ _ r' Hl).
    destruct Hcases as [[Hs Hc]|(Hs & Hs' & Hc)].
    + exists O. rewrite Hs. simpl. split; [exact Hc | lia].
    + exists 1%nat. rewrite Hs. change (NULL =? NULL) with true.
      destruct (Z.eqb_spec (start r') NULL); [contradiction|].
      cbn [counted]. split; [exact Hc | lia].
Qed.

Create HintDb kept.

Lemma kept_log e : keeps table_kept (log e).
Proof. apply keeps_modify. intros w. now apply table_kept_same. Qed.

Lemma kept_region_at idx : keeps table_kept (region_at idx).
Proof. intros w r w' H. apply region_at_inv in H as (-> & _). apply table_kept_refl. Qed.

Lemma kept_next_alloc_answer : keeps table_kept next_alloc_answer.
Proof.
  intros w a w'. unfold next_alloc_answer.
  destruct (os_alloc_answers w); intros [= _ <-]; now apply table_kept_same.
Qed.

Lemma kept_next_bool_answer : keeps table_kept next_bool_answer.
Proof.
  intros w a w'. unfold next_bool_answer.
  destruct (os_bool_answers w); intros [= _ <-]; now apply table_kept_same.
Qed.

Lemma kept_store_map idx v : keeps table_kept (store_map idx v).
Proof.
  intros w a w' H. apply store_map_inv in H as (r & Hl & ->).
  apply (table_kept_insert (Z.to_nat idx) r (mk_region v (start r))); [exact Hl | reflexivity |].
  left. split; reflexivity.
Qed.

Lemma kept_write_next idx : keeps table_kept (mi_atomic_write_region_next_idx idx).
Proof. apply keeps_modify. intros w. now apply table_kept_same. Qed.

#[local] Hint Resolve kept_log kept_region_at kept_next_alloc_answer kept_next_bool_answer
  kept_store_map kept_write_next : kept.

(** The structure of a computation, taken apart down to the operations the
    hints know. *)
Ltac kept :=
  repeat first
    [ solve [auto with kept]
    | apply (keeps_ret table_kept table_kept_refl)
    | apply (keeps_gets table_kept table_kept_refl)
    | apply (keeps_lift table_kept table_kept_refl)
    | apply keeps_undefined
    | apply (keeps_bind table_kept table_kept_trans); [|intros ?]
    | match goal with
      | |- keeps _ (if ?b then _ else _) => destruct b
      | |- keeps _ (match ?x with _ => _ end) => destruct x
      end ].

Lemma kept_read_map idx : keeps table_kept (mi_atomic_read_map idx).
Proof. unfold mi_atomic_read_map. kept. Qed.

Lemma kept_read_start idx : keeps table_kept (mi_atomic_read_start idx).
Proof. unfold mi_atomic_read_start. kept. Qed.

Lemma kept_map_race idx : keeps table_kept (map_race idx).
Proof.
  intros w a w'. unfold map_race. destruct (map_races w) as [|[|v] rest].
  - intros [= _ <-]. apply table_kept_refl.
  - intros [= _ <-]. now apply table_kept_same.
  - intros H. apply kept_store_map in H. exact H.
Qed.

(** The publication of a reservation [q] in a descriptor that has none, and
    its count. *)
Lemma kept_publication idx q w a w1 b w2 :
  q <> NULL -> mi_atomic_read_start idx w = Some (NULL, w) ->
  store_start idx q w = Some (a, w1) ->
  regions w2 = regions w1 -> regions_count w2 = wrap (regions_count w1 + 1) ->
  b = tt -> table_kept w w2.
Proof.
  intros Hq Hread Hstore Er Ec _.
  apply mi_atomic_read_start_inv in Hread as (_ & _ & r & Hl & Hs).
  apply store_start_inv in Hstore as (r' & Hl' & ->).
  assert (r' = r) by congruence. subst r'. cbn [regions regions_count set_regions] in *.
  apply (table_kept_insert (Z.to_nat idx) r (mk_region (map r) q)); [exact Hl | exact Er |].
  right. split; [exact Hs|]. split; [exact Hq | exact Ec].
Qed.

Lemma kept_start_race idx : keeps table_kept (start_race idx).
Proof.
  intros w a w'. unfold start_race. destruct (start_races w) as [|[|q] rest].
  - intros [= _ <-]. apply table_kept_refl.
  - intros [= _ <-]. now apply table_kept_same.
  - intros H. apply bind_inv in H as (cur & w1 & E1 & E2).
    pose proof (mi_atomic_read_start_inv _ _ _ _ E1) as (-> & _).
    eapply table_kept_trans; [apply (table_kept_same w (set_start_races rest w)); reflexivity|].
    destruct (Z.eqb_spec cur NULL) as [Ecur|Ncur]; cbn [andb] in E2.
    + rewrite Ecur in E1.
      destruct (os_granted MI_REGION_SIZE MI_SEGMENT_ALIGN q) eqn:Egranted.
      * apply bind_inv in E2 as ([] & w2 & E2 & E3). injection E3 as _ <-.
        destruct (os_granted_region q Egranted) as [_ Nq].
        now apply (kept_publication idx q _ tt w2 tt).
      * injection E2 as _ <-. apply table_kept_refl.
    + injection E2 as _ <-. apply table_kept_refl.
Qed.

#[local] Hint Resolve kept_read_map kept_read_start kept_map_race kept_start_race : kept.

Lemma kept_cas_map idx newmap expected :
  keeps table_kept (mi_atomic_compare_exchange_map idx newmap expected).
Proof. unfold mi_atomic_compare_exchange_map. kept. Qed.

#[local] Hint Resolve kept_cas_map : kept.

Lemma kept_unclaim fuel : forall idx mask, keeps table_kept (unclaim fuel idx mask).
Proof. induction fuel as [|fuel IH]; intros idx mask; cbn [unclaim]; kept. Qed.

Lemma kept_os_alloc size alignment commit :
  keeps table_kept (_mi_os_alloc_aligned size alignment commit).
Proof. unfold _mi_os_alloc_aligned. kept. Qed.

Lemma kept_os_free p size : keeps table_kept (_mi_os_free p size).
Proof. unfold _mi_os_free. kept. Qed.

Lemma kept_os_commit p size : keeps table_kept (_mi_os_commit p size).
Proof. unfold _mi_os_commit. kept. Qed.

Lemma kept_os_decommit p size : keeps table_kept (_mi_os_decommit p size).
Proof. unfold _mi_os_decommit. kept. Qed.

Lemma kept_os_reset p size : keeps table_kept (_mi_os_reset p size).
Proof. unfold _mi_os_reset. kept. Qed.

Lemma kept_good_commit_size size : keeps table_kept (mi_good_commit_size size).
Proof. unfold mi_good_commit_size, _mi_os_large_page_size. kept. Qed.

#[local] Hint Resolve kept_unclaim kept_os_alloc kept_os_free kept_os_commit kept_os_decommit
  kept_os_reset kept_good_commit_size : kept.

(** The compare-and-swap a region is published with, and what follows it:
    the winner counts the region, the loser frees its own and goes on with
    the winner's. *)
Lemma kept_publish idx q :
  q <> NULL ->
  keeps table_kept
    (won <- mi_atomic_compare_exchange_start idx q NULL ;;
     if won then mi_atomic_increment_regions_count ;; ret (true, q)
     else _mi_os_free q MI_REGION_SIZE ;;
          s <- mi_atomic_read_start idx ;; ret (true, s)).
Proof.
  intros Hq w res w' H. apply bind_inv in H as (won & w1 & E1 & E2).
  unfold mi_atomic_compare_exchange_start in E1.
  apply bind_inv in E1 as ([] & w0 & E0 & E1). apply kept_start_race in E0.
  eapply table_kept_trans; [exact E0|].
  apply bind_inv in E1 as (cur & w2 & E1 & E3).
  pose proof (mi_atomic_read_start_inv _ _ _ _ E1) as (-> & _).
  destruct (Z.eqb_spec cur NULL) as [Ecur|Ncur].
  - rewrite Ecur in E1. apply bind_inv in E3 as ([] & w3 & E3 & E4).
    apply bind_inv in E4 as ([] & w4 & E4 & E5). injection E4 as <-. injection E5 as <- <-.
    apply bind_inv in E2 as ([] & w5 & E5 & E6). injection E5 as <-. injection E6 as _ <-.
    now apply (kept_publication idx q w0 tt w3 tt).
  - injection E3 as <- <-.
    assert (K : keeps table_kept
                  (_mi_os_free q MI_REGION_SIZE ;;
                   s <- mi_atomic_read_start idx ;; ret (true, s))) by kept.
    exact (K _ _ _ E2).
Qed.

Lemma kept_ensure_reserved idx mask start :
  keeps table_kept (ensure_reserved idx mask start).
Proof.
  unfold ensure_reserved. destruct (start =? NULL); [|kept].
  apply (keeps_bind table_kept table_kept_trans); [kept|intros eager].
  apply (keeps_bind table_kept table_kept_trans); [kept|intros q].
  destruct (Z.eqb_spec q NULL) as [|Nq]; [unfold cas_budget; kept|].
  now apply kept_publish.
Qed.

#[local] Hint Resolve kept_ensure_reserved : kept.

Lemma kept_commit_blocks idx bitidx blocks size commit p id :
  keeps table_kept (mi_region_commit_blocks idx bitidx blocks size commit p id).
Proof.
  unfold mi_region_commit_blocks, mi_option_is_enabled_eager_region_commit. kept.
Qed.

#[local] Hint Resolve kept_commit_blocks : kept.

Lemma kept_claim fuel : forall idx blocks mask bitidx_max bitidx,
  keeps table_kept (claim fuel idx blocks mask bitidx_max bitidx).
Proof.
  induction fuel as [|fuel IH]; intros idx blocks mask bitidx_max bitidx; cbn [claim]; kept.
Qed.

#[local] Hint Resolve kept_claim : kept.

Lemma kept_alloc_blocks idx blocks size commit p id :
  keeps table_kept (mi_region_alloc_blocks idx blocks size commit p id).
Proof. unfold mi_region_alloc_blocks, cas_budget. kept. Qed.

#[local] Hint Resolve kept_alloc_blocks : kept.

Lemma kept_try_alloc_blocks idx blocks size commit p id :
  keeps table_kept (mi_region_try_alloc_blocks idx blocks size commit p id).
Proof. unfold mi_region_try_alloc_blocks. kept. Qed.

#[local] Hint Resolve kept_try_alloc_blocks : kept.

Lemma kept_first_sweep remaining : forall idx count blocks size commit p id,
  keeps table_kept (first_sweep remaining idx count blocks size commit p id).
Proof.
  induction remaining as [|n IH]; intros idx count blocks size commit p id;
    cbn [first_sweep]; kept.
Qed.

Lemma kept_second_sweep remaining : forall idx blocks size commit p id,
  keeps table_kept (second_sweep remaining idx blocks size commit p id).
Proof.
  induction remaining as [|n IH]; intros idx blocks size commit p id;
    cbn [second_sweep]; kept.
Qed.

#[local] Hint Resolve kept_first_sweep kept_second_sweep : kept.

Lemma kept_alloc_aligned size alignment commit :
  keeps table_kept (_mi_mem_alloc_aligned size alignment commit).
Proof. unfold _mi_mem_alloc_aligned, _mi_os_page_size. kept. Qed.

Lemma kept_free p size id : keeps table_kept (_mi_mem_free p size id).
Proof.
  unfold _mi_mem_free, _mi_os_page_size, mi_option_is_enabled_eager_region_commit, cas_budget.
  kept.
Qed.

#[local] Hint Resolve kept_alloc_aligned kept_free : kept.

Lemma kept_run_call c : keeps table_kept (run_call c).
Proof. destruct c; cbn [run_call]; kept. Qed.

Lemma kept_run_calls cs : keeps table_kept (run_calls cs).
Proof.
  induction cs as [|c cs IH]; cbn [run_calls]; [kept|].
  apply (keeps_bind table_kept table_kept_trans); [apply kept_run_call | intros _; exact IH].
Qed.

(** ** What a probe tells *)

Lemma commits_app l1 l2 : commits (l1 ++ l2) = commits l1 ++ commits l2.
Proof. apply List.filter_app. Qed.

Lemma commits_none l : Forall no_commit l -> commits l = [].
Proof.
  induction 1 as [|e l He _ IH]; [reflexivity|].
  unfold commits in *. simpl. rewrite IH. destruct e; simpl in *; try reflexivity; contradiction.
Qed.

Lemma since_commits (P : event -> Prop) w w' :
  (forall e, P e -> no_commit e) -> since P w w' ->
  exists delta, trace w' = trace w ++ delta /\ commits delta = [].
Proof.
  intros HP (d & E & H). exists d. split; [exact E|]. apply commits_none.
  eapply Forall_impl; eassumption.
Qed.

Lemma reserving_no_commit e : reserving e -> no_commit e.
Proof. destruct e; simpl; auto. Qed.

(** A compare-and-swap that went through left its word in the map. *)
Lemma mi_atomic_compare_exchange_map_won idx newmap expected w w' :
  mi_atomic_compare_exchange_map idx newmap expected w = Some (true, w') ->
  exists r', regions w' !! Z.to_nat idx = Some r' /\ map r' = newmap.
Proof.
  intros H. unfold mi_atomic_compare_exchange_map in H.
  apply bind_inv in H as ([] & w1 & _ & H).
  apply bind_inv in H as (cur & w2 & E2 & H).
  apply mi_atomic_read_map_inv in E2 as (-> & _ & r & Hl & _).
  destruct (cur =? expected); [|discriminate].
  apply bind_inv in H as ([] & w3 & E3 & H).
  apply store_map_inv in E3 as (r3 & Hl3 & ->).
  apply bind_inv in H as ([] & w4 & E4 & H). injection E4 as <-. injection H as <-.
  exists (mk_region newmap (start r3)). split; [|reflexivity].
  cbn [regions set_regions set_trace]. now apply (lookup_insert_region _ _ r3).
Qed.

(** Whatever the other threads do, the blocks of a claim are marked in the
    map when the claim returns. *)
Lemma claim_sets_bits fuel : forall idx blocks mask bitidx_max bitidx w b w',
  claim fuel idx blocks mask bitidx_max bitidx w = Some (Some b, w') ->
  exists shifted r',
    shl mask b = Some shifted /\ regions w' !! Z.to_nat idx = Some r' /\
    Z.land (map r') shifted = shifted.
Proof.
  induction fuel as [|fuel IH]; intros idx blocks mask bitidx_max bitidx w b w' H; [discriminate|].
  cbn [claim] in H.
  apply bind_inv in H as (mp & w1 & _ & H).
  apply bind_inv in H as (b1 & w2 & E2 & H).
  destruct (b1 >? bitidx_max); [discriminate|].
  apply bind_inv in H as (shifted & w3 & E3 & H).
  unfold lift in E3. destruct (shl mask b1) as [sh|] eqn:Esh; [|discriminate].
  injection E3 as -> <-.
  apply bind_inv in H as (ok & w4 & E4 & H).
  destruct ok.
  - injection H as -> <-.
    apply mi_atomic_compare_exchange_map_won in E4 as (r' & Hl & Hm).
    exists shifted, r'. split; [exact Esh|]. split; [exact Hl|].
    rewrite Hm. apply land_lor_mask.
  - exact (IH _ _ _ _ _ _ _ _ H).
Qed.

(** The reservation of a region is asked of the OS only for a descriptor
    whose [start] is [NULL]. *)
Lemma ensure_reserved_denied idx mask s w s' w' :
  ensure_reserved idx mask s w = Some ((false, s'), w') -> s = NULL.
Proof.
  unfold ensure_reserved. destruct (Z.eqb_spec s NULL) as [|Hs]; [auto|]. discriminate.
Qed.

Lemma mi_good_commit_size_inv size w sz w' :
  mi_good_commit_size size w = Some (sz, w') ->
  w' = w /\ forall w2, os_large_page_size w2 = os_large_page_size w ->
                       mi_good_commit_size size w2 = Some (sz, w2).
Proof.
  unfold mi_good_commit_size, bind, _mi_os_large_page_size, gets.
  intros H. split.
  - destruct (size >? wrap (SIZE_MAX - os_large_page_size w)); now injection H.
  - intros w2 ->. destruct (size >? wrap (SIZE_MAX - os_large_page_size w)); injection H as <- _;
      reflexivity.
Qed.

Lemma _mi_os_commit_inv p size w ok w' :
  _mi_os_commit p size w = Some (ok, w') -> trace w' = trace w ++ [EvOsCommit p size ok].
Proof.
  unfold _mi_os_commit, next_bool_answer, bind, log, modify, ret.
  destruct (os_bool_answers w); intros [= <- <-]; reflexivity.
Qed.

Lemma ensure_reserved_reserved idx mask s w :
  s <> NULL -> ensure_reserved idx mask s w = Some ((true, s), w).
Proof. intros Hs. unfold ensure_reserved. now destruct (Z.eqb_spec s NULL). Qed.

Lemma no_os_alloc_commit p sz ok : no_os_alloc (EvOsCommit p sz ok).
Proof. exact I. Qed.

Lemma start_race_trace idx w a w' : start_race idx w = Some (a, w') -> trace w' = trace w.
Proof.
  unfold start_race. destruct (start_races w) as [|[|q] rest].
  - now intros [= _ <-].
  - now intros [= _ <-].
  - intros H. apply bind_inv in H as (cur & w1 & E1 & H).
    apply mi_atomic_read_start_inv in E1 as (-> & _).
    destruct ((cur =? NULL) && os_granted MI_REGION_SIZE MI_SEGMENT_ALIGN q).
    + apply bind_inv in H as ([] & w2 & E2 & H). apply store_start_inv in E2 as (r & _ & ->).
      now injection H as _ <-.
    + now injection H as _ <-.
Qed.

(** The calls of the reservation of a region: none when it has one; else
    the reservation the OS granted is published, or freed when another
    thread has published its own first. *)
Lemma ensure_reserved_trace idx mask s w s' w' :
  ensure_reserved idx mask s w = Some ((true, s'), w') ->
  exists rs, trace w' = trace w ++ rs /\
    (rs = [] \/
     exists a, a <> NULL /\
       (rs = [EvOsAllocAligned MI_REGION_SIZE MI_SEGMENT_ALIGN (option_eager_region_commit w) a;
              EvStartWritten idx a]
        \/ rs = [EvOsAllocAligned MI_REGION_SIZE MI_SEGMENT_ALIGN
                   (option_eager_region_commit w) a;
                 EvOsFree a MI_REGION_SIZE])).
Proof.
  unfold ensure_reserved. destruct (s =? NULL).
  2:{ intros [= _ <-]. exists []. split; [now rewrite app_nil_r | now left]. }
  intros H. apply bind_inv in H as (eager & w0 & E0 & H). injection E0 as <- <-.
  apply bind_inv in H as (a & w1 & E1 & H).
  assert (Et1 : trace w1 = trace w ++ [EvOsAllocAligned MI_REGION_SIZE MI_SEGMENT_ALIGN
                                        (option_eager_region_commit w) a]).
  { revert E1. unfold _mi_os_alloc_aligned, next_alloc_answer, bind, log, modify, ret.
    destruct (os_alloc_answers w); intros [= <- <-]; reflexivity. }
  destruct (Z.eqb_spec a NULL) as [|Ha].
  { apply bind_inv in H as (? & ? & _ & H). apply bind_inv in H as (? & ? & _ & H).
    discriminate. }
  apply bind_inv in H as (won & w2 & E2 & H).
  unfold mi_atomic_compare_exchange_start in E2.
  apply bind_inv in E2 as ([] & w3 & E3 & E2). apply start_race_trace in E3.
  apply bind_inv in E2 as (cur & w4 & E4 & E2).
  apply mi_atomic_read_start_inv in E4 as (-> & _).
  destruct (cur =? NULL).
  - apply bind_inv in E2 as ([] & w5 & E5 & E2). apply store_start_inv in E5 as (r & _ & ->).
    apply bind_inv in E2 as ([] & w6 & E6 & E2). injection E6 as <-. injection E2 as <- <-.
    apply bind_inv in H as ([] & w7 & E7 & H). injection E7 as <-. injection H as _ <-.
    eexists. cbn [trace set_regions_count set_trace set_regions].
    rewrite E3, Et1, <- app_assoc. split; [reflexivity|]. right. exists a. auto.
  - injection E2 as <- <-.
    apply bind_inv in H as ([] & w5 & E5 & H). injection E5 as <-.
    apply bind_inv in H as (s2 & w6 & E6 & H). apply mi_atomic_read_start_inv in E6 as (-> & _).
    injection H as _ <-.
    eexists. cbn [trace set_trace]. rewrite E3, Et1, <- app_assoc. split; [reflexivity|].
    right. exists a. auto.
Qed.

Lemma mi_region_commit_blocks_exact idx bitidx blocks size commit p id r w ok p' id' w' :
  good w -> 0 <= idx < MI_REGION_MAX -> regions w !! Z.to_nat idx = Some r ->
  mi_region_commit_blocks idx bitidx blocks size commit p id w = Some ((ok, p', id'), w') ->
  (ok = false -> start r = NULL) /\
  (ok = true ->
   committed size commit p' w w' /\ os_calls idx p' w w' /\
   (start r <> NULL -> since no_os_alloc w w')).
Proof.
  intros Hg Hi Hl H. unfold mi_region_commit_blocks in H.
  apply bind_inv in H as (mask & w1 & E1 & H).
  unfold lift in E1. destruct (mi_region_block_mask blocks bitidx); [|discriminate].
  injection E1 as -> <-.
  apply bind_inv in H as (s & w2 & E2 & H).
  apply mi_atomic_read_start_inv in E2 as (-> & _ & r0 & Hl0 & Hs).
  assert (r0 = r) by congruence. subst r0. subst s.
  apply bind_inv in H as ([reserved s'] & w3 & E3 & H).
  pose proof (runs_det _ _ _ _ _ (ensure_reserved_spec idx mask r w Hg Hi Hl) E3)
    as (Hg3 & Hev3 & Hn3 & Hres).
  destruct reserved; cbn [negb] in H.
  - destruct Hres as (_ & _ & _ & _ & Hsince).
    destruct (since_commits _ _ _ reserving_no_commit Hsince) as (d3 & Et3 & Ec3).
    destruct (ensure_reserved_trace _ _ _ _ _ _ E3) as (rs & Ers & Hrs).
    assert (rs = d3) by (apply (app_inv_head (trace w)); congruence). subst rs.
    assert (Hsame : start r <> NULL -> d3 = []).
    { intros Hne. rewrite (ensure_reserved_reserved idx mask _ w Hne) in E3.
      injection E3 as _ <-. apply (app_inv_head (trace w)). now rewrite <- Et3, app_nil_r. }
    apply bind_inv in H as (eager & w4 & E4 & H). injection E4 as <- <-.
    rewrite (ev_eager _ _ Hev3) in H.
    unfold committed. destruct (commit && negb (option_eager_region_commit w)).
    + apply bind_inv in H as ([] & w5 & E5 & H).
      apply bind_inv in E5 as (sz & w6 & E6 & E5).
      apply mi_good_commit_size_inv in E6 as (-> & Hsz).
      apply bind_inv in E5 as (okc & w7 & E7 & E5). injection E5 as <-.
      apply _mi_os_commit_inv in E7.
      apply bind_inv in H as ([] & w8 & E8 & H). injection E8 as <-.
      injection H as <- <- _ <-. split; [discriminate|intros _].
      split; [|split].
      * exists (d3 ++ [EvOsCommit (wrap (s' + wrap (bitidx * MI_SEGMENT_SIZE))) sz okc]).
        cbn [trace set_region_next_idx]. rewrite E7, Et3, app_assoc. split; [reflexivity|].
        exists sz, okc. split; [apply Hsz; symmetry; apply (ev_large _ _ Hev3)|].
        rewrite commits_app, Ec3. reflexivity.
      * exists [], d3, [EvOsCommit (wrap (s' + wrap (bitidx * MI_SEGMENT_SIZE))) sz okc].
        cbn [trace set_region_next_idx app]. rewrite E7, Et3, app_assoc.
        split; [reflexivity|]. split; [constructor|]. split; [exact Hrs|]. right. eauto.
      * intros Hne. exists [EvOsCommit (wrap (s' + wrap (bitidx * MI_SEGMENT_SIZE))) sz okc].
        cbn [trace set_region_next_idx]. rewrite E7, Et3, (Hsame Hne), app_nil_r.
        split; [reflexivity | repeat constructor].
    + apply bind_inv in H as ([] & w5 & E5 & H). injection E5 as <-.
      apply bind_inv in H as ([] & w8 & E8 & H). injection E8 as <-.
      injection H as <- _ _ <-. split; [discriminate|intros _].
      split; [|split].
      * exists d3. split; [exact Et3 | exact Ec3].
      * exists [], d3, []. cbn [trace set_region_next_idx app]. rewrite app_nil_r.
        split; [exact Et3|]. split; [constructor|]. split; [exact Hrs | now left].
      * intros Hne. exists d3. split; [exact Et3|]. rewrite (Hsame Hne). constructor.
  - injection H as <- _ _ _. split; [intros _|discriminate].
    apply ensure_reserved_denied in E3. exact E3.
Qed.

Lemma committed_after (P : event -> Prop) size commit p w w1 w' :
  (forall e, P e -> no_commit e) -> evolves w w1 -> since P w w1 ->
  committed size commit p w1 w' -> committed size commit p w w'.
Proof.
  intros HP Hev Hsince (d & Et & Hc).
  destruct (since_commits P w w1 HP Hsince) as (d1 & Et1 & Ec1).
  exists (d1 ++ d). split; [rewrite Et, Et1; now rewrite app_assoc|].
  rewrite commits_app, Ec1. cbn [app].
  rewrite (ev_eager _ _ Hev) in Hc.
  destruct (commit && negb (option_eager_region_commit w)); [|exact Hc].
  destruct Hc as (sz & ok & Esz & Ec). exists sz, ok. split; [|exact Ec].
  apply mi_good_commit_size_inv in Esz as [_ Hsz]. apply Hsz. symmetry. apply (ev_large _ _ Hev).
Qed.

(** The calls of an allocation that went on after writes of maps. *)
Lemma os_calls_after idx p w w1 w' :
  evolves w w1 -> since map_written w w1 -> os_calls idx p w1 w' -> os_calls idx p w w'.
Proof.
  intros Hev (d & Et & Hd) (ws & rs & cs & Et' & Hws & Hrs & Hcs).
  exists (d ++ ws), rs, cs. split; [rewrite Et', Et; now rewrite <- !app_assoc|].
  split; [now apply Forall_app|]. rewrite <- (ev_eager _ _ Hev). auto.
Qed.

Lemma map_written_no_commit e : map_written e -> no_commit e.
Proof. intros H. apply (map_written_quiet e H). Qed.

Lemma map_written_no_os_alloc e : map_written e -> no_os_alloc e.
Proof. destruct e; simpl; auto. Qed.

Lemma mi_region_alloc_blocks_exact idx blocks size commit w res w' :
  good w -> 0 <= idx < MI_REGION_MAX -> 1 <= blocks < 64 ->
  mi_region_alloc_blocks idx blocks size commit NULL SIZE_MAX w = Some (res, w') ->
  probed idx blocks size commit w res w'.
Proof.
  intros Hg Hi Hb H. unfold mi_region_alloc_blocks in H.
  apply bind_inv in H as (mask & w0 & E0 & H).
  unfold lift in E0. rewrite mask_at_Some in E0 by lia. injection E0 as <- <-.
  rewrite MI_REGION_MAP_BITS_eq in H. rewrite (wrap_small (64 - blocks)) in H by lia.
  apply bind_inv in H as (fuel & w0 & E0 & H). injection E0 as <- <-.
  apply bind_inv in H as (found & w1 & E1 & H).
  pose proof (runs_det _ _ _ _ _
    (claim_spec (S (length (map_races w))) idx blocks 0 w Hg Hi Hb ltac:(lia) ltac:(lia)) E1)
    as (Hg1 & Hev1 & Hc1 & Hn1 & Hsince1 & Hfound).
  pose proof (kept_claim _ _ _ _ _ _ _ _ _ E1) as (_ & Hkept1 & _).
  destruct found as [b|].
  - destruct Hfound as (Hb0 & Hbsum & Hq1).
    destruct (good_lookup w1 idx Hg1 Hi) as (r1 & Hl1 & Hok1).
    pose proof (runs_det _ _ _ _ _
      (mi_region_commit_blocks_spec idx b blocks size commit NULL SIZE_MAX r1 w1
         Hg1 Hi Hl1 Hb Hb0 Hbsum) H) as (Hg2 & Hev2 & Hres).
    destruct res as [[ok p] id].
    destruct (mi_region_commit_blocks_exact _ _ _ _ _ _ _ r1 _ _ _ _ _ Hg1 Hi Hl1 H)
      as [Hfalse Htrue].
    apply claim_sets_bits in E1 as (shifted & r1' & Esh & Hl1' & Hbits).
    rewrite shl_mask_at in Esh by lia. injection Esh as <-.
    assert (r1' = r1) by congruence. subst r1'.
    destruct ok.
    + destruct Hres as (s & Hs & Hptr & Hr2 & Ep & Hpne & Eid & Hidne & Hm2 & Hn2 & Hsince2).
      destruct (Htrue eq_refl) as (Hcommitted & Hcalls & Hnone).
      split; [intros; contradiction|]. split; [intros; contradiction|]. split.
      * intros _. split; [|split; [|split]].
        -- exists b, (mk_region (map r1) s). rewrite MI_REGION_MAP_BITS_eq.
           split; [exact Hb0|]. split; [exact Hbsum|]. split; [exact Eid|].
           split; [rewrite Hr2; now apply (lookup_insert_region _ _ r1)|].
           cbn [start map]. auto 6.
        -- eapply committed_after; [apply map_written_no_commit | exact Hev1 | exact Hsince1 |].
           exact Hcommitted.
        -- eapply os_calls_after; eassumption.
        -- intros r Hl Hne. destruct (Hkept1 _ r Hl Hne) as (r1k & Hl1k & Es).
           assert (r1k = r1) by congruence. subst r1k.
           eapply since_trans; [eapply since_mono; [|exact Hsince1]; apply map_written_no_os_alloc|].
           apply Hnone. congruence.
      * intros Hquiet. split; [intros _ Hp; contradiction | discriminate].
    + destruct Hres as (-> & -> & _ & _ & Hn2 & _).
      split; [intros _; congruence|]. split; [discriminate|].
      split; [intros Hp; now contradiction Hp|].
      intros Hquiet. split; [discriminate|intros _].
      destruct (good_lookup w idx Hg Hi) as (r & Hl & Hok).
      destruct (Hq1 Hquiet eq_refl r Hl) as (Hz & Hlow & Hm1 & Hr1).
      exists r. split; [exact Hl|]. split.
      * pose proof (Hfalse eq_refl) as Hs1.
        rewrite Hr1 in Hl1. rewrite (lookup_insert_region _ _ r _ Hl) in Hl1.
        injection Hl1 as <-. exact Hs1.
      * exists b. apply fits_run_free; [exact Hb|]. split; [exact Hb0|]. split; [exact Hbsum|].
        apply land_mask_zero_iff; [lia..|exact Hz].
  - injection H as <- <-. split; [intros _; exact Hn1|]. split; [intros _ _; exact Hsince1|].
    split; [intros Hp; now contradiction Hp|].
    intros Hquiet. split; [|discriminate]. intros _ _ r Hl.
    destruct (Hfound Hquiet eq_refl) as [_ Hno]. exact (Hno r Hl).
Qed.

Lemma full_map_no_fit blocks j : 1 <= blocks < 64 -> ~ fits MI_REGION_MAP_FULL blocks j.
Proof.
  intros Hb Hfit. apply fits_run_free in Hfit as (Hj & Hs & Hfree); [|exact Hb].
  specialize (Hfree j ltac:(lia)).
  unfold MI_REGION_MAP_FULL, UINTPTR_MAX in Hfree. rewrite MI_REGION_MAP_BITS_eq in Hfree.
  change (2 ^ 64 - 1) with (Z.ones 64) in Hfree.
  rewrite Z.ones_spec_low in Hfree by lia. discriminate.
Qed.

Lemma mi_region_try_alloc_blocks_exact idx blocks size commit w res w' :
  good w -> 0 <= idx < MI_REGION_MAX -> 1 <= blocks < 64 ->
  mi_region_try_alloc_blocks idx blocks size commit NULL SIZE_MAX w = Some (res, w') ->
  probed idx blocks size commit w res w'.
Proof.
  intros Hg Hi Hb H. unfold mi_region_try_alloc_blocks in H.
  apply bind_inv in H as (m & w0 & E0 & H).
  apply mi_atomic_read_map_inv in E0 as (-> & _ & r & Hl & Hm).
  destruct (Z.eqb_spec m MI_REGION_MAP_FULL) as [Efull|_]; cbn [negb] in H.
  - injection H as <- <-. split; [reflexivity|]. split; [intros _ _; apply since_refl|].
    split; [intros Hp; now contradiction Hp|].
    intros _. split; [|discriminate]. intros _ _ r' Hl' j.
    assert (r' = r) by congruence. subst r'. rewrite Hm, Efull. now apply full_map_no_fit.
  - now apply mi_region_alloc_blocks_exact.
Qed.

(** ** What a sweep tells *)

Lemma searched_ext (visit visit' : Z -> Z) n blocks size commit w res w' :
  (forall v, 0 <= v < n -> visit v = visit' v) ->
  searched visit n blocks size commit w res w' -> searched visit' n blocks size commit w res w'.
Proof.
  intros Hext. destruct res as [[ok p] id]. intros (H1 & H1' & H2 & H3).
  split; [exact H1|]. split; [exact H1'|]. split.
  - intros Hp. destruct (H2 Hp) as (v & Hv & Hpl & Hc). exists v. rewrite <- (Hext v Hv). auto.
  - intros Hquiet. destruct (H3 Hquiet) as [Hfull Hhit]. split.
    + intros Hok Hp v Hv. rewrite <- (Hext v Hv). now apply Hfull.
    + intros Hcase. destruct (Hhit Hcase) as (v & Hv & Hbefore & Hclaim & Hden).
      exists v. split; [exact Hv|]. rewrite <- (Hext v Hv). split; [|auto].
      intros v' Hv'. rewrite <- (Hext v' ltac:(lia)). now apply Hbefore.
Qed.

(** The search ends at the first probe. *)
Lemma searched_here (visit : Z -> Z) n blocks size commit w ok p id w' :
  0 < n -> ok = false \/ p <> NULL ->
  outcome (claimed_at (visit 0) blocks) w (ok, p, id) w' ->
  probed (visit 0) blocks size commit w (ok, p, id) w' ->
  searched visit n blocks size commit w (ok, p, id) w'.
Proof.
  intros Hn Hcase (_ & _ & Hout) (H1 & H1' & H2 & H3).
  split; [exact H1|]. split; [exact H1'|]. split.
  - intros Hp. exists 0. split; [lia | now apply H2].
  - intros Hquiet. destruct (H3 Hquiet) as [_ Hden]. split.
    + intros -> ->. destruct Hcase as [|Hp]; [discriminate | now contradiction Hp].
    + intros _. exists 0. split; [lia|]. split; [intros v' Hv'; lia|]. split; [|exact Hden].
      intros Hp. destruct ok.
      * destruct Hout as [(Hnull & _)|(_ & _ & _ & Hclaim)]; [contradiction | now apply Hclaim].
      * destruct Hout as (Hnull & _). contradiction.
Qed.

(** The search goes on after a first probe that found no range. *)
Lemma searched_next (visit : Z -> Z) n blocks size commit w w1 res w' :
  0 < n -> table_kept w w1 ->
  outcome (claimed_at (visit 0) blocks) w (true, NULL, SIZE_MAX) w1 ->
  probed (visit 0) blocks size commit w (true, NULL, SIZE_MAX) w1 ->
  searched (fun v => visit (v + 1)) (n - 1) blocks size commit w1 res w' ->
  searched visit n blocks size commit w res w'.
Proof.
  intros Hn (_ & Hkept & _) (_ & Hev1 & Hout) (H1 & H1' & _ & H3).
  destruct res as [[ok p] id]. intros (K1 & K1' & K2 & K3).
  destruct Hout as [(_ & _ & Hsince & Hsame)|(Hp & _)]; [|now contradiction Hp].
  specialize (H1' eq_refl eq_refl).
  split; [intros Hp; rewrite (K1 Hp); now apply H1|].
  split; [intros Hok Hp; eapply since_trans; [exact H1' | now apply K1']|]. split.
  - intros Hp. destruct (K2 Hp) as (v & Hv & Hpl & Hc & Hcalls & Hnone). exists (v + 1).
    split; [lia|]. split; [exact Hpl|]. split; [|split].
    + eapply committed_after; [|exact Hev1|exact Hsince|exact Hc]. now intros e [_ He].
    + eapply os_calls_after; eassumption.
    + intros r Hl Hne. destruct (Hkept _ r Hl Hne) as (r1 & Hl1 & Es).
      eapply since_trans; [eapply since_mono; [|exact H1']; apply map_written_no_os_alloc|].
      apply (Hnone r1 Hl1). congruence.
  - intros Hquiet. pose proof (Hsame Hquiet) as ->.
    destruct (H3 Hquiet) as [Hfull0 _]. destruct (K3 Hquiet) as [Hfull Hhit].
    specialize (Hfull0 eq_refl eq_refl). split.
    + intros Hok Hp v Hv. destruct (Z.eq_dec v 0) as [->|Hv0]; [exact Hfull0|].
      replace v with (v - 1 + 1) by lia. apply (Hfull Hok Hp). lia.
    + intros Hcase. destruct (Hhit Hcase) as (v & Hv & Hbefore & Hclaim & Hden).
      exists (v + 1). split; [lia|]. split; [|auto].
      intros v' Hv'. destruct (Z.eq_dec v' 0) as [->|Hv0]; [exact Hfull0|].
      replace v' with (v' - 1 + 1) by lia. apply Hbefore. lia.
Qed.

Lemma searched_nothing (visit : Z -> Z) blocks size commit w :
  searched visit 0 blocks size commit w (true, NULL, SIZE_MAX) w.
Proof.
  split; [reflexivity|]. split; [intros _ _; apply since_refl|].
  split; [intros Hp; now contradiction Hp|].
  intros _. split; [intros _ _ v Hv; lia|].
  intros [|Hp]; [discriminate | now contradiction Hp].
Qed.

Lemma first_sweep_exact remaining : forall idx count blocks size commit w res w',
  good w -> 0 < count <= MI_REGION_MAX -> 0 <= idx -> idx + Z.of_nat remaining < 2 ^ 64 ->
  1 <= blocks < 64 ->
  first_sweep remaining idx count blocks size commit NULL SIZE_MAX w = Some (res, w') ->
  searched (fun v => (idx + v) mod count) (Z.of_nat remaining) blocks size commit w res w'.
Proof.
  induction remaining as [|n IH]; intros idx count blocks size commit w res w' Hg Hc Hi Hmax Hb H.
  - injection H as <- <-. apply searched_nothing.
  - cbn [first_sweep] in H.
    assert (Hmod : 0 <= idx mod count < MI_REGION_MAX).
    { pose proof (Z.mod_pos_bound idx count). lia. }
    apply bind_inv in H as ([[ok1 p1] id1] & w1 & E1 & H).
    pose proof (runs_det _ _ _ _ _
      (mi_region_try_alloc_blocks_spec _ blocks size commit w Hg Hmod Hb) E1) as Hout.
    pose proof (mi_region_try_alloc_blocks_exact _ _ _ _ _ _ _ Hg Hmod Hb E1) as Hpr.
    rewrite <- (Z.add_0_r idx) in Hout, Hpr at 1.
    destruct ok1; cbn [negb] in H.
    + destruct (Z.eqb_spec p1 NULL) as [->|Hp1]; cbn [negb] in H.
      * assert (id1 = SIZE_MAX) as ->.
        { destruct Hout as (_ & _ & [(_ & Hid & _)|(Hp & _)]); [exact Hid | now contradiction Hp]. }
        rewrite wrap_small in H by lia.
        apply (searched_next (fun v => (idx + v) mod count) _ _ _ _ _ w1);
          [lia|exact (kept_try_alloc_blocks _ _ _ _ _ _ _ _ _ E1)|exact Hout|exact Hpr|].
        apply (searched_ext (fun v => (idx + 1 + v) mod count)).
        { intros v _. f_equal. lia. }
        replace (Z.of_nat (S n) - 1) with (Z.of_nat n) by lia.
        apply IH; try assumption; try lia. now destruct Hout.
      * injection H as <- <-.
        apply (searched_here (fun v => (idx + v) mod count)); [lia|now right|exact Hout|exact Hpr].
    + injection H as <- <-.
      apply (searched_here (fun v => (idx + v) mod count)); [lia|now left|exact Hout|exact Hpr].
Qed.

Lemma second_sweep_exact remaining : forall idx blocks size commit w res w',
  good w -> 0 <= idx -> idx + Z.of_nat remaining <= MI_REGION_MAX -> 1 <= blocks < 64 ->
  second_sweep remaining idx blocks size commit NULL SIZE_MAX w = Some (res, w') ->
  searched (fun v => idx + v) (Z.of_nat remaining) blocks size commit w res w'.
Proof.
  induction remaining as [|n IH]; intros idx blocks size commit w res w' Hg Hi Hmax Hb H.
  - injection H as <- <-. apply searched_nothing.
  - cbn [second_sweep] in H.
    assert (Hidx : 0 <= idx < MI_REGION_MAX) by lia.
    apply bind_inv in H as ([[ok1 p1] id1] & w1 & E1 & H).
    pose proof (runs_det _ _ _ _ _
      (mi_region_try_alloc_blocks_spec _ blocks size commit w Hg Hidx Hb) E1) as Hout.
    pose proof (mi_region_try_alloc_blocks_exact _ _ _ _ _ _ _ Hg Hidx Hb E1) as Hpr.
    rewrite <- (Z.add_0_r idx) in Hout, Hpr at 1.
    pose proof Hmax as Hmax'. rewrite MI_REGION_MAX_eq in Hmax'.
    destruct ok1; cbn [negb] in H.
    + destruct (Z.eqb_spec p1 NULL) as [->|Hp1]; cbn [negb] in H.
      * assert (id1 = SIZE_MAX) as ->.
        { destruct Hout as (_ & _ & [(_ & Hid & _)|(Hp & _)]); [exact Hid | now contradiction Hp]. }
        rewrite wrap_small in H by lia.
        apply (searched_next (fun v => idx + v) _ _ _ _ _ w1);
          [lia|exact (kept_try_alloc_blocks _ _ _ _ _ _ _ _ _ E1)|exact Hout|exact Hpr|].
        apply (searched_ext (fun v => idx + 1 + v)).
        { intros v _. lia. }
        replace (Z.of_nat (S n) - 1) with (Z.of_nat n) by lia.
        apply IH; try assumption; try lia. now destruct Hout.
      * injection H as <- <-.
        apply (searched_here (fun v => idx + v)); [lia|now right|exact Hout|exact Hpr].
    + injection H as <- <-.
      apply (searched_here (fun v => idx + v)); [lia|now left|exact Hout|exact Hpr].
Qed.

(** ** The way of an allocation *)

Lemma outcome_result (C : world -> Z -> Z -> world -> Prop) w ok p id w' :
  outcome C w (ok, p, id) w' ->
  (p = NULL /\ id = SIZE_MAX) \/ (ok = true /\ p <> NULL /\ id <> SIZE_MAX).
Proof.
  intros (_ & _ & H). destruct ok.
  - destruct H as [(-> & -> & _)|(Hp & Hid & _)]; auto.
  - destruct H as (-> & -> & _). auto.
Qed.

Lemma _mi_mem_alloc_aligned_path size alignment commit w res w' :
  good w -> 0 < size <= MI_REGION_MAX_ALLOC_SIZE -> alignment <= MI_SEGMENT_ALIGN ->
  _mi_mem_alloc_aligned size alignment commit w = Some (res, w') ->
  alloc_path (_mi_align_up size (os_page_size w)) alignment commit w res w'.
Proof.
  intros Hg Hs Ha H. unfold _mi_mem_alloc_aligned in H.
  assert (E : (size >? MI_REGION_MAX_ALLOC_SIZE) || (alignment >? MI_SEGMENT_ALIGN) = false).
  { apply orb_false_iff. rewrite !Z.gtb_ltb, !Z.ltb_ge. lia. }
  rewrite E in H.
  apply bind_inv in H as (page & w0 & E0 & H). injection E0 as <- <-.
  destruct (request_blocks size w Hg Hs) as [Hblocks Hsize].
  set (size' := _mi_align_up size (os_page_size w)) in *.
  set (blocks := mi_region_block_count size') in *.
  apply bind_inv in H as (count & w0 & E0 & H). injection E0 as <- <-.
  apply bind_inv in H as (next & w0 & E0 & H). injection E0 as <- <-.
  pose proof (good_count_max w Hg) as Hc. pose proof (good_next w Hg) as Hn.
  pose proof MI_REGION_MAX_eq as EN.
  apply bind_inv in H as ([[ok1 p1] id1] & w1 & E1 & H).
  assert (H1 : outcome (claimed blocks) w (ok1, p1, id1) w1 /\
               searched (fun v => (region_next_idx w + v) mod regions_count w) (regions_count w)
                 blocks size' commit w (ok1, p1, id1) w1).
  { destruct (Z.eq_dec (regions_count w) 0) as [E0|N0].
    - rewrite E0 in *. injection E1 as <- <- <- <-.
      split; [now apply outcome_nothing | apply searched_nothing].
    - split.
      + apply (runs_det _ _ _ _ _
          (first_sweep_spec (Z.to_nat (regions_count w)) (region_next_idx w) (regions_count w) blocks size' commit w Hg
             ltac:(lia) ltac:(lia) ltac:(lia) ltac:(lia)) E1).
      + pose proof (fun K1 K2 K3 K4 =>
                      first_sweep_exact _ _ _ _ _ _ _ _ _ Hg K1 K2 K3 K4 E1) as Hex.
        rewrite Z2Nat.id in Hex by lia. apply Hex; lia. }
  destruct H1 as [Hout1 Hex1]. pose proof (proj1 Hout1) as Hg1.
  pose proof (kept_first_sweep _ _ _ _ _ _ _ _ _ _ _ E1) as Hkept1.
  destruct ok1; cbn [negb] in H.
  2:{ injection H as <- <-.
      apply (path_first size' alignment commit w false p1 id1 w1); [exact Hout1|exact Hex1|now left]. }
  apply bind_inv in H as ([[ok2 p2] id2] & w2 & E2 & H).
  destruct (Z.eqb_spec p1 NULL) as [Ep1|Np1].
  2:{ injection E2 as <- <- <- <-. cbn [negb] in H.
      destruct (Z.eqb_spec p1 NULL) as [|_]; [contradiction|]. injection H as <- <-.
      apply (path_first size' alignment commit w true p1 id1 w1); [exact Hout1|exact Hex1|now right]. }
  subst p1.
  assert (id1 = SIZE_MAX) as ->.
  { destruct (outcome_result _ _ _ _ _ _ Hout1) as [[_ Hid]|(_ & Hp & _)];
      [exact Hid | now contradiction Hp]. }
  assert (Hout2 : outcome (claimed blocks) w1 (ok2, p2, id2) w2).
  { apply (runs_det _ _ _ _ _
      (second_sweep_spec (Z.to_nat (MI_REGION_MAX - regions_count w)) (regions_count w) blocks size' commit w1 Hg1
         ltac:(lia) ltac:(lia) ltac:(lia)) E2). }
  assert (Hex2 : searched (fun v => regions_count w + v) (MI_REGION_MAX - regions_count w)
                   blocks size' commit w1 (ok2, p2, id2) w2).
  { pose proof (fun K1 K2 K3 =>
                  second_sweep_exact _ _ _ _ _ _ _ _ Hg1 K1 K2 K3 E2) as Hex.
    rewrite Z2Nat.id in Hex by lia. apply Hex; lia. }
  destruct ok2; cbn [negb] in H.
  2:{ injection H as <- <-.
      apply (path_second size' alignment commit w w1 false p2 id2 w2); auto. }
  destruct (Z.eqb_spec p2 NULL) as [Ep2|Np2].
  2:{ injection H as <- <-.
      apply (path_second size' alignment commit w w1 true p2 id2 w2); auto. }
  subst p2.
  assert (id2 = SIZE_MAX) as ->.
  { destruct (outcome_result _ _ _ _ _ _ Hout2) as [[_ Hid]|(_ & Hp & _)];
      [exact Hid | now contradiction Hp]. }
  apply bind_inv in H as (p3 & w3 & E3 & H). injection H as <- <-.
  now apply (path_fallback size' alignment commit w w1 w2 p3 w3).
Qed.

(** ** What an allocation tells *)

Lemma denied_refused w w' : denied w w' -> os_refused w w'.
Proof.
  intros (d & E & H). apply Exists_exists in H as (e & He & (c & ->)).
  exists d, MI_REGION_SIZE, MI_SEGMENT_ALIGN, c. split; [exact E | exact He].
Qed.

Lemma since_no_os_alloc (P : event -> Prop) w w1 w' :
  (forall e, P e -> no_os_alloc e) -> since P w w1 -> since no_os_alloc w1 w' ->
  since no_os_alloc w w'.
Proof.
  intros HP H1 H2. eapply since_trans; [|exact H2]. eapply since_mono; eassumption.
Qed.

Lemma alloc_path_placed size alignment commit w p id w' :
  good w -> alloc_path size alignment commit w (p, id) w' ->
  (id = SIZE_MAX -> region_next_idx w' = region_next_idx w)
  /\ (id <> SIZE_MAX ->
      p <> NULL /\
      exists idx, 0 <= idx < MI_REGION_MAX /\
        placed_at idx (mi_region_block_count size) p id w' /\
        committed size commit p w w' /\ os_calls idx p w w' /\
        forall r, regions w !! Z.to_nat idx = Some r -> start r <> NULL ->
                  since no_os_alloc w w')
  /\ (p = NULL -> os_refused w w').
Proof.
  intros Hg Hpath. pose proof (good_count_max w Hg) as Hc. pose proof (good_next w Hg) as Hn.
  remember (p, id) as res eqn:Eres.
  destruct Hpath as [ok p0 id0 w0 blocks Hout Hs Hcase
                    |w1 ok p0 id0 w0 blocks Hkept Hout1 Hs1 Hout Hs Hcase
                    |w1 w2 p0 w0 blocks Hkept Hout1 Hs1 Hout2 Hs2 Eos].
  - injection Eres as <- <-. destruct Hs as (K1 & _ & K2 & _).
    destruct (outcome_result _ _ _ _ _ _ Hout) as [[-> ->]|(-> & Hp & Hid)].
    + assert (ok = false) as -> by (destruct Hcase as [|Hp]; [assumption | now contradiction Hp]).
      split; [intros _; now apply K1|]. split; [intros Hid; now contradiction Hid|].
      intros _. apply denied_refused. now destruct Hout as (_ & _ & _ & _ & Hd & _).
    + split; [intros Hid'; contradiction|]. split; [|intros Hp'; contradiction].
      intros _. split; [exact Hp|].
      destruct (K2 Hp) as (v & Hv & Hpl & Hcm & Hcalls & Hnone).
      exists ((region_next_idx w + v) mod regions_count w).
      split; [pose proof (Z.mod_pos_bound (region_next_idx w + v) (regions_count w)); lia|].
      auto.
  - injection Eres as <- <-. destruct Hs as (K1 & _ & K2 & _).
    destruct Hs1 as (J1 & J1' & _). specialize (J1 eq_refl). specialize (J1' eq_refl eq_refl).
    destruct Hout1 as (_ & Hev1 & [(_ & _ & Hsince1 & _)|(Hp & _)]); [|now contradiction Hp].
    destruct (outcome_result _ _ _ _ _ _ Hout) as [[-> ->]|(-> & Hp & Hid)].
    + assert (ok = false) as -> by (destruct Hcase as [|Hp]; [assumption | now contradiction Hp]).
      split; [intros _; rewrite (K1 eq_refl); exact J1|].
      split; [intros Hid; now contradiction Hid|].
      intros _. apply denied_refused. eapply denied_after; [exact Hsince1|].
      now destruct Hout as (_ & _ & _ & _ & Hd & _).
    + split; [intros Hid'; contradiction|]. split; [|intros Hp'; contradiction].
      intros _. split; [exact Hp|].
      destruct (K2 Hp) as (v & Hv & Hpl & Hcm & Hcalls & Hnone).
      exists (regions_count w + v). split; [lia|]. split; [exact Hpl|]. split; [|split].
      * eapply committed_after; [|exact Hev1|exact Hsince1|exact Hcm]. now intros e [_ He].
      * eapply os_calls_after; eassumption.
      * intros r Hl Hne. destruct Hkept as (_ & Hstarts & _).
        destruct (Hstarts _ r Hl Hne) as (r1 & Hl1 & Es).
        eapply since_no_os_alloc; [apply map_written_no_os_alloc | exact J1' |].
        apply (Hnone r1 Hl1). congruence.
  - injection Eres as <- <-.
    destruct Hs1 as (J1 & _). destruct Hs2 as (K1 & _).
    pose proof (runs_det _ _ _ _ _
      (_mi_os_alloc_aligned_spec size alignment commit w2 (proj1 Hout2)) Eos)
      as (_ & _ & (_ & _ & Hn3 & _) & _ & _ & Htr3).
    split; [intros _; rewrite Hn3, (K1 eq_refl); now apply J1|].
    split; [intros Hid; now contradiction Hid|].
    intros ->.
    destruct Hout1 as (_ & _ & [(_ & _ & (d1 & Et1 & _) & _)|(Hp & _)]); [|now contradiction Hp].
    destruct Hout2 as (_ & _ & [(_ & _ & (d2 & Et2 & _) & _)|(Hp & _)]); [|now contradiction Hp].
    exists (d1 ++ d2 ++ [EvOsAllocAligned size alignment commit NULL]), size, alignment, commit.
    split; [rewrite Htr3, Et2, Et1; now rewrite <- !app_assoc|].
    rewrite !elem_of_app. right. right. apply list_elem_of_singleton. reflexivity.
Qed.

Lemma sweep_covers count next i :
  0 <= i < count -> exists v, 0 <= v < count /\ (next + v) mod count = i.
Proof.
  intros Hi. exists ((i - next) mod count).
  split; [apply Z.mod_pos_bound; lia|].
  rewrite Zplus_mod_idemp_r. replace (next + (i - next)) with i by lia.
  apply Z.mod_small. lia.
Qed.

Lemma claimed_at_room idx blocks w p id w' :
  1 <= blocks < 64 -> claimed_at idx blocks w p id w' -> ~ region_full blocks w idx.
Proof.
  intros Hb (bitidx & r & s & Hl & Hb0 & Hfit & Hz & _) Hfull.
  apply (Hfull r Hl bitidx). rewrite MI_REGION_MAP_BITS_eq in Hfit.
  apply fits_run_free; [exact Hb|]. split; [exact Hb0|]. split; [exact Hfit|].
  apply land_mask_zero_iff; [lia..|exact Hz].
Qed.

(** Without interference the search is exact: it ends at the first region
    on its way that has room, with a block there or with the reservation of
    that region denied; it goes to the OS when no region has room. *)
Lemma alloc_path_first_room size alignment commit w p id w' :
  good w -> map_races w = [] ->
  alloc_path size alignment commit w (p, id) w' ->
  let blocks := mi_region_block_count size in
  (id = SIZE_MAX ->
     (p = NULL /\ denied w w' /\
      exists idx r, first_in_sweep blocks w idx /\ 0 <= idx < MI_REGION_MAX /\
        regions w !! Z.to_nat idx = Some r /\
        start r = NULL /\ exists j, fits (map r) blocks j)
     \/ (forall idx, 0 <= idx < MI_REGION_MAX -> region_full blocks w idx))
  /\ (id <> SIZE_MAX ->
      exists idx, first_in_sweep blocks w idx /\ 0 <= idx < MI_REGION_MAX /\
                  claimed_at idx blocks w p id w').
Proof.
  intros Hg Hquiet Hpath blocks0.
  pose proof (good_count_max w Hg) as Hc. pose proof (good_next w Hg) as Hn.
  remember (p, id) as res eqn:Eres.
  destruct Hpath as [ok p0 id0 w0 blocks Hout Hs Hcase
                    |w1 ok p0 id0 w0 blocks Hkept Hout1 Hs1 Hout Hs Hcase
                    |w1 w2 p0 w0 blocks Hkept Hout1 Hs1 Hout2 Hs2 Eos]; subst blocks0.
  - injection Eres as <- <-. destruct Hs as (_ & _ & _ & K3).
    destruct (K3 Hquiet) as [_ Hhit]. destruct (Hhit Hcase) as (v & Hv & Hbefore & Hclaim & Hden).
    assert (Hrange : 0 <= (region_next_idx w + v) mod regions_count w < MI_REGION_MAX).
    { pose proof (Z.mod_pos_bound (region_next_idx w + v) (regions_count w)). lia. }
    assert (Hfirst : first_in_sweep blocks w ((region_next_idx w + v) mod regions_count w)).
    { left. exists v. auto. }
    destruct (outcome_result _ _ _ _ _ _ Hout) as [[-> ->]|(-> & Hp & Hid)].
    + assert (ok = false) as -> by (destruct Hcase as [|Hp]; [assumption | now contradiction Hp]).
      split; [|intros Hid; now contradiction Hid]. intros _. left.
      split; [reflexivity|]. split; [now destruct Hout as (_ & _ & _ & _ & Hd & _)|].
      destruct (Hden eq_refl) as (r & Hl & Hs0 & Hfit). eauto 8.
    + split; [intros Hid'; contradiction|]. intros _. eauto.
  - injection Eres as <- <-.
    destruct Hout1 as (_ & _ & [(_ & _ & Hsince1 & Hsame)|(Hp & _)]); [|now contradiction Hp].
    pose proof (Hsame Hquiet) as ->.
    destruct Hs1 as (_ & _ & _ & J3). destruct (J3 Hquiet) as [Hfull1 _].
    specialize (Hfull1 eq_refl eq_refl).
    destruct Hs as (_ & _ & _ & K3).
    destruct (K3 Hquiet) as [_ Hhit]. destruct (Hhit Hcase) as (v & Hv & Hbefore & Hclaim & Hden).
    assert (Hfirst : first_in_sweep blocks w (regions_count w + v)).
    { right. split; [lia|]. intros i Hi.
      destruct (Z_lt_dec i (regions_count w)) as [Hlt|Hge].
      - destruct (sweep_covers (regions_count w) (region_next_idx w) i ltac:(lia))
          as (v1 & Hv1 & <-). now apply Hfull1.
      - replace i with (regions_count w + (i - regions_count w)) by lia. apply Hbefore. lia. }
    destruct (outcome_result _ _ _ _ _ _ Hout) as [[-> ->]|(-> & Hp & Hid)].
    + assert (ok = false) as -> by (destruct Hcase as [|Hp]; [assumption | now contradiction Hp]).
      split; [|intros Hid; now contradiction Hid]. intros _. left.
      split; [reflexivity|]. split; [now destruct Hout as (_ & _ & _ & _ & Hd & _)|].
      destruct (Hden eq_refl) as (r & Hl & Hs0 & Hfit).
      exists (regions_count w + v), r. split; [exact Hfirst|]. split; [lia|]. auto.
    + split; [intros Hid'; contradiction|]. intros _.
      exists (regions_count w + v). split; [exact Hfirst|]. split; [lia|]. auto.
  - injection Eres as <- <-.
    destruct Hout1 as (_ & _ & [(_ & _ & Hsince1 & Hsame)|(Hp & _)]); [|now contradiction Hp].
    pose proof (Hsame Hquiet) as ->.
    destruct Hs1 as (_ & _ & _ & J3). destruct (J3 Hquiet) as [Hfull1 _].
    destruct Hs2 as (_ & _ & _ & K3). destruct (K3 Hquiet) as [Hfull2 _].
    specialize (Hfull1 eq_refl eq_refl). specialize (Hfull2 eq_refl eq_refl).
    split; [|intros Hid; now contradiction Hid]. intros _. right. intros idx Hidx.
    destruct (Z_lt_dec idx (regions_count w)) as [Hlt|Hge].
    + destruct (sweep_covers (regions_count w) (region_next_idx w) idx ltac:(lia))
        as (v1 & Hv1 & <-). now apply Hfull1.
    + replace idx with (regions_count w + (idx - regions_count w)) by lia. apply Hfull2. lia.
Qed.

(** ** What a free keeps *)

Lemma reservations_kept_refl w : reservations_kept w w.
Proof. repeat split. Qed.

Lemma reservations_kept_trans w1 w2 w3 :
  reservations_kept w1 w2 -> reservations_kept w2 w3 -> reservations_kept w1 w3.
Proof. intros (H1 & H2 & H3) (K1 & K2 & K3). repeat split; congruence. Qed.

Lemma reservations_kept_same w w' :
  regions w' = regions w -> regions_count w' = regions_count w ->
  region_next_idx w' = region_next_idx w -> reservations_kept w w'.
Proof. intros E1 E2 E3. unfold reservations_kept. now rewrite E1, E2, E3. Qed.

Create HintDb freed.

Lemma freed_log e : keeps reservations_kept (log e).
Proof. apply keeps_modify. intros w. now apply reservations_kept_same. Qed.

Lemma freed_region_at idx : keeps reservations_kept (region_at idx).
Proof. intros w r w' H. apply region_at_inv in H as (-> & _). apply reservations_kept_refl. Qed.

Lemma freed_next_bool_answer : keeps reservations_kept next_bool_answer.
Proof.
  intros w a w'. unfold next_bool_answer.
  destruct (os_bool_answers w); intros [= _ <-]; now apply reservations_kept_same.
Qed.

Lemma freed_store_map idx v : keeps reservations_kept (store_map idx v).
Proof.
  intros w a w' H. apply store_map_inv in H as (r & Hl & ->).
  split; [|split; reflexivity]. cbn [regions set_regions].
  rewrite list_fmap_insert. cbn [start]. apply list_insert_id.
  rewrite list_lookup_fmap, Hl. reflexivity.
Qed.

#[local] Hint Resolve freed_log freed_region_at freed_next_bool_answer freed_store_map : freed.

Ltac freed :=
  repeat first
    [ solve [auto with freed]
    | apply (keeps_ret reservations_kept reservations_kept_refl)
    | apply (keeps_gets reservations_kept reservations_kept_refl)
    | apply (keeps_lift reservations_kept reservations_kept_refl)
    | apply keeps_undefined
    | apply (keeps_bind reservations_kept reservations_kept_trans); [|intros ?]
    | match goal with
      | |- keeps _ (if ?b then _ else _) => destruct b
      | |- keeps _ (match ?x with _ => _ end) => destruct x
      end ].

Lemma freed_map_race idx : keeps reservations_kept (map_race idx).
Proof.
  intros w a w'. unfold map_race. destruct (map_races w) as [|[|v] rest].
  - intros [= _ <-]. apply reservations_kept_refl.
  - intros [= _ <-]. now apply reservations_kept_same.
  - intros H. apply freed_store_map in H. exact H.
Qed.

#[local] Hint Resolve freed_map_race : freed.

Lemma freed_unclaim fuel : forall idx mask, keeps reservations_kept (unclaim fuel idx mask).
Proof.
  induction fuel as [|fuel IH]; intros idx mask; cbn [unclaim];
    unfold mi_atomic_compare_exchange_map, mi_atomic_read_map; freed.
Qed.

#[local] Hint Resolve freed_unclaim : freed.

Lemma freed_free p size id : keeps reservations_kept (_mi_mem_free p size id).
Proof.
  unfold _mi_mem_free, _mi_os_page_size, mi_option_is_enabled_eager_region_commit, cas_budget,
    _mi_os_free, _mi_os_reset, _mi_os_decommit, mi_atomic_read_start.
  freed.
Qed.

(** * The table over any calls *)

(** X1.  A reservation is published once: after any calls to allocate and
    free, and whatever the other threads do in between, every descriptor
    whose [start] was set still has that same [start]. *)
Theorem start_is_set_once (w : world) (cs : list call) :
  good w -> Forall call_ok cs ->
  exists w',
    run_calls cs w = Some (tt, w')
    /\ forall (i : nat) r, regions w !! i = Some r -> start r <> NULL ->
         exists r', regions w' !! i = Some r' /\ start r' = start r.
Proof.
  intros Hg Hok. destruct (run_calls_good cs w Hg Hok) as (w' & E & _).
  exists w'. split; [exact E|].
  exact (proj1 (proj2 (kept_run_calls cs w tt w' E))).
Qed.

Lemma start_is_set_once_witness :
  exists w',
    run_calls [Alloc MI_SEGMENT_SIZE 0 true; Free (2 ^ 30) MI_SEGMENT_SIZE 0;
               Alloc (20 * MI_SEGMENT_SIZE) 0 false] fragmented_world = Some (tt, w')
    /\ forall (i : nat) r, regions fragmented_world !! i = Some r -> start r <> NULL ->
         exists r', regions w' !! i = Some r' /\ start r' = start r.
Proof.
  apply (start_is_set_once fragmented_world).
  - exact good_fragmented_world.
  - repeat constructor; vm_compute; intuition discriminate.
Defined.

(** X2.  [regions_count] stays within the reservations: from a world where
    it counts no more regions than have their reservation, over any calls
    to allocate and free, and whatever the other threads do in between, it
    never goes down, the number of descriptors with a reservation never
    goes down, and [regions_count] is still at most that number.  (It may
    be less: a thread publishes its reservation before it increments the
    count.) *)
Theorem regions_count_within_reservations (w : world) (cs : list call) :
  good w -> Forall call_ok cs ->
  exists w',
    run_calls cs w = Some (tt, w')
    /\ regions_count w <= regions_count w'
    /\ reserved (regions w) <= reserved (regions w')
    /\ regions_count w' <= reserved (regions w').
Proof.
  intros Hg Hok. destruct (run_calls_good cs w Hg Hok) as (w' & E & Hg' & _).
  exists w'. split; [exact E|].
  destruct (kept_run_calls cs w tt w' E) as (_ & _ & n & Ec & Er).
  pose proof (good_count w Hg) as Hc. pose proof (good_count w' Hg') as Hc'.
  pose proof (reserved_le_length (regions w')) as Hlen.
  rewrite (good_length w' Hg'), MI_REGION_MAX_eq in Hlen.
  rewrite counted_small in Ec by lia. lia.
Qed.

Lemma regions_count_within_reservations_witness :
  exists w',
    run_calls [Alloc MI_SEGMENT_SIZE 0 true; Free (2 ^ 30) MI_SEGMENT_SIZE 0;
               Alloc (2 * MI_SEGMENT_SIZE) 0 false] example_world = Some (tt, w')
    /\ regions_count example_world <= regions_count w'
    /\ reserved (regions example_world) <= reserved (regions w')
    /\ regions_count w' <= reserved (regions w').
Proof.
  apply (regions_count_within_reservations example_world).
  - exact good_example_world.
  - repeat constructor; vm_compute; intuition discriminate.
Defined.

(** * What an allocation returns *)

Lemma good_crowded_world : good crowded_world.
Proof.
  apply mk_good; unfold crowded_world;
    cbn [regions regions_count region_next_idx os_page_size os_alloc_answers start_races
         map_races].
  - rewrite length_insert. apply length_replicate.
  - vm_compute. intuition discriminate.
  - vm_compute. intuition discriminate.
  - apply Forall_insert.
    + apply Forall_replicate. split; [vm_compute; intuition discriminate | apply region_ptr_NULL].
    + split; vm_compute; intuition discriminate.
  - vm_compute. intuition discriminate.
  - constructor.
Qed.

(** The two ways of an allocation: to the OS at once, or to the regions. *)
Lemma alloc_cases size alignment commit w :
  good w -> 0 < size ->
  exists p id w',
    _mi_mem_alloc_aligned size alignment commit w = Some ((p, id), w') /\
    good w' /\ evolves w w' /\
    ((id = SIZE_MAX /\ frame w w' /\
      (exists sz, trace w' = trace w ++ [EvOsAllocAligned sz alignment true p]) /\
      (size > MI_REGION_MAX_ALLOC_SIZE \/ alignment > MI_SEGMENT_ALIGN))
     \/ (0 < size <= MI_REGION_MAX_ALLOC_SIZE /\
         alloc_outcome size w (p, id) w' /\
         alloc_path (_mi_align_up size (os_page_size w)) alignment commit w (p, id) w')).
Proof.
  intros Hg Hs.
  destruct (Z_le_dec size MI_REGION_MAX_ALLOC_SIZE) as [Hsz|Hsz];
    [destruct (Z_le_dec alignment MI_SEGMENT_ALIGN) as [Ha|Ha]|].
  - destruct (_mi_mem_alloc_aligned_spec size alignment commit w Hg ltac:(lia) Ha)
      as ([p id] & w' & E & Hout).
    exists p, id, w'. split; [exact E|]. split; [apply Hout|]. split; [apply Hout|].
    right. split; [lia|]. split; [exact Hout|].
    apply _mi_mem_alloc_aligned_path; auto; lia.
  - destruct (alloc_direct size alignment commit w) as (sz & p & w' & E & _ & Htr & Hf & Hgood);
      [lia|].
    destruct (Hgood Hg). exists p, SIZE_MAX, w'.
    split; [exact E|]. split; [assumption|]. split; [assumption|]. left.
    split; [reflexivity|]. split; [exact Hf|]. split; [now exists sz | lia].
  - destruct (alloc_direct size alignment commit w) as (sz & p & w' & E & _ & Htr & Hf & Hgood);
      [lia|].
    destruct (Hgood Hg). exists p, SIZE_MAX, w'.
    split; [exact E|]. split; [assumption|]. split; [assumption|]. left.
    split; [reflexivity|]. split; [exact Hf|]. split; [now exists sz | lia].
Qed.

Lemma placed_at_id idx blocks p id w' :
  0 <= idx < MI_REGION_MAX -> 1 <= blocks -> placed_at idx blocks p id w' ->
  id / MI_REGION_MAP_BITS = idx /\ 0 <= id mod MI_REGION_MAP_BITS /\
  id mod MI_REGION_MAP_BITS + blocks <= MI_REGION_MAP_BITS /\ id <> SIZE_MAX /\ 0 <= id /\
  exists r', regions w' !! Z.to_nat idx = Some r' /\ start r' <> NULL /\ region_ptr (start r') /\
    p = start r' + id mod MI_REGION_MAP_BITS * MI_SEGMENT_SIZE /\
    Z.land (map r') (mask_at blocks (id mod MI_REGION_MAP_BITS))
    = mask_at blocks (id mod MI_REGION_MAP_BITS) /\
    region_next_idx w' = idx.
Proof.
  intros Hi Hb (bitidx & r' & Hb0 & Hfit & -> & Hl & Hs & Hptr & -> & Hbits & Hn).
  rewrite MI_REGION_MAP_BITS_eq in Hfit.
  destruct (region_id idx bitidx Hi ltac:(lia)) as (_ & Hne & Ediv & Emod).
  rewrite Ediv, Emod. split; [reflexivity|]. split; [exact Hb0|].
  split; [rewrite MI_REGION_MAP_BITS_eq; lia|]. split; [exact Hne|].
  split; [rewrite MI_REGION_MAP_BITS_eq; lia|].
  exists r'. auto 6.
Qed.

(** X3.  The search for the next allocation starts from the region of the
    last one, as long as no other thread writes [region_next_idx] during the
    call (the other threads are followed on the maps and on the
    reservations only, and there they do what they like): an allocation
    that returns a block of a region leaves [region_next_idx] at the index
    of that region, and any other allocation leaves it as it was. *)
Theorem alloc_sets_cursor (w : world) (size alignment : Z) (commit : bool) :
  good w -> 0 < size ->
  exists p id w',
    _mi_mem_alloc_aligned size alignment commit w = Some ((p, id), w')
    /\ region_next_idx w'
       = (if id =? SIZE_MAX then region_next_idx w else id / MI_REGION_MAP_BITS).
Proof.
  intros Hg Hs. destruct (alloc_cases size alignment commit w Hg Hs)
    as (p & id & w' & E & Hg' & Hev & Hcases).
  exists p, id, w'. split; [exact E|].
  destruct Hcases as [(-> & (_ & _ & Hn & _) & _)|(Hsz & _ & Hpath)].
  - now rewrite Z.eqb_refl.
  - destruct (alloc_path_placed _ _ _ _ _ _ _ Hg Hpath) as (Hmax & Hreg & _).
    destruct (Z.eqb_spec id SIZE_MAX) as [Hid|Hid]; [now apply Hmax|].
    destruct (Hreg Hid) as (_ & idx & Hidx & Hpl & _).
    destruct (request_blocks size w Hg Hsz) as [Hblocks _].
    destruct (placed_at_id idx _ p id w' Hidx (proj1 Hblocks) Hpl) as (-> & _ & _ & _ & _ & r' & Hr').
    apply Hr'.
Qed.

Lemma alloc_sets_cursor_witness :
  exists p id w',
    _mi_mem_alloc_aligned MI_SEGMENT_SIZE 0 true crowded_world = Some ((p, id), w')
    /\ region_next_idx w'
       = (if id =? SIZE_MAX then region_next_idx crowded_world else id / MI_REGION_MAP_BITS).
Proof.
  apply (alloc_sets_cursor crowded_world).
  - exact good_crowded_world.
  - reflexivity.
Defined.

(** X4.  What an allocation returns can be freed: whatever the other threads
    do, when [*id] is not [SIZE_MAX] the pointer is not null and on a
    segment boundary, and the pointer, the size asked for and the id pass
    every check that [_mi_mem_free] makes. *)
Theorem alloc_result_passes_free_checks (w : world) (size alignment : Z) (commit : bool) :
  good w -> 0 < size ->
  exists p id w',
    _mi_mem_alloc_aligned size alignment commit w = Some ((p, id), w')
    /\ (id <> SIZE_MAX ->
        p <> NULL /\ p mod MI_SEGMENT_SIZE = 0 /\ 0 <= id /\ free_checks p size id w').
Proof.
  intros Hg Hs. destruct (alloc_cases size alignment commit w Hg Hs)
    as (p & id & w' & E & Hg' & Hev & Hcases).
  exists p, id, w'. split; [exact E|]. intros Hid.
  destruct Hcases as [(-> & _)|(Hsz & _ & Hpath)]; [now contradiction Hid|].
  destruct (alloc_path_placed _ _ _ _ _ _ _ Hg Hpath) as (_ & Hreg & _).
  destruct (Hreg Hid) as (Hp & idx & Hidx & Hpl & _).
  destruct (request_blocks size w Hg Hsz) as [Hblocks _].
  destruct (placed_at_id idx _ p id w' Hidx (proj1 Hblocks) Hpl)
    as (Ediv & Hb0 & Hfit & _ & Hid0 & r' & Hl & Hs' & Hptr & Ep & _).
  split; [exact Hp|].
  assert (Hbit : 0 <= id mod MI_REGION_MAP_BITS < 64).
  { rewrite MI_REGION_MAP_BITS_eq in *. lia. }
  destruct (region_block_ptr (start r') _ Hptr Hs' Hbit) as [Ewrap _].
  split.
  { rewrite Ep. destruct Hptr as (_ & _ & Hal). unfold MI_SEGMENT_ALIGN in Hal.
    rewrite Z.mod_add by (rewrite MI_SEGMENT_SIZE_eq; lia). exact Hal. }
  split; [exact Hid0|].
  unfold free_checks. rewrite (ev_page _ _ Hev), Ediv.
  split; [lia|]. split; [lia|]. split; [|exact Hfit].
  exists r'. split; [exact Hl|]. now rewrite Ewrap.
Qed.

Lemma alloc_result_passes_free_checks_witness :
  exists p id w',
    _mi_mem_alloc_aligned (3 * MI_SEGMENT_SIZE) 0 true fragmented_world = Some ((p, id), w')
    /\ (id <> SIZE_MAX ->
        p <> NULL /\ p mod MI_SEGMENT_SIZE = 0 /\ 0 <= id /\
        free_checks p (3 * MI_SEGMENT_SIZE) id w').
Proof.
  apply (alloc_result_passes_free_checks fragmented_world).
  - exact good_fragmented_world.
  - reflexivity.
Defined.

(** ** What an allocation writes to the maps *)

Lemma map_writes_app l1 l2 : map_writes (l1 ++ l2) = map_writes l1 ++ map_writes l2.
Proof. apply List.filter_app. Qed.

Lemma map_race_trace idx w a w' : map_race idx w = Some (a, w') -> trace w' = trace w.
Proof.
  unfold map_race. destruct (map_races w) as [|[|v] rest].
  - now intros [= _ <-].
  - now intros [= _ <-].
  - intros H. apply store_map_inv in H as (r & _ & ->). reflexivity.
Qed.

(** A compare-and-swap on a [map] is a write when it goes through, and
    nothing when it fails. *)
Lemma mi_atomic_compare_exchange_map_trace idx newmap expected w ok w' :
  mi_atomic_compare_exchange_map idx newmap expected w = Some (ok, w') ->
  trace w' = trace w ++ (if ok then [EvMapWritten idx newmap] else []).
Proof.
  intros H. unfold mi_atomic_compare_exchange_map in H.
  apply bind_inv in H as ([] & w1 & E1 & H). apply map_race_trace in E1.
  apply bind_inv in H as (cur & w2 & E2 & H).
  apply mi_atomic_read_map_inv in E2 as (-> & _).
  destruct (cur =? expected).
  - apply bind_inv in H as ([] & w3 & E3 & H).
    apply store_map_inv in E3 as (r3 & _ & ->).
    apply bind_inv in H as ([] & w4 & E4 & H). injection E4 as <-. injection H as <- <-.
    cbn [trace set_trace set_regions]. now rewrite E1.
  - injection H as <- <-. now rewrite app_nil_r.
Qed.

(** The claim writes nothing when it finds no range, and else one word: the
    [map] of its last round with the mask at the bit index it returns. *)
Lemma claim_trace fuel : forall idx blocks mask bitidx_max bitidx w found w',
  claim fuel idx blocks mask bitidx_max bitidx w = Some (found, w') ->
  match found with
  | None => trace w' = trace w
  | Some b => exists mp shifted,
                shl mask b = Some shifted /\
                trace w' = trace w ++ [EvMapWritten idx (Z.lor mp shifted)]
  end.
Proof.
  induction fuel as [|fuel IH]; intros idx blocks mask bitidx_max bitidx w found w' H;
    [discriminate|].
  cbn [claim] in H.
  apply bind_inv in H as (mp & w1 & E1 & H). apply mi_atomic_read_map_inv in E1 as (-> & _).
  apply bind_inv in H as (b1 & w2 & E2 & H).
  unfold lift in E2. destruct (find_range word_budget blocks bitidx_max mp bitidx); [|discriminate].
  injection E2 as -> <-.
  destruct (b1 >? bitidx_max); [now injection H as <- <-|].
  apply bind_inv in H as (shifted & w3 & E3 & H).
  unfold lift in E3. destruct (shl mask b1) as [sh|] eqn:Esh; [|discriminate].
  injection E3 as -> <-.
  apply bind_inv in H as (ok & w4 & E4 & H).
  apply mi_atomic_compare_exchange_map_trace in E4.
  destruct ok.
  - injection H as <- <-. exists mp, shifted. split; [exact Esh | exact E4].
  - rewrite app_nil_r in E4. rewrite <- E4. exact (IH _ _ _ _ _ _ _ _ H).
Qed.

Lemma mi_region_commit_blocks_writes idx bitidx blocks size commit p id w p' id' w' :
  mi_region_commit_blocks idx bitidx blocks size commit p id w = Some ((true, p', id'), w') ->
  id' = wrap (wrap (idx * MI_REGION_MAP_BITS) + bitidx) /\
  exists delta, trace w' = trace w ++ delta /\ map_writes delta = [].
Proof.
  intros H. unfold mi_region_commit_blocks in H.
  apply bind_inv in H as (mask & w1 & E1 & H).
  unfold lift in E1. destruct (mi_region_block_mask blocks bitidx); [|discriminate].
  injection E1 as -> <-.
  apply bind_inv in H as (s & w2 & E2 & H). apply mi_atomic_read_start_inv in E2 as (-> & _).
  apply bind_inv in H as ([reserved s'] & w3 & E3 & H).
  destruct reserved; cbn [negb] in H; [|discriminate].
  destruct (ensure_reserved_trace _ _ _ _ _ _ E3) as (rs & Ers & Hrs).
  assert (Hnone : map_writes rs = []).
  { destruct Hrs as [->|(a & _ & [->| ->])]; reflexivity. }
  apply bind_inv in H as (eager & w4 & E4 & H). injection E4 as <- <-.
  apply bind_inv in H as ([] & w5 & E5 & H).
  apply bind_inv in H as ([] & w6 & E6 & H). injection E6 as <-.
  injection H as _ <- <-. split; [reflexivity|].
  cbn [trace set_region_next_idx].
  destruct (commit && negb (option_eager_region_commit w3)).
  - apply bind_inv in E5 as (sz & w7 & E7 & E5).
    apply mi_good_commit_size_inv in E7 as (-> & _).
    apply bind_inv in E5 as (okc & w8 & E8 & E5). injection E5 as <-.
    apply _mi_os_commit_inv in E8.
    eexists. rewrite E8, Ers, <- app_assoc. split; [reflexivity|].
    rewrite map_writes_app, Hnone. reflexivity.
  - injection E5 as <-. exists rs. split; [exact Ers | exact Hnone].
Qed.

Lemma wrote_nothing blocks w p : wrote blocks w (true, p, SIZE_MAX) w.
Proof. intros _. exists []. rewrite app_nil_r. split; reflexivity. Qed.

(** The writes of a search that went on after a probe that found no range. *)
Lemma wrote_after blocks w p w1 res w' :
  wrote blocks w (true, p, SIZE_MAX) w1 -> wrote blocks w1 res w' -> wrote blocks w res w'.
Proof.
  intros H1 H2. destruct res as [[ok p'] id]. intros Hok.
  destruct (H1 eq_refl) as (d1 & Et1 & Hd1). destruct (H2 Hok) as (d2 & Et2 & Hd2).
  change (SIZE_MAX =? SIZE_MAX) with true in Hd1. cbn iota in Hd1.
  exists (d1 ++ d2). split; [rewrite Et2, Et1; now rewrite app_assoc|].
  rewrite map_writes_app, Hd1. exact Hd2.
Qed.

Lemma mi_region_alloc_blocks_wrote idx blocks size commit w res w' :
  good w -> 0 <= idx < MI_REGION_MAX -> 1 <= blocks < 64 ->
  mi_region_alloc_blocks idx blocks size commit NULL SIZE_MAX w = Some (res, w') ->
  wrote blocks w res w'.
Proof.
  intros Hg Hi Hb H. unfold mi_region_alloc_blocks in H.
  apply bind_inv in H as (mask & w0 & E0 & H).
  unfold lift in E0. rewrite mask_at_Some in E0 by lia. injection E0 as <- <-.
  rewrite MI_REGION_MAP_BITS_eq in H. rewrite (wrap_small (64 - blocks)) in H by lia.
  apply bind_inv in H as (fuel & w0 & E0 & H). injection E0 as <- <-.
  apply bind_inv in H as (found & w1 & E1 & H).
  pose proof (runs_det _ _ _ _ _
    (claim_spec (S (length (map_races w))) idx blocks 0 w Hg Hi Hb ltac:(lia) ltac:(lia)) E1)
    as (_ & _ & _ & _ & _ & Hfound).
  apply claim_trace in E1.
  destruct found as [b|].
  - destruct Hfound as (Hb0 & Hbsum & _).
    destruct E1 as (mp & shifted & Esh & Et1).
    rewrite shl_mask_at in Esh by lia. injection Esh as <-.
    destruct res as [[ok p] id]. intros ->.
    apply mi_region_commit_blocks_writes in H as (-> & d & Et & Hd).
    destruct (region_id idx b Hi ltac:(lia)) as (-> & Hne & Ediv & Emod).
    exists ([EvMapWritten idx (Z.lor mp (mask_at blocks b))] ++ d).
    split; [rewrite Et, Et1; now rewrite <- app_assoc|].
    destruct (Z.eqb_spec (idx * MI_REGION_MAP_BITS + b) SIZE_MAX) as [|_]; [contradiction|].
    rewrite Ediv, Emod. exists (Z.lor mp (mask_at blocks b)).
    split; [rewrite map_writes_app, Hd; reflexivity|].
    intros k Hk. rewrite Z.lor_spec, mask_at_testbit by lia.
    destruct (Z.ltb_spec k 64); [|lia]. destruct (Z.leb_spec b k); [|lia].
    destruct (Z.ltb_spec k (b + blocks)); [|lia]. apply orb_true_r.
  - injection H as <- <-. intros _. exists []. rewrite app_nil_r. split; [exact E1 | reflexivity].
Qed.

Lemma mi_region_try_alloc_blocks_wrote idx blocks size commit w res w' :
  good w -> 0 <= idx < MI_REGION_MAX -> 1 <= blocks < 64 ->
  mi_region_try_alloc_blocks idx blocks size commit NULL SIZE_MAX w = Some (res, w') ->
  wrote blocks w res w'.
Proof.
  intros Hg Hi Hb H. unfold mi_region_try_alloc_blocks in H.
  apply bind_inv in H as (m & w0 & E0 & H).
  apply mi_atomic_read_map_inv in E0 as (-> & _).
  destruct (m =? MI_REGION_MAP_FULL); cbn [negb] in H.
  - injection H as <- <-. apply wrote_nothing.
  - now apply (mi_region_alloc_blocks_wrote idx _ size commit).
Qed.

Lemma first_sweep_wrote remaining : forall idx count blocks size commit w res w',
  good w -> 0 < count <= MI_REGION_MAX -> 0 <= idx -> idx + Z.of_nat remaining < 2 ^ 64 ->
  1 <= blocks < 64 ->
  first_sweep remaining idx count blocks size commit NULL SIZE_MAX w = Some (res, w') ->
  wrote blocks w res w'.
Proof.
  induction remaining as [|n IH]; intros idx count blocks size commit w res w' Hg Hc Hi Hmax Hb H.
  - injection H as <- <-. apply wrote_nothing.
  - cbn [first_sweep] in H.
    assert (Hmod : 0 <= idx mod count < MI_REGION_MAX).
    { pose proof (Z.mod_pos_bound idx count). lia. }
    apply bind_inv in H as ([[ok1 p1] id1] & w1 & E1 & H).
    pose proof (runs_det _ _ _ _ _
      (mi_region_try_alloc_blocks_spec _ blocks size commit w Hg Hmod Hb) E1) as Hout.
    pose proof (mi_region_try_alloc_blocks_wrote _ _ _ _ _ _ _ Hg Hmod Hb E1) as Hwr.
    destruct ok1; cbn [negb] in H.
    + destruct (Z.eqb_spec p1 NULL) as [->|Hp1]; cbn [negb] in H.
      * assert (id1 = SIZE_MAX) as ->.
        { destruct Hout as (_ & _ & [(_ & Hid & _)|(Hp & _)]); [exact Hid | now contradiction Hp]. }
        rewrite wrap_small in H by lia.
        apply (wrote_after blocks w NULL w1); [exact Hwr|].
        apply (IH (idx + 1) count blocks size commit w1); try assumption; try lia.
        now destruct Hout.
      * injection H as <- <-. exact Hwr.
    + injection H as <- <-. exact Hwr.
Qed.

Lemma second_sweep_wrote remaining : forall idx blocks size commit w res w',
  good w -> 0 <= idx -> idx + Z.of_nat remaining <= MI_REGION_MAX -> 1 <= blocks < 64 ->
  second_sweep remaining idx blocks size commit NULL SIZE_MAX w = Some (res, w') ->
  wrote blocks w res w'.
Proof.
  induction remaining as [|n IH]; intros idx blocks size commit w res w' Hg Hi Hmax Hb H.
  - injection H as <- <-. apply wrote_nothing.
  - cbn [second_sweep] in H.
    assert (Hidx : 0 <= idx < MI_REGION_MAX) by lia.
    apply bind_inv in H as ([[ok1 p1] id1] & w1 & E1 & H).
    pose proof (runs_det _ _ _ _ _
      (mi_region_try_alloc_blocks_spec _ blocks size commit w Hg Hidx Hb) E1) as Hout.
    pose proof (mi_region_try_alloc_blocks_wrote _ _ _ _ _ _ _ Hg Hidx Hb E1) as Hwr.
    pose proof Hmax as Hmax'. rewrite MI_REGION_MAX_eq in Hmax'.
    destruct ok1; cbn [negb] in H.
    + destruct (Z.eqb_spec p1 NULL) as [->|Hp1]; cbn [negb] in H.
      * assert (id1 = SIZE_MAX) as ->.
        { destruct Hout as (_ & _ & [(_ & Hid & _)|(Hp & _)]); [exact Hid | now contradiction Hp]. }
        rewrite wrap_small in H by lia.
        apply (wrote_after blocks w NULL w1); [exact Hwr|].
        apply (IH (idx + 1) blocks size commit w1); try assumption; try lia.
        now destruct Hout.
      * injection H as <- <-. exact Hwr.
    + injection H as <- <-. exact Hwr.
Qed.

(** The one write to a [map] of an allocation that returns a block of a
    region. *)
Lemma _mi_mem_alloc_aligned_wrote size alignment commit w p id w' :
  good w -> 0 < size ->
  _mi_mem_alloc_aligned size alignment commit w = Some ((p, id), w') ->
  id <> SIZE_MAX ->
  wrote (mi_region_block_count (_mi_align_up size (os_page_size w))) w (true, p, id) w'.
Proof.
  intros Hg Hs H Hid.
  destruct (Z_le_dec size MI_REGION_MAX_ALLOC_SIZE) as [Hsz|Hsz];
    [destruct (Z_le_dec alignment MI_SEGMENT_ALIGN) as [Ha|Ha]|].
  2,3: destruct (alloc_direct size alignment commit w) as (sz & p' & w'' & E & _); [lia|];
       rewrite E in H; injection H as _ <- _; now contradiction Hid.
  unfold _mi_mem_alloc_aligned in H.
  assert (E : (size >? MI_REGION_MAX_ALLOC_SIZE) || (alignment >? MI_SEGMENT_ALIGN) = false).
  { apply orb_false_iff. rewrite !Z.gtb_ltb, !Z.ltb_ge. lia. }
  rewrite E in H.
  apply bind_inv in H as (page & w0 & E0 & H). injection E0 as <- <-.
  destruct (request_blocks size w Hg ltac:(lia)) as [Hblocks Hsize].
  set (size' := _mi_align_up size (os_page_size w)) in *.
  set (blocks := mi_region_block_count size') in *.
  apply bind_inv in H as (count & w0 & E0 & H). injection E0 as <- <-.
  apply bind_inv in H as (next & w0 & E0 & H). injection E0 as <- <-.
  pose proof (good_count_max w Hg) as Hc. pose proof (good_next w Hg) as Hn.
  pose proof MI_REGION_MAX_eq as EN.
  apply bind_inv in H as ([[ok1 p1] id1] & w1 & E1 & H).
  assert (H1 : outcome (claimed blocks) w (ok1, p1, id1) w1 /\
               wrote blocks w (ok1, p1, id1) w1).
  { destruct (Z.eq_dec (regions_count w) 0) as [E0|N0].
    - rewrite E0 in *. injection E1 as <- <- <- <-.
      split; [now apply outcome_nothing | apply wrote_nothing].
    - split.
      + apply (runs_det _ _ _ _ _
          (first_sweep_spec (Z.to_nat (regions_count w)) (region_next_idx w) (regions_count w)
             blocks size' commit w Hg ltac:(lia) ltac:(lia) ltac:(lia) ltac:(lia)) E1).
      + apply (first_sweep_wrote (Z.to_nat (regions_count w)) (region_next_idx w)
                 (regions_count w) blocks size' commit w _ w1 Hg); [lia..|exact E1]. }
  destruct H1 as [Hout1 Hwr1]. pose proof (proj1 Hout1) as Hg1.
  destruct ok1; cbn [negb] in H.
  2:{ injection H as _ <- _.
      destruct (outcome_result _ _ _ _ _ _ Hout1) as [[_ Hx]|(Hx & _)];
        [contradiction | discriminate]. }
  apply bind_inv in H as ([[ok2 p2] id2] & w2 & E2 & H).
  destruct (Z.eqb_spec p1 NULL) as [Ep1|Np1].
  2:{ injection E2 as <- <- <- <-. cbn [negb] in H.
      destruct (Z.eqb_spec p1 NULL) as [|_]; [contradiction|]. injection H as <- <- <-.
      exact Hwr1. }
  subst p1.
  assert (id1 = SIZE_MAX) as ->.
  { destruct (outcome_result _ _ _ _ _ _ Hout1) as [[_ Hx]|(_ & Hp & _)];
      [exact Hx | now contradiction Hp]. }
  assert (Hout2 : outcome (claimed blocks) w1 (ok2, p2, id2) w2).
  { apply (runs_det _ _ _ _ _
      (second_sweep_spec (Z.to_nat (MI_REGION_MAX - regions_count w)) (regions_count w) blocks
         size' commit w1 Hg1 ltac:(lia) ltac:(lia) ltac:(lia)) E2). }
  assert (Hwr2 : wrote blocks w1 (ok2, p2, id2) w2).
  { apply (second_sweep_wrote (Z.to_nat (MI_REGION_MAX - regions_count w)) (regions_count w)
             blocks size' commit w1 _ w2 Hg1); [lia..|exact E2]. }
  destruct ok2; cbn [negb] in H.
  2:{ injection H as _ <- _.
      destruct (outcome_result _ _ _ _ _ _ Hout2) as [[_ Hx]|(Hx & _)];
        [contradiction | discriminate]. }
  destruct (Z.eqb_spec p2 NULL) as [Ep2|Np2].
  2:{ injection H as <- <- <-. exact (wrote_after blocks w NULL w1 _ _ Hwr1 Hwr2). }
  apply bind_inv in H as (p3 & w3 & E3 & H). injection H as _ <- _.
  subst p2. destruct (outcome_result _ _ _ _ _ _ Hout2) as [[_ Hx]|(_ & Hp & _)];
    [contradiction | now contradiction Hp].
Qed.

(** X5.  An allocation marks its blocks, once: whatever the other threads
    do, an allocation that returns a block of a region writes to a [map]
    once, by the compare-and-swap of its claim: to the [map] of that region,
    a word in which every bit of the block is set.  (What the other threads
    make of that [map] before the call returns is theirs.) *)
Theorem alloc_marks_its_blocks (w : world) (size alignment : Z) (commit : bool) :
  good w -> 0 < size ->
  exists p id w' delta,
    _mi_mem_alloc_aligned size alignment commit w = Some ((p, id), w')
    /\ trace w' = trace w ++ delta
    /\ (id <> SIZE_MAX ->
        exists v,
          map_writes delta = [EvMapWritten (id / MI_REGION_MAP_BITS) v] /\
          forall k, id mod MI_REGION_MAP_BITS <= k
                    < id mod MI_REGION_MAP_BITS
                      + mi_region_block_count (_mi_align_up size (os_page_size w)) ->
                    Z.testbit v k = true).
Proof.
  intros Hg Hs. destruct (alloc_cases size alignment commit w Hg Hs)
    as (p & id & w' & E & Hg' & Hev & Hcases).
  destruct (Z.eq_dec id SIZE_MAX) as [Hid|Hid].
  - assert (Hd : exists delta, trace w' = trace w ++ delta).
    { destruct Hcases as [(_ & _ & (sz & Htr) & _)|(_ & (_ & _ & Hout) & _)]; [eauto|].
      cbn [fst snd] in Hout.
      destruct Hout as [(_ & _ & _ & (d & Et & _) & _)|[(_ & (d & Et & _) & _)|(_ & Hx & _)]];
        [eauto | eauto | contradiction]. }
    destruct Hd as (delta & Et). exists p, id, w', delta.
    split; [exact E|]. split; [exact Et|]. intros Hx. contradiction.
  - destruct (_mi_mem_alloc_aligned_wrote size alignment commit w p id w' Hg Hs E Hid eq_refl)
      as (delta & Et & Hd).
    exists p, id, w', delta. split; [exact E|]. split; [exact Et|]. intros _.
    destruct (Z.eqb_spec id SIZE_MAX) as [|_]; [contradiction | exact Hd].
Qed.

Lemma alloc_marks_its_blocks_witness :
  exists p id w' delta,
    _mi_mem_alloc_aligned (3 * MI_SEGMENT_SIZE) 0 true racing_world = Some ((p, id), w')
    /\ trace w' = trace racing_world ++ delta
    /\ (id <> SIZE_MAX ->
        exists v,
          map_writes delta = [EvMapWritten (id / MI_REGION_MAP_BITS) v] /\
          forall k, id mod MI_REGION_MAP_BITS <= k
                    < id mod MI_REGION_MAP_BITS
                      + mi_region_block_count
                          (_mi_align_up (3 * MI_SEGMENT_SIZE) (os_page_size racing_world)) ->
                    Z.testbit v k = true).
Proof.
  apply (alloc_marks_its_blocks racing_world).
  - exact good_racing_world.
  - reflexivity.
Defined.

(** X6.  An allocation commits what it returns, and nothing else: whatever
    the other threads do, it calls [_mi_os_commit] once, on the pointer it
    returns and with the good commit size of the size rounded up to the
    page size, when it returns a block of a region, the caller asked for
    committed memory and the regions are not committed eagerly; in every
    other case it does not call [_mi_os_commit]. *)
Theorem alloc_commit_policy (w : world) (size alignment : Z) (commit : bool) :
  good w -> 0 < size ->
  exists p id w' delta,
    _mi_mem_alloc_aligned size alignment commit w = Some ((p, id), w')
    /\ trace w' = trace w ++ delta
    /\ if negb (id =? SIZE_MAX) && (commit && negb (option_eager_region_commit w))
       then exists sz ok,
              mi_good_commit_size (_mi_align_up size (os_page_size w)) w = Some (sz, w)
              /\ commits delta = [EvOsCommit p sz ok]
       else commits delta = [].
Proof.
  intros Hg Hs. destruct (alloc_cases size alignment commit w Hg Hs)
    as (p & id & w' & E & Hg' & Hev & Hcases).
  exists p, id, w'.
  destruct Hcases as [(-> & _ & (sz & Htr) & _)|(Hsz & Hout & Hpath)].
  - eexists. split; [exact E|]. split; [exact Htr|]. rewrite Z.eqb_refl. reflexivity.
  - destruct (alloc_path_placed _ _ _ _ _ _ _ Hg Hpath) as (_ & Hreg & _).
    destruct (Z.eqb_spec id SIZE_MAX) as [Hid|Hid]; cbn [negb andb].
    + destruct Hout as (_ & _ & [(_ & _ & _ & Hnc & _)|[(_ & Hnc & _)|(_ & Hx & _)]]);
        [| |now contradiction Hx].
      * destruct (since_commits _ _ _ (fun e He => He) Hnc) as (d & Et & Ec).
        exists d. auto.
      * destruct (since_commits _ _ _ (fun e He => proj2 He) Hnc) as (d & Et & Ec).
        exists d. auto.
    + destruct (Hreg Hid) as (_ & idx & _ & _ & (d & Et & Hc) & _).
      exists d. auto.
Qed.

Lemma alloc_commit_policy_witness :
  exists p id w' delta,
    _mi_mem_alloc_aligned (3 * MI_SEGMENT_SIZE) 0 true fragmented_world = Some ((p, id), w')
    /\ trace w' = trace fragmented_world ++ delta
    /\ if negb (id =? SIZE_MAX) && (true && negb (option_eager_region_commit fragmented_world))
       then exists sz ok,
              mi_good_commit_size
                (_mi_align_up (3 * MI_SEGMENT_SIZE) (os_page_size fragmented_world))
                fragmented_world = Some (sz, fragmented_world)
              /\ commits delta = [EvOsCommit p sz ok]
       else commits delta = [].
Proof.
  apply (alloc_commit_policy fragmented_world).
  - exact good_fragmented_world.
  - reflexivity.
Defined.

(** X7.  An allocation fails only when the OS does: whatever the other
    threads do, when [_mi_mem_alloc_aligned] returns a null pointer, [*id]
    is [SIZE_MAX] and one of its calls of [_mi_os_alloc_aligned] returned
    [NULL]. *)
Theorem alloc_null_only_when_os_refuses (w : world) (size alignment : Z) (commit : bool) :
  good w -> 0 < size ->
  exists p id w',
    _mi_mem_alloc_aligned size alignment commit w = Some ((p, id), w')
    /\ (p = NULL -> id = SIZE_MAX /\ os_refused w w').
Proof.
  intros Hg Hs. destruct (alloc_cases size alignment commit w Hg Hs)
    as (p & id & w' & E & Hg' & Hev & Hcases).
  exists p, id, w'. split; [exact E|]. intros ->.
  destruct Hcases as [(-> & _ & (sz & Htr) & _)|(Hsz & Hout & Hpath)].
  - split; [reflexivity|]. exists [EvOsAllocAligned sz alignment true NULL], sz, alignment, true.
    split; [exact Htr | apply list_elem_of_here].
  - destruct (alloc_path_placed _ _ _ _ _ _ _ Hg Hpath) as (_ & Hreg & Href).
    split; [|now apply Href].
    destruct (Z.eq_dec id SIZE_MAX) as [|Hid]; [assumption|].
    destruct (Hreg Hid) as [Hp _]. now contradiction Hp.
Qed.

Lemma alloc_null_only_when_os_refuses_witness :
  exists p id w',
    _mi_mem_alloc_aligned MI_SEGMENT_SIZE 0 true
      (world_init 4096 4096 false [NULL] [] [] []) = Some ((p, id), w')
    /\ (p = NULL -> id = SIZE_MAX /\ os_refused (world_init 4096 4096 false [NULL] [] [] []) w').
Proof.
  apply (alloc_null_only_when_os_refuses (world_init 4096 4096 false [NULL] [] [] [])).
  - apply good_world_init; [vm_compute; intuition discriminate | constructor].
  - reflexivity.
Defined.

(** X8.  A region that has its reservation costs no call to the OS for
    memory: whatever the other threads do, when an allocation returns a
    block of a region whose [start] was set before the call, it has not
    called [_mi_os_alloc_aligned], and the block is at its bit index in that
    reservation. *)
Theorem alloc_in_reserved_region_asks_no_memory (w : world) (size alignment : Z)
    (commit : bool) :
  good w -> 0 < size ->
  exists p id w',
    _mi_mem_alloc_aligned size alignment commit w = Some ((p, id), w')
    /\ (id <> SIZE_MAX ->
        forall r, regions w !! Z.to_nat (id / MI_REGION_MAP_BITS) = Some r ->
                  start r <> NULL ->
          since no_os_alloc w w'
          /\ p = start r + id mod MI_REGION_MAP_BITS * MI_SEGMENT_SIZE).
Proof.
  intros Hg Hs. destruct (alloc_cases size alignment commit w Hg Hs)
    as (p & id & w' & E & Hg' & Hev & Hcases).
  exists p, id, w'. split; [exact E|]. intros Hid r Hl Hne.
  destruct Hcases as [(-> & _)|(Hsz & _ & Hpath)]; [now contradiction Hid|].
  destruct (alloc_path_placed _ _ _ _ _ _ _ Hg Hpath) as (_ & Hreg & _).
  destruct (Hreg Hid) as (Hp & idx & Hidx & Hpl & _ & _ & Hnone).
  destruct (request_blocks size w Hg Hsz) as [Hblocks _].
  destruct (placed_at_id idx _ p id w' Hidx (proj1 Hblocks) Hpl)
    as (Ediv & _ & _ & _ & _ & r' & Hl' & _ & _ & Ep & _).
  rewrite Ediv in Hl. split; [now apply (Hnone r)|].
  destruct (kept_alloc_aligned _ _ _ _ _ _ E) as (_ & Hkept & _).
  destruct (Hkept _ r Hl Hne) as (r'' & Hl'' & <-).
  assert (r'' = r') by congruence. now subst r''.
Qed.

Lemma alloc_in_reserved_region_asks_no_memory_witness :
  exists p id w',
    _mi_mem_alloc_aligned (3 * MI_SEGMENT_SIZE) 0 true fragmented_world = Some ((p, id), w')
    /\ (id <> SIZE_MAX ->
        forall r, regions fragmented_world !! Z.to_nat (id / MI_REGION_MAP_BITS) = Some r ->
                  start r <> NULL ->
          since no_os_alloc fragmented_world w'
          /\ p = start r + id mod MI_REGION_MAP_BITS * MI_SEGMENT_SIZE).
Proof.
  apply (alloc_in_reserved_region_asks_no_memory fragmented_world).
  - exact good_fragmented_world.
  - reflexivity.
Defined.

(** X9.  A region is reserved at most once in an allocation, and a
    reservation is never lost: whatever the other threads do, the events of
    an allocation that returns a block of a region are writes of maps; then,
    only when the region had no reservation, one reservation granted by the
    OS, committed as the option for eager commit says, which is published in
    the descriptor of the region or, when another thread has published its
    own first, given back to the OS with [_mi_os_free]; then at most one
    commit, of the range at the pointer returned. *)
Theorem alloc_reserves_at_most_once (w : world) (size alignment : Z) (commit : bool) :
  good w -> 0 < size ->
  exists p id w',
    _mi_mem_alloc_aligned size alignment commit w = Some ((p, id), w')
    /\ (id <> SIZE_MAX -> os_calls (id / MI_REGION_MAP_BITS) p w w').
Proof.
  intros Hg Hs. destruct (alloc_cases size alignment commit w Hg Hs)
    as (p & id & w' & E & Hg' & Hev & Hcases).
  exists p, id, w'. split; [exact E|]. intros Hid.
  destruct Hcases as [(-> & _)|(Hsz & _ & Hpath)]; [now contradiction Hid|].
  destruct (alloc_path_placed _ _ _ _ _ _ _ Hg Hpath) as (_ & Hreg & _).
  destruct (Hreg Hid) as (Hp & idx & Hidx & Hpl & _ & Hcalls & _).
  destruct (request_blocks size w Hg Hsz) as [Hblocks _].
  destruct (placed_at_id idx _ p id w' Hidx (proj1 Hblocks) Hpl) as (-> & _).
  exact Hcalls.
Qed.

Lemma alloc_reserves_at_most_once_witness :
  exists p id w',
    _mi_mem_alloc_aligned MI_SEGMENT_SIZE 0 true
      (world_init 4096 4096 false [2 ^ 30] [] [] [Stored (2 ^ 31)]) = Some ((p, id), w')
    /\ (id <> SIZE_MAX ->
        os_calls (id / MI_REGION_MAP_BITS) p
          (world_init 4096 4096 false [2 ^ 30] [] [] [Stored (2 ^ 31)]) w').
Proof.
  apply (alloc_reserves_at_most_once
           (world_init 4096 4096 false [2 ^ 30] [] [] [Stored (2 ^ 31)])).
  - apply good_world_init; [vm_compute; intuition discriminate | constructor].
  - reflexivity.
Defined.

(** * The search, without interference *)

(** X10.  The OS is the last resort: without interference, when an
    allocation of a size and an alignment that the regions serve returns
    with [*id = SIZE_MAX] and the OS has denied no reservation, no region of
    the table had room for the blocks. *)
Theorem alloc_goes_to_os_only_when_full (w : world) (size alignment : Z) (commit : bool) :
  good w -> map_races w = [] ->
  0 < size <= MI_REGION_MAX_ALLOC_SIZE -> alignment <= MI_SEGMENT_ALIGN ->
  exists p id w',
    _mi_mem_alloc_aligned size alignment commit w = Some ((p, id), w')
    /\ (id = SIZE_MAX -> ~ denied w w' ->
        forall idx, 0 <= idx < MI_REGION_MAX ->
          region_full (mi_region_block_count (_mi_align_up size (os_page_size w))) w idx).
Proof.
  intros Hg Hquiet Hs Ha.
  destruct (_mi_mem_alloc_aligned_spec size alignment commit w Hg Hs Ha)
    as ([p id] & w' & E & _).
  exists p, id, w'. split; [exact E|]. intros Hid Hnd.
  pose proof (_mi_mem_alloc_aligned_path _ _ _ _ _ _ Hg Hs Ha E) as Hpath.
  destruct (alloc_path_first_room _ _ _ _ _ _ _ Hg Hquiet Hpath) as [Hmax _].
  destruct (Hmax Hid) as [(_ & Hd & _)|Hfull]; [contradiction | exact Hfull].
Qed.

Lemma good_full_world : good full_world.
Proof.
  constructor; cbn [full_world regions regions_count region_next_idx os_page_size
                    os_alloc_answers start_races map_races].
  - rewrite length_fmap. apply length_seq.
  - vm_compute. intuition discriminate.
  - vm_compute. intuition discriminate.
  - apply Forall_fmap, Forall_forall. intros i Hi. apply elem_of_seq in Hi.
    rewrite MI_REGION_MAX_eq in Hi. split; [vm_compute; intuition discriminate|].
    cbn [start]. unfold region_ptr, MI_REGION_SIZE, MI_SEGMENT_ALIGN.
    rewrite MI_REGION_MAP_BITS_eq, MI_SEGMENT_SIZE_eq.
    split; [lia|]. split; [lia|].
    replace (2 ^ 30 + Z.of_nat i * (4194304 * 64)) with ((256 + Z.of_nat i * 64) * 4194304)
      by lia.
    apply Z.mod_mul. lia.
  - vm_compute. intuition discriminate.
  - constructor.
Qed.

Lemma alloc_goes_to_os_only_when_full_witness :
  exists p id w',
    _mi_mem_alloc_aligned MI_SEGMENT_SIZE 0 true full_world = Some ((p, id), w')
    /\ (id = SIZE_MAX -> ~ denied full_world w' ->
        forall idx, 0 <= idx < MI_REGION_MAX ->
          region_full
            (mi_region_block_count (_mi_align_up MI_SEGMENT_SIZE (os_page_size full_world)))
            full_world idx).
Proof.
  apply (alloc_goes_to_os_only_when_full full_world).
  - exact good_full_world.
  - reflexivity.
  - vm_compute. intuition discriminate.
  - vm_compute. discriminate.
Defined.

(** X11.  The search takes the first region with room: without
    interference, the region of the block an allocation returns has room
    for it, and it is the first on the way of the search: no region visited
    before it, among the [regions_count] regions taken round from
    [region_next_idx] on and then among the regions beyond the count, has
    room. *)
Theorem alloc_takes_first_region_with_room (w : world) (size alignment : Z)
    (commit : bool) :
  good w -> map_races w = [] ->
  0 < size <= MI_REGION_MAX_ALLOC_SIZE -> alignment <= MI_SEGMENT_ALIGN ->
  exists p id w',
    _mi_mem_alloc_aligned size alignment commit w = Some ((p, id), w')
    /\ (id <> SIZE_MAX ->
        let blocks := mi_region_block_count (_mi_align_up size (os_page_size w)) in
        first_in_sweep blocks w (id / MI_REGION_MAP_BITS)
        /\ ~ region_full blocks w (id / MI_REGION_MAP_BITS)).
Proof.
  intros Hg Hquiet Hs Ha.
  destruct (_mi_mem_alloc_aligned_spec size alignment commit w Hg Hs Ha)
    as ([p id] & w' & E & _).
  exists p, id, w'. split; [exact E|]. intros Hid blocks.
  pose proof (_mi_mem_alloc_aligned_path _ _ _ _ _ _ Hg Hs Ha E) as Hpath.
  destruct (alloc_path_first_room _ _ _ _ _ _ _ Hg Hquiet Hpath) as [_ Hreg].
  destruct (Hreg Hid) as (idx & Hfirst & Hidx & Hclaim).
  destruct (request_blocks size w Hg Hs) as [Hblocks _]. fold blocks in Hblocks.
  assert (Ediv : id / MI_REGION_MAP_BITS = idx).
  { destruct Hclaim as (bitidx & r & s & _ & Hb0 & Hfit & _ & _ & _ & _ & _ & _ & ->).
    rewrite MI_REGION_MAP_BITS_eq in Hfit. apply (region_id idx bitidx Hidx). lia. }
  rewrite Ediv. split; [exact Hfirst|].
  apply (claimed_at_room idx blocks w p id w'); [lia | exact Hclaim].
Qed.

Lemma alloc_takes_first_region_with_room_witness :
  exists p id w',
    _mi_mem_alloc_aligned (3 * MI_SEGMENT_SIZE) 0 true crowded_world = Some ((p, id), w')
    /\ (id <> SIZE_MAX ->
        let blocks :=
          mi_region_block_count
            (_mi_align_up (3 * MI_SEGMENT_SIZE) (os_page_size crowded_world)) in
        first_in_sweep blocks crowded_world (id / MI_REGION_MAP_BITS)
        /\ ~ region_full blocks crowded_world (id / MI_REGION_MAP_BITS)).
Proof.
  apply (alloc_takes_first_region_with_room crowded_world).
  - exact good_crowded_world.
  - reflexivity.
  - vm_compute. intuition discriminate.
  - vm_compute. discriminate.
Defined.

(** * One allocation after another *)

(** Two runs of bits, one set in a word and one unset in it, do not
    overlap. *)
Lemma set_and_free_runs_apart mp b1 n1 b2 n2 :
  0 <= b1 -> 1 <= n1 -> b1 + n1 <= 64 -> 0 <= b2 -> 1 <= n2 -> b2 + n2 <= 64 ->
  Z.land mp (mask_at n1 b1) = mask_at n1 b1 -> Z.land mp (mask_at n2 b2) = 0 ->
  b1 + n1 <= b2 \/ b2 + n2 <= b1.
Proof.
  intros Hb1 Hn1 Hs1 Hb2 Hn2 Hs2 Hset Hfree.
  destruct (Z_le_dec (b1 + n1) b2) as [|H1]; [now left|].
  destruct (Z_le_dec (b2 + n2) b1) as [|H2]; [now right|]. exfalso.
  apply land_mask_zero_iff in Hfree; [|lia..].
  specialize (Hfree (Z.max b1 b2) ltac:(lia)).
  assert (Hbit : Z.testbit (Z.land mp (mask_at n1 b1)) (Z.max b1 b2) = true).
  { rewrite Hset, mask_at_testbit by lia.
    destruct (Z.ltb_spec (Z.max b1 b2) 64); [|lia].
    destruct (Z.leb_spec b1 (Z.max b1 b2)); [|lia].
    destruct (Z.ltb_spec (Z.max b1 b2) (b1 + n1)); [|lia]. reflexivity. }
  rewrite Z.land_spec, Hfree in Hbit. discriminate.
Qed.

(** X12.  No block is given out twice: without interference, when two
    allocations one after the other both return blocks of a region, the
    blocks are in different regions or their runs of bits do not overlap. *)
Theorem successive_allocations_are_disjoint (w : world) (size1 alignment1 : Z)
    (commit1 : bool) (size2 alignment2 : Z) (commit2 : bool) :
  good w -> map_races w = [] -> 0 < size1 -> 0 < size2 ->
  exists p1 id1 w1 p2 id2 w2,
    _mi_mem_alloc_aligned size1 alignment1 commit1 w = Some ((p1, id1), w1)
    /\ _mi_mem_alloc_aligned size2 alignment2 commit2 w1 = Some ((p2, id2), w2)
    /\ (id1 <> SIZE_MAX -> id2 <> SIZE_MAX ->
        let blocks1 := mi_region_block_count (_mi_align_up size1 (os_page_size w)) in
        let blocks2 := mi_region_block_count (_mi_align_up size2 (os_page_size w)) in
        id1 / MI_REGION_MAP_BITS <> id2 / MI_REGION_MAP_BITS
        \/ id1 mod MI_REGION_MAP_BITS + blocks1 <= id2 mod MI_REGION_MAP_BITS
        \/ id2 mod MI_REGION_MAP_BITS + blocks2 <= id1 mod MI_REGION_MAP_BITS).
Proof.
  intros Hg Hquiet Hs1 Hs2.
  destruct (alloc_cases size1 alignment1 commit1 w Hg Hs1)
    as (p1 & id1 & w1 & E1 & Hg1 & Hev1 & Hcases1).
  destruct (alloc_cases size2 alignment2 commit2 w1 Hg1 Hs2)
    as (p2 & id2 & w2 & E2 & Hg2 & Hev2 & Hcases2).
  exists p1, id1, w1, p2, id2, w2. split; [exact E1|]. split; [exact E2|].
  intros Hid1 Hid2 blocks1 blocks2.
  destruct Hcases1 as [(-> & _)|(Hsz1 & _ & Hpath1)]; [now contradiction Hid1|].
  destruct Hcases2 as [(-> & _)|(Hsz2 & Hout2 & _)]; [now contradiction Hid2|].
  destruct (alloc_path_placed _ _ _ _ _ _ _ Hg Hpath1) as (_ & Hreg & _).
  destruct (Hreg Hid1) as (_ & idx1 & Hidx1 & Hpl & _). fold blocks1 in Hpl.
  destruct (request_blocks size1 w Hg Hsz1) as [Hblocks1 _]. fold blocks1 in Hblocks1.
  destruct (request_blocks size2 w1 Hg1 Hsz2) as [Hblocks2 _].
  destruct Hout2 as (_ & _ & [(_ & Hx & _)|[(Hx & _)|(_ & _ & _ & Hclaimed)]]);
    [contradiction..|].
  cbn [fst snd] in Hclaimed. rewrite (ev_page _ _ Hev1) in Hclaimed, Hblocks2.
  fold blocks2 in Hclaimed, Hblocks2.
  destruct (Hclaimed (evolves_quiet _ _ Hev1 Hquiet))
    as (idx2 & Hidx2 & bitidx2 & r & s & Hl & Hb2 & Hfit2 & Hz & _ & _ & _ & _ & _ & Eid2).
  destruct (placed_at_id idx1 blocks1 p1 id1 w1 Hidx1 (proj1 Hblocks1) Hpl)
    as (Ediv1 & Hb1 & Hfit1 & _ & _ & r1 & Hl1 & _ & _ & _ & Hbits & _).
  rewrite MI_REGION_MAP_BITS_eq in *.
  destruct (region_id idx2 bitidx2 Hidx2 ltac:(lia)) as (_ & _ & Ediv2 & Emod2).
  rewrite MI_REGION_MAP_BITS_eq in *. rewrite Eid2, Ediv1, Ediv2, Emod2.
  destruct (Z.eq_dec idx1 idx2) as [<-|Hne]; [right | now left].
  assert (r = r1) by congruence. subst r.
  apply (set_and_free_runs_apart (map r1)); try assumption; lia.
Qed.

Lemma successive_allocations_are_disjoint_witness :
  exists p1 id1 w1 p2 id2 w2,
    _mi_mem_alloc_aligned (3 * MI_SEGMENT_SIZE) 0 true fragmented_world = Some ((p1, id1), w1)
    /\ _mi_mem_alloc_aligned (7 * MI_SEGMENT_SIZE) 0 false w1 = Some ((p2, id2), w2)
    /\ (id1 <> SIZE_MAX -> id2 <> SIZE_MAX ->
        let blocks1 :=
          mi_region_block_count
            (_mi_align_up (3 * MI_SEGMENT_SIZE) (os_page_size fragmented_world)) in
        let blocks2 :=
          mi_region_block_count
            (_mi_align_up (7 * MI_SEGMENT_SIZE) (os_page_size fragmented_world)) in
        id1 / MI_REGION_MAP_BITS <> id2 / MI_REGION_MAP_BITS
        \/ id1 mod MI_REGION_MAP_BITS + blocks1 <= id2 mod MI_REGION_MAP_BITS
        \/ id2 mod MI_REGION_MAP_BITS + blocks2 <= id1 mod MI_REGION_MAP_BITS).
Proof.
  apply (successive_allocations_are_disjoint fragmented_world).
  - exact good_fragmented_world.
  - reflexivity.
  - reflexivity.
  - reflexivity.
Defined.

(** ** Freeing and allocating again *)

(** The search comes first to one region with room only. *)
Lemma first_in_sweep_unique blocks w i j :
  0 <= regions_count w ->
  first_in_sweep blocks w i -> ~ region_full blocks w i ->
  first_in_sweep blocks w j -> ~ region_full blocks w j -> i = j.
Proof.
  intros Hc [(vi & Hvi & Ei & Hbi)|(Hi & Hbi)] Hri [(vj & Hvj & Ej & Hbj)|(Hj & Hbj)] Hrj.
  - destruct (Z.lt_trichotomy vi vj) as [Hlt|[->|Hgt]]; [|congruence|].
    + exfalso. apply Hri. rewrite Ei. apply Hbj. lia.
    + exfalso. apply Hrj. rewrite Ej. apply Hbi. lia.
  - exfalso. apply Hri. apply Hbj.
    pose proof (Z.mod_pos_bound (region_next_idx w + vi) (regions_count w) ltac:(lia)). lia.
  - exfalso. apply Hrj. apply Hbi.
    pose proof (Z.mod_pos_bound (region_next_idx w + vj) (regions_count w) ltac:(lia)). lia.
  - destruct (Z.lt_trichotomy i j) as [Hlt|[->|Hgt]]; [|reflexivity|].
    + exfalso. apply Hri. apply Hbj. lia.
    + exfalso. apply Hrj. apply Hbi. lia.
Qed.

(** Without interference, the free of a block a region-backed allocation
    returned leaves the table as it was before the allocation, but for the
    reservation of the region, which stays. *)
Lemma alloc_then_free size alignment commit w p id w1 :
  good w -> map_races w = [] ->
  0 < size <= MI_REGION_MAX_ALLOC_SIZE -> alignment <= MI_SEGMENT_ALIGN ->
  _mi_mem_alloc_aligned size alignment commit w = Some ((p, id), w1) -> id <> SIZE_MAX ->
  let blocks := mi_region_block_count (_mi_align_up size (os_page_size w)) in
  exists idx bitidx r s w2,
    0 <= idx < MI_REGION_MAX /\ 0 <= bitidx /\ bitidx + blocks <= 64 /\
    id = idx * MI_REGION_MAP_BITS + bitidx /\
    regions w !! Z.to_nat idx = Some r /\
    first_in_sweep blocks w idx /\
    fits (map r) blocks bitidx /\ (forall j, fits (map r) blocks j -> bitidx <= j) /\
    s <> NULL /\ p = s + bitidx * MI_SEGMENT_SIZE /\
    _mi_mem_free p size id w1 = Some (tt, w2) /\
    good w2 /\ evolves w w2 /\
    regions w2 = <[Z.to_nat idx := mk_region (map r) s]> (regions w) /\
    region_next_idx w2 = idx /\ regions_count w <= regions_count w2.
Proof.
  intros Hg Hquiet Hs Ha Ealloc Hid blocks.
  pose proof (runs_det _ _ _ _ _ (_mi_mem_alloc_aligned_spec size alignment commit w Hg Hs Ha)
                Ealloc) as (Hg1 & Hev1 & _).
  pose proof (_mi_mem_alloc_aligned_path _ _ _ _ _ _ Hg Hs Ha Ealloc) as Hpath.
  destruct (alloc_path_first_room _ _ _ _ _ _ _ Hg Hquiet Hpath) as [_ Hreg].
  destruct (Hreg Hid) as (idx & Hfirst & Hidx & Hclaim). fold blocks in Hfirst, Hclaim.
  destruct (alloc_path_placed _ _ _ _ _ _ _ Hg Hpath) as (_ & Hplaced & _).
  destruct (Hplaced Hid) as (Hp & idx' & Hidx' & Hpl & _). fold blocks in Hpl.
  destruct (request_blocks size w Hg Hs) as [Hblocks _]. fold blocks in Hblocks.
  destruct (placed_at_id idx' blocks p id w1 Hidx' (proj1 Hblocks) Hpl)
    as (Ediv' & _ & _ & _ & _ & _ & _ & _ & _ & _ & _ & Hnext).
  destruct Hclaim as (bitidx & r & s & Hl & Hb0 & Hfit & Hz & Hlow & Hs0 & Hptr & Hr1 & Ep & Eid).
  rewrite MI_REGION_MAP_BITS_eq in Hfit.
  destruct (region_id idx bitidx Hidx ltac:(lia)) as (_ & _ & Ediv & Emod).
  assert (idx' = idx) by (rewrite <- Ediv', Eid; exact Ediv). subst idx'.
  destruct (region_block_ptr s bitidx Hptr Hs0 ltac:(lia)) as [Ewrap _].
  assert (Hrok : region_ok r) by exact (proj1 (Forall_lookup _ _) (good_regions w Hg) _ _ Hl).
  assert (Hl1 : regions w1 !! Z.to_nat (id / MI_REGION_MAP_BITS)
                = Some (mk_region (Z.lor (map r) (mask_at blocks bitidx)) s)).
  { rewrite Eid, Ediv, Hr1. now apply (lookup_insert_region _ _ r). }
  pose proof (free_released p size id (mk_region (Z.lor (map r) (mask_at blocks bitidx)) s)
                w1 Hg1 Hp Hs) as Hfree.
  cbv zeta in Hfree. rewrite (ev_page _ _ Hev1) in Hfree. fold blocks in Hfree.
  destruct Hfree as ([] & w2 & Efree & Hg2 & Hev2 & Hc2 & _ & Hr2).
  - rewrite Eid. rewrite MI_REGION_MAX_eq, MI_REGION_MAP_BITS_eq in *. lia.
  - exact Hid.
  - rewrite Eid, Ediv. lia.
  - exact Hl1.
  - cbn [start]. rewrite Eid, Emod, Ewrap. exact Ep.
  - rewrite Eid, Emod, MI_REGION_MAP_BITS_eq. lia.
  - destruct (freed_free _ _ _ _ _ _ Efree) as (_ & _ & Hn2).
    destruct (kept_alloc_aligned _ _ _ _ _ _ Ealloc) as (_ & _ & n & Ec & Er).
    exists idx, bitidx, r, s, w2.
    split; [exact Hidx|]. split; [exact Hb0|]. split; [exact Hfit|]. split; [exact Eid|].
    split; [exact Hl|]. split; [exact Hfirst|]. split.
    { apply fits_run_free; [lia|]. split; [exact Hb0|]. split; [exact Hfit|].
      apply land_mask_zero_iff; [lia..|exact Hz]. }
    split; [exact Hlow|]. split; [exact Hs0|]. split; [exact Ep|]. split; [exact Efree|].
    split; [exact Hg2|]. split; [eapply evolves_trans; eassumption|]. split.
    { rewrite (Hr2 (evolves_quiet _ _ Hev1 Hquiet)), Hr1.
      rewrite Eid, Ediv, Emod. cbn [map start].
      rewrite list_insert_insert_eq.
      now rewrite (lor_land_not _ _ (proj1 Hrok) Hz). }
    split; [congruence|].
    rewrite Hc2.
    pose proof (good_count w Hg) as Hcw. pose proof (good_count w1 Hg1) as Hcw1.
    pose proof (reserved_le_length (regions w1)) as Hlen.
    rewrite (good_length w1 Hg1), MI_REGION_MAX_eq in Hlen.
    rewrite counted_small in Ec by lia. lia.
Qed.

(** X13.  A freed block is used again: without interference, when an
    allocation returns a block of a region and the block is freed with the
    size it was allocated with, the next allocation of that size (whatever
    its commit flag, and with an alignment the regions serve) returns the
    same pointer and the same id. *)
Theorem freed_block_is_reused (w : world) (size alignment : Z) (commit : bool)
    (alignment' : Z) (commit' : bool) :
  good w -> map_races w = [] -> 0 < size -> alignment' <= MI_SEGMENT_ALIGN ->
  exists p id w1 w2 p' id' w3,
    _mi_mem_alloc_aligned size alignment commit w = Some ((p, id), w1)
    /\ _mi_mem_free p size id w1 = Some (tt, w2)
    /\ _mi_mem_alloc_aligned size alignment' commit' w2 = Some ((p', id'), w3)
    /\ (id <> SIZE_MAX -> p' = p /\ id' = id).
Proof.
  intros Hg Hquiet Hs Ha'.
  destruct (alloc_cases size alignment commit w Hg Hs)
    as (p & id & w1 & E1 & Hg1 & Hev1 & Hcases).
  assert (Hid0 : 0 <= id).
  { destruct Hcases as [(-> & _)|(Hsz & _ & Hpath)]; [rewrite SIZE_MAX_eq; lia|].
    destruct (alloc_path_placed _ _ _ _ _ _ _ Hg Hpath) as (_ & Hplaced & _).
    destruct (Z.eq_dec id SIZE_MAX) as [->|Hid]; [rewrite SIZE_MAX_eq; lia|].
    destruct (Hplaced Hid) as (_ & idx & Hidx & Hpl & _).
    destruct (request_blocks size w Hg Hsz) as [Hblocks _].
    now destruct (placed_at_id idx _ p id w1 Hidx (proj1 Hblocks) Hpl) as (_ & _ & _ & _ & H & _). }
  destruct (_mi_mem_free_total p size id w1 Hg1 ltac:(lia) Hid0) as (w2 & E2 & Hg2 & Hev2 & _).
  destruct (alloc_cases size alignment' commit' w2 Hg2 Hs)
    as (p' & id' & w3 & E3 & Hg3 & Hev3 & Hcases3).
  exists p, id, w1, w2, p', id', w3.
  split; [exact E1|]. split; [exact E2|]. split; [exact E3|]. intros Hid.
  destruct Hcases as [(-> & _)|(Hsz & _ & _)]; [now contradiction Hid|].
  assert (Ha : alignment <= MI_SEGMENT_ALIGN).
  { destruct (Z_le_dec alignment MI_SEGMENT_ALIGN) as [|Hbig]; [assumption|].
    destruct (alloc_direct size alignment commit w) as (sz & q & wq & Eq & _); [lia|].
    rewrite Eq in E1. injection E1 as _ <- _. now contradiction Hid. }
  destruct (alloc_then_free size alignment commit w p id w1 Hg Hquiet Hsz Ha E1 Hid)
    as (idx & bitidx & r & s & w2' & Hidx & Hb0 & Hfit & Eid & Hl & Hfirst & Hfits & Hlow & Hs0
        & Ep & E2' & _ & Hev02 & Hr2 & Hn2 & Hc2).
  rewrite E2 in E2'. injection E2' as <-.
  set (blocks := mi_region_block_count (_mi_align_up size (os_page_size w))) in *.
  destruct (request_blocks size w Hg Hsz) as [Hblocks _]. fold blocks in Hblocks.
  pose proof (evolves_quiet _ _ Hev02 Hquiet) as Hquiet2.
  pose proof (good_count_max w Hg) as Hcw. pose proof (good_count_max w2 Hg2) as Hcw2.
  (* the region of the block is the first with room on the way of the second search *)
  assert (Hl2 : regions w2 !! Z.to_nat idx = Some (mk_region (map r) s)).
  { rewrite Hr2. now apply (lookup_insert_region _ _ r). }
  assert (Hroom2 : ~ region_full blocks w2 idx).
  { intros Hfull. exact (Hfull _ Hl2 bitidx Hfits). }
  assert (Hfirst2 : first_in_sweep blocks w2 idx).
  { destruct (Z_lt_dec idx (regions_count w2)) as [Hlt|Hge].
    - left. exists 0. split; [lia|]. rewrite Hn2, Z.add_0_r.
      split; [symmetry; apply Z.mod_small; lia | intros v' Hv'; lia].
    - right. split; [lia|]. intros i Hi.
      destruct Hfirst as [(v & Hv & Ev & _)|(_ & Hbefore)].
      + pose proof (Z.mod_pos_bound (region_next_idx w + v) (regions_count w)). lia.
      + intros ri Hli. apply (Hbefore i Hi ri).
        rewrite Hr2 in Hli. rewrite list_lookup_insert_ne in Hli by lia. exact Hli. }
  destruct Hcases3 as [(_ & _ & _ & Hbig)|(_ & _ & Hpath3)]; [lia|].
  rewrite (ev_page _ _ Hev02) in Hpath3. fold blocks in Hpath3.
  destruct (alloc_path_first_room _ _ _ _ _ _ _ Hg2 Hquiet2 Hpath3) as [Hmax3 Hreg3].
  fold blocks in Hmax3, Hreg3.
  destruct (Z.eq_dec id' SIZE_MAX) as [Hid'|Hid'].
  - exfalso. destruct (Hmax3 Hid') as [(_ & _ & idx3 & r3 & Hf3 & Hidx3 & Hl3 & Hs3 & Hfit3)|Hfull].
    + assert (idx3 = idx).
      { apply (first_in_sweep_unique blocks w2); try assumption; [lia|].
        intros Hfull. destruct Hfit3 as [j Hj]. exact (Hfull _ Hl3 j Hj). }
      subst idx3. rewrite Hl2 in Hl3. injection Hl3 as <-. now apply Hs0.
    + exact (Hroom2 (Hfull idx Hidx)).
  - destruct (Hreg3 Hid') as (idx3 & Hf3 & Hidx3 & Hclaim3).
    assert (idx3 = idx).
    { apply (first_in_sweep_unique blocks w2); try assumption; [lia|].
      apply (claimed_at_room idx3 blocks w2 p' id' w3); [lia | exact Hclaim3]. }
    subst idx3.
    destruct Hclaim3 as (b3 & r3 & s3 & Hl3 & Hb3 & Hfit3 & Hz3 & Hlow3 & _ & _ & Hr3 & Ep3 & Eid3).
    rewrite Hl2 in Hl3. injection Hl3 as <-. cbn [map] in *.
    rewrite MI_REGION_MAP_BITS_eq in Hfit3.
    assert (b3 = bitidx).
    { assert (fits (map r) blocks b3).
      { apply fits_run_free; [lia|]. split; [exact Hb3|]. split; [exact Hfit3|].
        apply land_mask_zero_iff; [lia..|exact Hz3]. }
      pose proof (Hlow b3 H). pose proof (Hlow3 bitidx Hfits). lia. }
    subst b3.
    assert (s3 = s).
    { destruct (kept_alloc_aligned _ _ _ _ _ _ E3) as (_ & Hkept & _).
      destruct (Hkept _ _ Hl2 Hs0) as (r' & Hl' & Es).
      rewrite Hr3 in Hl'. rewrite (lookup_insert_region _ _ _ _ Hl2) in Hl'.
      injection Hl' as <-. exact Es. }
    subst s3. split; congruence.
Qed.

Lemma freed_block_is_reused_witness :
  exists p id w1 w2 p' id' w3,
    _mi_mem_alloc_aligned (3 * MI_SEGMENT_SIZE) 0 true fragmented_world = Some ((p, id), w1)
    /\ _mi_mem_free p (3 * MI_SEGMENT_SIZE) id w1 = Some (tt, w2)
    /\ _mi_mem_alloc_aligned (3 * MI_SEGMENT_SIZE) MI_SEGMENT_SIZE false w2
       = Some ((p', id'), w3)
    /\ (id <> SIZE_MAX -> p' = p /\ id' = id).
Proof.
  apply (freed_block_is_reused fragmented_world).
  - exact good_fragmented_world.
  - reflexivity.
  - reflexivity.
  - vm_compute. discriminate.
Defined.

(** * What a free does *)

(** X14.  A free gives nothing back to the OS but the range it is asked to
    free: whatever the other threads do, it leaves every [start],
    [regions_count] and [region_next_idx] as they were, and it does not call
    [_mi_os_alloc_aligned]. *)
Theorem free_keeps_reservations_and_counters (w : world) (p size id : Z) :
  good w -> 0 <= size -> 0 <= id ->
  exists w',
    _mi_mem_free p size id w = Some (tt, w')
    /\ start <$> regions w' = start <$> regions w
    /\ regions_count w' = regions_count w
    /\ region_next_idx w' = region_next_idx w
    /\ since no_os_alloc w w'.
Proof.
  intros Hg Hs Hid.
  destruct (_mi_mem_free_total p size id w Hg Hs Hid) as (w' & E & _ & _ & Hcases).
  exists w'. split; [exact E|].
  destruct (freed_free _ _ _ _ _ _ E) as (H1 & H2 & H3).
  do 3 (split; [assumption|]).
  destruct Hcases as [->|[(_ & Htr)|(_ & ok & v & Htr)]].
  - apply since_refl.
  - exists [EvOsFree p size]. split; [exact Htr | repeat constructor].
  - eexists. split; [exact Htr|]. unfold release_event.
    destruct (option_eager_region_commit w); repeat constructor.
Qed.

Lemma free_keeps_reservations_and_counters_witness :
  exists w',
    _mi_mem_free (2 ^ 30) MI_SEGMENT_SIZE 0 fragmented_world = Some (tt, w')
    /\ start <$> regions w' = start <$> regions fragmented_world
    /\ regions_count w' = regions_count fragmented_world
    /\ region_next_idx w' = region_next_idx fragmented_world
    /\ since no_os_alloc fragmented_world w'.
Proof.
  apply (free_keeps_reservations_and_counters fragmented_world).
  - exact good_fragmented_world.
  - vm_compute. discriminate.
  - reflexivity.
Defined.

(** A free that passes the checks ends with the loop that clears the bits. *)
Lemma free_ends_in_unclaim p size id r w w' :
  good w -> p <> NULL -> 0 < size <= MI_REGION_MAX_ALLOC_SIZE -> 0 <= id -> id <> SIZE_MAX ->
  let size' := _mi_align_up size (os_page_size w) in
  let idx := id / MI_REGION_MAP_BITS in
  let bitidx := id mod MI_REGION_MAP_BITS in
  let blocks := mi_region_block_count size' in
  idx < MI_REGION_MAX -> regions w !! Z.to_nat idx = Some r ->
  p = wrap (start r + wrap (bitidx * MI_SEGMENT_SIZE)) ->
  bitidx + blocks <= MI_REGION_MAP_BITS ->
  _mi_mem_free p size id w = Some (tt, w') ->
  exists fuel w1, unclaim fuel idx (mask_at blocks bitidx) w1 = Some (tt, w').
Proof.
  intros Hg Hp Hs Hid Hmax size' idx bitidx blocks Hidx Hl Eptr Hfit.
  destruct (free_blocks size id w Hg Hs Hid) as (Hb & Hbit & Hi0 & Emask & Ewrap).
  fold size' in Hb, Emask, Ewrap. fold blocks in Hb, Emask, Ewrap. fold bitidx in Hbit, Emask, Ewrap.
  fold idx in Hi0.
  unfold _mi_mem_free.
  destruct (Z.eqb_spec p NULL) as [|_]; [contradiction|].
  destruct (Z.eqb_spec size 0) as [|_]; [lia|].
  destruct (Z.eqb_spec id SIZE_MAX) as [|_]; [contradiction|].
  rewrite Z.gtb_ltb. destruct (Z.ltb_spec MI_REGION_MAX_ALLOC_SIZE size) as [|_]; [lia|].
  intros H. apply bind_inv in H as (page & w0 & E0 & H). injection E0 as <- <-.
  fold size' in H. fold blocks in H. fold idx in H. fold bitidx in H.
  apply bind_inv in H as (mask & w0 & E0 & H). rewrite Emask in E0. injection E0 as <- <-.
  rewrite Z.geb_leb in H. destruct (Z.leb_spec MI_REGION_MAX idx) as [|_]; [lia|].
  apply bind_inv in H as (s & w0 & E0 & H).
  rewrite (mi_atomic_read_start_eq idx r w Hi0 Hl) in E0. injection E0 as <- <-.
  rewrite <- Eptr, Z.eqb_refl, Ewrap in H. cbn [negb orb] in H.
  rewrite Z.gtb_ltb in H.
  destruct (Z.ltb_spec MI_REGION_MAP_BITS (bitidx + blocks)) as [|_]; [lia|].
  apply bind_inv in H as (eager & w0 & E0 & H). injection E0 as <- <-.
  apply bind_inv in H as ([] & w1 & _ & H).
  apply bind_inv in H as (fuel & w0 & E0 & H). injection E0 as <- <-.
  eauto.
Qed.

(** The loop that clears the bits writes one word, the [map] of its last
    round without the bits of the mask, and that word is in the [map] when
    the loop is left. *)
Lemma unclaim_trace fuel : forall idx mask w a w',
  unclaim fuel idx mask w = Some (a, w') ->
  exists mp r',
    trace w' = trace w ++ [EvMapWritten idx (Z.land mp (not64 mask))] /\
    regions w' !! Z.to_nat idx = Some r' /\ map r' = Z.land mp (not64 mask).
Proof.
  induction fuel as [|fuel IH]; intros idx mask w a w' H; [discriminate|].
  cbn [unclaim] in H.
  apply bind_inv in H as (mp & w1 & E1 & H). apply mi_atomic_read_map_inv in E1 as (-> & _).
  apply bind_inv in H as (ok & w2 & E2 & H).
  pose proof (mi_atomic_compare_exchange_map_trace _ _ _ _ _ _ E2) as Et.
  destruct ok.
  - injection H as _ <-.
    apply mi_atomic_compare_exchange_map_won in E2 as (r' & Hl & Hm).
    exists mp, r'. auto.
  - rewrite app_nil_r in Et. rewrite <- Et. exact (IH _ _ _ _ _ H).
Qed.

(** X15.  A free unmarks its blocks, and nothing else: when [_mi_mem_free]
    is called with a pointer, a size and an id that pass its checks, then,
    whatever the other threads do, it writes to a [map] once, after the
    release of the range: to the [map] of the region of the id, a word in
    which every bit of the block is unset.  When no other thread writes a
    [map] during the call, that word is the [map] of the region on return,
    every other bit of it is as it was in the [map] before the call, and
    the [start] of the region and every other descriptor are as they
    were. *)
Theorem free_unmarks_its_blocks (w : world) (p size id : Z) :
  good w -> p <> NULL -> 0 < size -> 0 <= id -> id <> SIZE_MAX ->
  free_checks p size id w ->
  let idx := id / MI_REGION_MAP_BITS in
  let bitidx := id mod MI_REGION_MAP_BITS in
  let blocks := mi_region_block_count (_mi_align_up size (os_page_size w)) in
  exists w' ok v,
    _mi_mem_free p size id w = Some (tt, w')
    /\ trace w' = trace w ++ [release_event w p (_mi_align_up size (os_page_size w)) ok;
                              EvMapWritten idx v]
    /\ (forall k, bitidx <= k < bitidx + blocks -> Z.testbit v k = false)
    /\ (map_races w = [] ->
        (forall r, regions w !! Z.to_nat idx = Some r ->
           regions w' !! Z.to_nat idx = Some (mk_region v (start r)) /\
           forall k, 0 <= k -> ~ (bitidx <= k < bitidx + blocks) ->
                     Z.testbit v k = Z.testbit (map r) k)
        /\ forall i : nat, i <> Z.to_nat idx -> regions w' !! i = regions w !! i).
Proof.
  intros Hg Hp Hs Hid Hmax (Hsz & Hidx & (r & Hl & Ep) & Hfit) idx bitidx blocks.
  fold idx in Hidx, Hl. fold bitidx in Ep, Hfit. fold blocks in Hfit.
  destruct (free_released p size id r w Hg Hp ltac:(lia) Hid Hmax Hidx Hl Ep Hfit)
    as ([] & w' & E & Hg' & _ & _ & (ok & v & Htr) & Hq).
  fold idx in Hq, Htr. fold bitidx in Hq. fold blocks in Hq.
  destruct (free_ends_in_unclaim p size id r w w' Hg Hp ltac:(lia) Hid Hmax Hidx Hl Ep Hfit E)
    as (fuel & w1 & Eun).
  fold idx in Eun. fold bitidx in Eun. fold blocks in Eun.
  apply unclaim_trace in Eun as (mp & r' & Htr' & Hl' & Hm').
  destruct (free_blocks size id w Hg ltac:(lia) Hid) as (Hb & Hbit & Hi0 & _).
  fold blocks in Hb. fold bitidx in Hbit. rewrite MI_REGION_MAP_BITS_eq in Hfit.
  assert (Ev : v = Z.land mp (not64 (mask_at blocks bitidx))).
  { rewrite Htr in Htr'.
    change [release_event w p (_mi_align_up size (os_page_size w)) ok; EvMapWritten idx v]
      with ([release_event w p (_mi_align_up size (os_page_size w)) ok] ++ [EvMapWritten idx v])
      in Htr'.
    rewrite app_assoc in Htr'. apply app_inj_tail in Htr' as [_ Hlast]. now injection Hlast. }
  exists w', ok, v. split; [exact E|]. split; [exact Htr|]. split.
  { intros k Hk. rewrite Ev, Z.land_spec, not64_testbit, mask_at_testbit by lia.
    destruct (Z.ltb_spec k 64); [|lia]. destruct (Z.leb_spec bitidx k); [|lia].
    destruct (Z.ltb_spec k (bitidx + blocks)); [|lia]. apply andb_false_r. }
  intros Hquiet. specialize (Hq Hquiet). split.
  - intros r0 Hl0. assert (r0 = r) by congruence. subst r0.
    rewrite Hq in Hl'. rewrite (lookup_insert_region _ _ r _ Hl) in Hl'. injection Hl' as <-.
    cbn [map] in Hm'. rewrite <- Hm' in Ev. subst v. split.
    + rewrite Hq. now apply (lookup_insert_region _ _ r).
    + intros k Hk Hout.
      rewrite Z.land_spec, not64_testbit, mask_at_testbit by lia.
      destruct (Z.ltb_spec k 64) as [Hlt|Hge]; cbn [andb].
      * destruct (Z.leb_spec bitidx k); cbn [andb negb]; [|apply andb_true_r].
        destruct (Z.ltb_spec k (bitidx + blocks)); [lia|]. apply andb_true_r.
      * rewrite andb_false_r. symmetry. apply word_testbit_high; [|exact Hge].
        exact (proj1 (proj1 (Forall_lookup _ _) (good_regions w Hg) _ _ Hl)).
  - intros i Hi. rewrite Hq. now apply list_lookup_insert_ne.
Qed.

Lemma free_unmarks_its_blocks_witness :
  exists w' ok v,
    _mi_mem_free (2 ^ 30 + 8 * MI_SEGMENT_SIZE) MI_SEGMENT_SIZE 8 fragmented_world
    = Some (tt, w')
    /\ trace w' = trace fragmented_world
                  ++ [release_event fragmented_world (2 ^ 30 + 8 * MI_SEGMENT_SIZE)
                        (_mi_align_up MI_SEGMENT_SIZE (os_page_size fragmented_world)) ok;
                      EvMapWritten (8 / MI_REGION_MAP_BITS) v]
    /\ (forall k, 8 mod MI_REGION_MAP_BITS <= k
                  < 8 mod MI_REGION_MAP_BITS
                    + mi_region_block_count
                        (_mi_align_up MI_SEGMENT_SIZE (os_page_size fragmented_world)) ->
                  Z.testbit v k = false)
    /\ (map_races fragmented_world = [] ->
        (forall r, regions fragmented_world !! Z.to_nat (8 / MI_REGION_MAP_BITS) = Some r ->
           regions w' !! Z.to_nat (8 / MI_REGION_MAP_BITS) = Some (mk_region v (start r)) /\
           forall k, 0 <= k ->
                     ~ (8 mod MI_REGION_MAP_BITS <= k
                        < 8 mod MI_REGION_MAP_BITS
                          + mi_region_block_count
                              (_mi_align_up MI_SEGMENT_SIZE (os_page_size fragmented_world))) ->
                     Z.testbit v k = Z.testbit (map r) k)
        /\ forall i : nat, i <> Z.to_nat (8 / MI_REGION_MAP_BITS) ->
                           regions w' !! i = regions fragmented_world !! i).
Proof.
  apply (free_unmarks_its_blocks fragmented_world (2 ^ 30 + 8 * MI_SEGMENT_SIZE)
           MI_SEGMENT_SIZE 8).
  - exact good_fragmented_world.
  - vm_compute. discriminate.
  - reflexivity.
  - vm_compute. discriminate.
  - vm_compute. discriminate.
  - unfold free_checks. split; [vm_compute; discriminate|]. split; [reflexivity|].
    split; [|vm_compute; discriminate].
    exists (mk_region 65793 (2 ^ 30)). split; reflexivity.
Defined.

(** * The table after an allocation, without interference *)

(** X16.  An allocation takes free blocks only, and marks nothing else:
    without interference, when an allocation returns a block of a region,
    every bit of the block was unset in the [map] of the region before the
    call, every other bit of that [map] is as it was, and so is every other
    descriptor. *)
Theorem alloc_claims_free_blocks_only (w : world) (size alignment : Z) (commit : bool) :
  good w -> map_races w = [] -> 0 < size ->
  exists p id w',
    _mi_mem_alloc_aligned size alignment commit w = Some ((p, id), w')
    /\ (id <> SIZE_MAX ->
        let idx := id / MI_REGION_MAP_BITS in
        let bitidx := id mod MI_REGION_MAP_BITS in
        let blocks := mi_region_block_count (_mi_align_up size (os_page_size w)) in
        exists r r',
          regions w !! Z.to_nat idx = Some r /\ regions w' !! Z.to_nat idx = Some r'
          /\ (forall k, bitidx <= k < bitidx + blocks -> Z.testbit (map r) k = false)
          /\ (forall k, 0 <= k -> ~ (bitidx <= k < bitidx + blocks) ->
                        Z.testbit (map r') k = Z.testbit (map r) k)
          /\ forall i : nat, i <> Z.to_nat idx -> regions w' !! i = regions w !! i).
Proof.
  intros Hg Hquiet Hs.
  destruct (alloc_cases size alignment commit w Hg Hs)
    as (p & id & w' & E & Hg' & Hev & Hcases).
  exists p, id, w'. split; [exact E|]. intros Hid idx bitidx blocks.
  destruct Hcases as [(-> & _)|(Hsz & Hout & _)]; [now contradiction Hid|].
  destruct Hout as (_ & _ & [(_ & Hx & _)|[(Hx & _)|(_ & _ & _ & Hclaimed)]]);
    [contradiction..|].
  cbn [fst snd] in Hclaimed. fold blocks in Hclaimed.
  destruct (Hclaimed Hquiet)
    as (idx0 & Hidx & b & r & s & Hl & Hb0 & Hfit & Hz & _ & _ & _ & Hr & _ & Eid).
  destruct (request_blocks size w Hg Hsz) as [Hblocks _]. fold blocks in Hblocks.
  rewrite MI_REGION_MAP_BITS_eq in Hfit.
  destruct (region_id idx0 b Hidx ltac:(lia)) as (_ & _ & Ediv & Emod).
  subst idx bitidx. rewrite Eid, Ediv, Emod.
  exists r, (mk_region (Z.lor (map r) (mask_at blocks b)) s).
  split; [exact Hl|]. split; [rewrite Hr; now apply (lookup_insert_region _ _ r)|]. split.
  { apply land_mask_zero_iff; [lia..|exact Hz]. }
  split.
  - intros k Hk Hout. cbn [map]. rewrite Z.lor_spec, mask_at_testbit by lia.
    destruct (Z.ltb_spec k 64); cbn [andb]; [|apply orb_false_r].
    destruct (Z.leb_spec b k); cbn [andb]; [|apply orb_false_r].
    destruct (Z.ltb_spec k (b + blocks)); [lia|]. apply orb_false_r.
  - intros i Hi. rewrite Hr. now apply list_lookup_insert_ne.
Qed.

Lemma alloc_claims_free_blocks_only_witness :
  exists p id w',
    _mi_mem_alloc_aligned (9 * MI_SEGMENT_SIZE) 0 true fragmented_world = Some ((p, id), w')
    /\ (id <> SIZE_MAX ->
        let idx := id / MI_REGION_MAP_BITS in
        let bitidx := id mod MI_REGION_MAP_BITS in
        let blocks :=
          mi_region_block_count
            (_mi_align_up (9 * MI_SEGMENT_SIZE) (os_page_size fragmented_world)) in
        exists r r',
          regions fragmented_world !! Z.to_nat idx = Some r
          /\ regions w' !! Z.to_nat idx = Some r'
          /\ (forall k, bitidx <= k < bitidx + blocks -> Z.testbit (map r) k = false)
          /\ (forall k, 0 <= k -> ~ (bitidx <= k < bitidx + blocks) ->
                        Z.testbit (map r') k = Z.testbit (map r) k)
          /\ forall i : nat, i <> Z.to_nat idx ->
                             regions w' !! i = regions fragmented_world !! i).
Proof.
  apply (alloc_claims_free_blocks_only fragmented_world).
  - exact good_fragmented_world.
  - reflexivity.
  - reflexivity.
Defined.

(** X17.  An allocation that gives no block of a region leaves the table
    alone: without interference, when [_mi_mem_alloc_aligned] returns with
    [*id = SIZE_MAX] (the OS was asked at once, no region had room, or the
    reservation of a region was denied), [regions], [regions_count] and
    [region_next_idx] are as they were. *)
Theorem alloc_without_block_leaves_table (w : world) (size alignment : Z) (commit : bool) :
  good w -> map_races w = [] -> 0 < size ->
  exists p id w',
    _mi_mem_alloc_aligned size alignment commit w = Some ((p, id), w')
    /\ (id = SIZE_MAX ->
        regions w' = regions w /\ regions_count w' = regions_count w
        /\ region_next_idx w' = region_next_idx w).
Proof.
  intros Hg Hquiet Hs.
  destruct (alloc_cases size alignment commit w Hg Hs)
    as (p & id & w' & E & Hg' & Hev & Hcases).
  exists p, id, w'. split; [exact E|]. intros Hid.
  destruct Hcases as [(_ & (Hr & Hc & Hn & _) & _)|(Hsz & Hout & Hpath)]; [auto|].
  destruct (alloc_path_placed _ _ _ _ _ _ _ Hg Hpath) as (Hnext & _).
  assert (Hr : regions w' = regions w).
  { destruct Hout as (_ & _ & [(_ & _ & _ & _ & Hr)|[(_ & _ & Hr)|(_ & Hx & _)]]);
      [now apply Hr | now apply Hr | contradiction]. }
  split; [exact Hr|]. split; [|now apply Hnext].
  destruct (kept_alloc_aligned _ _ _ _ _ _ E) as (_ & _ & n & Ec & Er).
  rewrite Hr in Er. assert (n = 0%nat) by lia. subst n. exact Ec.
Qed.

Lemma alloc_without_block_leaves_table_witness :
  exists p id w',
    _mi_mem_alloc_aligned MI_SEGMENT_SIZE 0 true full_world = Some ((p, id), w')
    /\ (id = SIZE_MAX ->
        regions w' = regions full_world /\ regions_count w' = regions_count full_world
        /\ region_next_idx w' = region_next_idx full_world).
Proof.
  apply (alloc_without_block_leaves_table full_world).
  - exact good_full_world.
  - reflexivity.
  - reflexivity.
Defined.

(** * The size of a commit *)

Lemma _mi_align_up_multiple sz a :
  0 <= sz -> 0 < a -> sz + a < 2 ^ 64 -> _mi_align_up sz a mod a = 0.
Proof.
  intros Hsz Ha Hmax. unfold _mi_align_up.
  pose proof (Z.mul_div_le sz a Ha) as Hle.
  pose proof (Z.mod_pos_bound sz a Ha) as Hmod.
  pose proof (Z.div_mod sz a ltac:(lia)) as Hdm.
  assert (0 <= sz / a) by (apply Z.div_pos; lia).
  assert (0 <= sz / a * a) by nia.
  rewrite (wrap_small (sz / a * a)) by lia.
  destruct (Z.ltb_spec (sz / a * a) sz) as [Hlt|Hge].
  - rewrite (wrap_small (sz / a * a + a)) by lia.
    destruct (Z.ltb_spec (sz / a * a + a) sz); [lia|].
    replace (sz / a * a + a) with ((sz / a + 1) * a) by lia. apply Z.mod_mul. lia.
  - destruct (Z.ltb_spec (sz / a * a) sz); [lia|]. apply Z.mod_mul. lia.
Qed.

(** X18.  The good commit size does not wrap around: for a size and a
    large page size that are words, [mi_good_commit_size] changes nothing
    and returns a word that is at least the size and less than one large
    page above it; it is the size itself when rounding up could leave the
    word, and else a multiple of the large page size ([_mi_align_up] being
    taken as rounding up to a multiple). *)
Theorem mi_good_commit_size_no_overflow (w : world) (size : Z) :
  0 <= size <= SIZE_MAX -> 0 < os_large_page_size w <= SIZE_MAX ->
  exists sz,
    mi_good_commit_size size w = Some (sz, w)
    /\ size <= sz <= SIZE_MAX
    /\ sz < size + os_large_page_size w
    /\ (if size >? SIZE_MAX - os_large_page_size w then sz = size
        else sz mod os_large_page_size w = 0).
Proof.
  intros Hs Hl. rewrite SIZE_MAX_eq in *.
  unfold mi_good_commit_size, bind, _mi_os_large_page_size, gets, ret.
  rewrite SIZE_MAX_eq. rewrite wrap_small by lia.
  rewrite Z.gtb_ltb. destruct (Z.ltb_spec (18446744073709551615 - os_large_page_size w) size).
  - exists size. split; [reflexivity|]. lia.
  - exists (_mi_align_up size (os_large_page_size w)). split; [reflexivity|].
    pose proof (_mi_align_up_range size (os_large_page_size w) ltac:(lia) ltac:(lia) ltac:(lia)).
    split; [lia|]. split; [lia|]. apply _mi_align_up_multiple; lia.
Qed.

Lemma mi_good_commit_size_no_overflow_witness :
  exists sz,
    mi_good_commit_size (5 * MI_SEGMENT_SIZE + 1) example_world = Some (sz, example_world)
    /\ 5 * MI_SEGMENT_SIZE + 1 <= sz <= SIZE_MAX
    /\ sz < 5 * MI_SEGMENT_SIZE + 1 + os_large_page_size example_world
    /\ (if 5 * MI_SEGMENT_SIZE + 1 >? SIZE_MAX - os_large_page_size example_world
        then sz = 5 * MI_SEGMENT_SIZE + 1
        else sz mod os_large_page_size example_world = 0).
Proof.
  apply (mi_good_commit_size_no_overflow example_world).
  - vm_compute. intuition discriminate.
  - vm_compute. intuition discriminate.
Defined.

(** * The round trip and the roll-back *)

Lemma maps_insert_start (l : list mem_region_t) i r s :
  l !! i = Some r -> map <$> <[i := mk_region (map r) s]> l = map <$> l.
Proof.
  intros Hl. rewrite list_fmap_insert. cbn [map]. apply list_insert_id.
  rewrite list_lookup_fmap, Hl. reflexivity.
Qed.

(** X19.  The round trip of a block: when no other thread writes a [map]
    between the call of the allocation and the return of the free, the free
    of a block with the size it was allocated with, and the pointer and the
    id a region-backed allocation returned for it, runs to its end and
    leaves every [map] of the table as it was before the allocation. *)
Theorem free_restores_map (w : world) (size alignment : Z) (commit : bool)
    (p id : Z) (w1 : world) :
  good w -> map_races w = [] ->
  0 < size <= MI_REGION_MAX_ALLOC_SIZE ->
  _mi_mem_alloc_aligned size alignment commit w = Some ((p, id), w1) ->
  p <> NULL -> id <> SIZE_MAX ->
  exists w2,
    _mi_mem_free p size id w1 = Some (tt, w2)
    /\ map <$> regions w2 = map <$> regions w.
Proof.
  intros Hg Hquiet Hs Ealloc Hp Hid.
  destruct (Z_le_dec alignment MI_SEGMENT_ALIGN) as [Ha|Ha].
  2:{ destruct (alloc_direct size alignment commit w) as (sz & p' & w' & E & _); [lia|].
      rewrite E in Ealloc. congruence. }
  pose proof (runs_det _ _ _ _ _ (_mi_mem_alloc_aligned_spec size alignment commit w Hg Hs Ha) Ealloc)
    as (Hg1 & Hev1 & Hout).
  cbn [fst snd] in Hout.
  destruct Hout as [(_ & Hx & _)|[(Hx & _)|(_ & _ & _ & Hclaimed)]]; [contradiction..|].
  destruct (Hclaimed Hquiet)
    as (idx & Hidx & bitidx & r & s & Hl & Hb0 & Hfit & Hz & _ & Hs0 & Hptr & Hr1 & Ep & Eid).
  pose proof (ev_page _ _ Hev1) as Epage.
  destruct (request_blocks size w Hg Hs) as [Hblocks _].
  set (blocks := mi_region_block_count (_mi_align_up size (os_page_size w))) in *.
  rewrite MI_REGION_MAP_BITS_eq in Hfit.
  destruct (region_id idx bitidx Hidx ltac:(lia)) as (_ & _ & Ediv & Emod).
  destruct (region_block_ptr s bitidx Hptr Hs0 ltac:(lia)) as [Ewrap _].
  assert (Hrok : region_ok r) by exact (proj1 (Forall_lookup _ _) (good_regions w Hg) _ _ Hl).
  assert (Hl1 : regions w1 !! Z.to_nat (id / MI_REGION_MAP_BITS)
                = Some (mk_region (Z.lor (map r) (mask_at blocks bitidx)) s)).
  { rewrite Eid, Ediv, Hr1. now apply (lookup_insert_region _ _ r). }
  pose proof (free_released p size id (mk_region (Z.lor (map r) (mask_at blocks bitidx)) s)
                w1 Hg1 Hp Hs) as Hfree.
  cbv zeta in Hfree. rewrite Epage in Hfree. fold blocks in Hfree.
  destruct Hfree as ([] & w2 & Efree & _ & _ & _ & _ & Hr2).
  - rewrite Eid. rewrite MI_REGION_MAX_eq, MI_REGION_MAP_BITS_eq in *. lia.
  - exact Hid.
  - rewrite Eid, Ediv. lia.
  - exact Hl1.
  - cbn [start]. rewrite Eid, Emod, Ewrap. exact Ep.
  - rewrite Eid, Emod, MI_REGION_MAP_BITS_eq. lia.
  - exists w2. split; [exact Efree|].
    rewrite (Hr2 (evolves_quiet _ _ Hev1 Hquiet)), Hr1.
    rewrite Eid, Ediv, Emod. cbn [map start].
    rewrite list_insert_insert_eq.
    rewrite (lor_land_not _ _ (proj1 Hrok) Hz).
    now apply maps_insert_start.
Qed.

Lemma free_restores_map_witness :
  exists w2,
    _mi_mem_free (2 ^ 30) (5 * 1024 * 1024) 0
      (mk_world (<[0%nat := mk_region 3 (2 ^ 30)]> regions_init) 1 0 4096 4096 false [] [] [] []
         [EvMapWritten 0 3; EvOsAllocAligned MI_REGION_SIZE MI_SEGMENT_ALIGN false (2 ^ 30);
          EvStartWritten 0 (2 ^ 30); EvOsCommit (2 ^ 30) (5 * 1024 * 1024) true])
    = Some (tt, w2)
    /\ map <$> regions w2 = map <$> regions example_world.
Proof.
  apply (free_restores_map example_world (5 * 1024 * 1024) 0 true).
  - exact good_example_world.
  - reflexivity.
  - vm_compute. intuition discriminate.
  - vm_compute. reflexivity.
  - vm_compute. discriminate.
  - vm_compute. discriminate.
Defined.

(** X20.  A denied reservation is an allocation failure: whatever the other
    threads do, when the OS denies the reservation of a region during an
    allocation (which it is asked for after the bits were claimed), the
    allocation returns a null pointer with [*id = SIZE_MAX]; and when no
    other thread writes a [map] during the call, the table is what it was
    before the call: no bit is left claimed. *)
Theorem denied_reservation_returns_null (w : world) (size alignment : Z) (commit : bool)
    (p id : Z) (w' : world) :
  good w -> 0 < size ->
  _mi_mem_alloc_aligned size alignment commit w = Some ((p, id), w') ->
  denied w w' ->
  p = NULL /\ id = SIZE_MAX /\ (map_races w = [] -> regions w' = regions w).
Proof. exact (alloc_denied_returns_null w size alignment commit p id w'). Qed.

Lemma denied_reservation_returns_null_witness :
  NULL = NULL /\ SIZE_MAX = SIZE_MAX
  /\ (map_races (world_init 4096 4096 false [] [] [] []) = [] ->
      regions (set_trace [EvMapWritten 0 1;
                          EvOsAllocAligned MI_REGION_SIZE MI_SEGMENT_ALIGN false NULL;
                          EvMapWritten 0 0]
                 (world_init 4096 4096 false [] [] [] []))
      = regions (world_init 4096 4096 false [] [] [] [])).
Proof.
  apply (denied_reservation_returns_null (world_init 4096 4096 false [] [] [] [])
           MI_SEGMENT_SIZE 0 true).
  - apply good_world_init; [vm_compute; intuition discriminate | constructor].
  - reflexivity.
  - vm_compute. reflexivity.
  - eexists. split; [reflexivity|]. apply Exists_cons_tl, Exists_cons_hd. now exists false.
Defined.
